(** * A shallow embedding of [advanced-vector/vector.h]

    [RawMemory<T>] owns a block of raw slots, [Vector<T>] keeps a
    [RawMemory<T>] and the number [size_] of constructed elements.

    Memory is a list of blocks; a block remembers whether it is still
    allocated and, for every slot, whether a [T] lives there ([Some v]) or the
    slot is raw memory ([None]).  [Vector] objects live in a store of objects
    indexed by their address, so that [this == &rhs] and self-assignment can
    be expressed.  Every allocation, release, construction, destruction and
    assignment of an element is recorded in an event log.

    Element operations that may throw (copy construction, construction from
    arguments, value initialisation, assignment, and moves unless [T]'s move
    is [noexcept]) each consume one tick of a counter; the element type decides
    through [throws_at] at which ticks the operation throws.  Undefined
    behaviour (access to a slot that does not exist or holds no object,
    release of a block twice, ...) and failing [assert]s are final outcomes.
    Element counts are [nat]: [size_ * 2] would wrap only for a vector of
    [2^63] elements, and [size_ - 1] in [PopBack] is written out where it
    occurs.  The byte count [n * sizeof(T)] that [RawMemory] passes to
    [operator new] is computed modulo [2^64], as in [size_t], and
    [operator new] throws [std::bad_alloc] when the element type's allocator
    oracle [new_fails] says so. *)

From Stdlib Require Import Arith Lia Bool NArith.
From stdpp Require Import base list.

(** ** Element types *)

(** What the code asks of [T] through type traits, and how the element type
    behaves at run time. *)
Record traits (T : Type) := mk_traits {
  nothrow_move : bool;           (* std::is_nothrow_move_constructible_v<T> *)
  nothrow_move_assign : bool;    (* move assignment is noexcept *)
  copyable : bool;               (* std::is_copy_constructible_v<T> *)
  moved_from : T -> T;           (* value left behind by a move *)
  value_init : T;                (* T() *)
  throws_at : nat -> bool;       (* does the n-th throwing operation throw? *)
  elem_size : positive;          (* sizeof(T) *)
  new_fails : nat -> N -> bool   (* does operator new, asked for block number k
                                    with that many bytes, throw std::bad_alloc? *)
}.
Arguments mk_traits {T}.
Arguments nothrow_move {T}.
Arguments nothrow_move_assign {T}.
Arguments copyable {T}.
Arguments moved_from {T}.
Arguments value_init {T}.
Arguments throws_at {T}.
Arguments elem_size {T}.
Arguments new_fails {T}.

(** How an element is constructed: copy, move, from forwarded arguments,
    value initialisation. *)
Inductive ctor_kind := CopyC | MoveC | ArgsC | ValueC.
Inductive assign_kind := CopyA | MoveA.

(** A [T*]: the block it points into ([None] is [nullptr]) and an offset. *)
Record ptr := mk_ptr { pblk : option nat; poff : nat }.

Definition ptr_add (p : ptr) (k : nat) : ptr := mk_ptr (pblk p) (poff p + k).
Definition ptr_sub (p : ptr) (k : nat) : ptr := mk_ptr (pblk p) (poff p - k).

Inductive event :=
  | EAlloc (b n : nat)
  | EDealloc (b : nat)
  | EConstruct (p : ptr) (k : ctor_kind)
  | EDestroy (p : ptr)
  | EAssign (p : ptr) (k : assign_kind)
  | ETemp (k : ctor_kind)
  | ETempDestroy.

(** The arguments [args...] of [EmplaceBack] and [Emplace], as the element
    [T(args...)] is built from them: a value that is not an element of the
    vector, or a reference to a slot, which the constructor reads when it
    runs (and leaves moved-from when it moves from it). *)
Inductive emplace_arg (T : Type) := AVal (v : T) | ARef (p : ptr).
Arguments AVal {T}.
Arguments ARef {T}.

(** ** Memory, objects and outcomes *)

Record block (T : Type) := mk_block { blk_live : bool; blk_slots : list (option T) }.
Arguments mk_block {T}.
Arguments blk_live {T}.
Arguments blk_slots {T}.

(** [RawMemory<T>]: [buffer_] and [capacity_]. *)
Record rawmem := mk_raw { buffer : option nat; capacity : nat }.

(** [Vector<T>]: [data_] and [size_]. *)
Record vector := mk_vec { data : rawmem; size : nat }.

Record state (T : Type) := mk_state {
  heap : list (block T);
  objs : list vector;
  log : list event;
  tick : nat
}.
Arguments mk_state {T}.
Arguments heap {T}.
Arguments objs {T}.
Arguments log {T}.
Arguments tick {T}.

Inductive outcome (T A : Type) :=
  | Ok (a : A) (s : state T)     (* normal return *)
  | Exn (s : state T)            (* an exception propagates out *)
  | AssertFail                   (* an assert fails *)
  | UB.                          (* undefined behaviour *)
Arguments Ok {T A}.
Arguments Exn {T A}.
Arguments AssertFail {T A}.
Arguments UB {T A}.

Definition M (T A : Type) := state T -> outcome T A.

Global Instance M_ret {T} : MRet (M T) := fun A a s => Ok a s.
Global Instance M_bind {T} : MBind (M T) := fun A B f m s =>
  match m s with
  | Ok a s' => f a s'
  | Exn s' => Exn s'
  | AssertFail => AssertFail
  | UB => UB
  end.

Section Model.

Context {T : Type} (tr : traits T).

Definition ub {A} : M T A := fun _ => UB.
Definition assert_fail {A} : M T A := fun _ => AssertFail.

(** [try { m } catch (...) { h; throw; }] *)
Definition catch_rethrow {A} (m : M T A) (h : M T unit) : M T A := fun s =>
  match m s with
  | Exn s' => match h s' with Ok _ s'' => Exn s'' | Exn s'' => Exn s''
              | AssertFail => AssertFail | UB => UB end
  | r => r
  end.

Definition emit (e : event) : M T unit := fun s =>
  Ok tt (mk_state (heap s) (objs s) (log s ++ [e]) (tick s)).

(** One element operation that may throw: it throws if the element type
    says so at the current tick. *)
Definition may_throw (nothrow : bool) : M T unit := fun s =>
  if nothrow then Ok tt s else
  let s' := mk_state (heap s) (objs s) (log s) (S (tick s)) in
  if throws_at tr (tick s) then Exn s' else Ok tt s'.

Definition ctor_nothrow (k : ctor_kind) : bool :=
  match k with MoveC => nothrow_move tr | _ => false end.

Definition assign_nothrow (k : assign_kind) : bool :=
  match k with MoveA => nothrow_move_assign tr | CopyA => false end.

(** *** Blocks and slots *)

Definition get_block (b : nat) : M T (block T) := fun s =>
  match heap s !! b with
  | Some blk => if blk_live blk then Ok blk s else UB
  | None => UB
  end.

Definition put_block (b : nat) (blk : block T) : M T unit := fun s =>
  Ok tt (mk_state (<[b := blk]> (heap s)) (objs s) (log s) (tick s)).

Definition get_slot (p : ptr) : M T (option T) :=
  match pblk p with
  | None => ub
  | Some b =>
      blk ← get_block b;
      match blk_slots blk !! poff p with Some x => mret x | None => ub end
  end.

Definition put_slot (p : ptr) (x : option T) : M T unit :=
  match pblk p with
  | None => ub
  | Some b =>
      blk ← get_block b;
      put_block b (mk_block true (<[poff p := x]> (blk_slots blk)))
  end.

Definition read_at (p : ptr) : M T T :=
  x ← get_slot p;
  match x with Some v => mret v | None => ub end.

(** [new (p) T(...)] *)
Definition construct_at (p : ptr) (k : ctor_kind) (v : T) : M T unit :=
  _ ← get_slot p;
  may_throw (ctor_nothrow k);;
  put_slot p (Some v);;
  emit (EConstruct p k).

(** [std::destroy_at(p)] *)
Definition destroy_at (p : ptr) : M T unit :=
  x ← get_slot p;
  match x with
  | Some _ => put_slot p None;; emit (EDestroy p)
  | None => ub
  end.

(** [*p = v] by copy or move assignment *)
Definition assign_at (p : ptr) (k : assign_kind) (v : T) : M T unit :=
  x ← get_slot p;
  match x with
  | Some _ => may_throw (assign_nothrow k);; put_slot p (Some v);; emit (EAssign p k)
  | None => ub
  end.

(** A moved-from object keeps living with the value [moved_from v]. *)
Definition leave_moved_from (p : ptr) (v : T) : M T unit :=
  put_slot p (Some (moved_from tr v)).

(** A temporary [T(args...)] and its destruction. *)
Definition make_temp (k : ctor_kind) (v : T) : M T T :=
  may_throw (ctor_nothrow k);; emit (ETemp k);; mret v.

Definition destroy_temp : M T unit := emit ETempDestroy.

(** [new (p) T(std::forward<Args>(args)...)] *)
Definition construct_arg (p : ptr) (k : ctor_kind) (a : emplace_arg T) : M T unit :=
  match a with
  | AVal v => construct_at p k v
  | ARef q =>
      v ← read_at q;
      construct_at p k v;;
      match k with MoveC => leave_moved_from q v | _ => mret tt end
  end.

(** The temporary [T(std::forward<Args>(args)...)] *)
Definition make_temp_arg (k : ctor_kind) (a : emplace_arg T) : M T T :=
  match a with
  | AVal v => make_temp k v
  | ARef q =>
      v ← read_at q;
      t ← make_temp k v;
      (match k with MoveC => leave_moved_from q v | _ => mret tt end);;
      mret t
  end.

(** *** The uninitialized-memory and range algorithms of <memory> and
    <algorithm>, with libstdc++'s rollback: when constructing element [j]
    throws, the [j] elements already constructed are destroyed in order. *)

Fixpoint for_ (j n : nat) (body : nat -> M T unit) : M T unit :=
  match n with
  | 0 => mret tt
  | S n' => body j;; for_ (S j) n' body
  end.

Definition destroy_n (first : ptr) (n : nat) : M T unit :=
  for_ 0 n (fun j => destroy_at (ptr_add first j)).

Definition uninitialized_copy_n (first : ptr) (n : nat) (d : ptr) : M T unit :=
  for_ 0 n (fun j =>
    catch_rethrow
      (v ← read_at (ptr_add first j); construct_at (ptr_add d j) CopyC v)
      (destroy_n d j)).

Definition uninitialized_move_n (first : ptr) (n : nat) (d : ptr) : M T unit :=
  for_ 0 n (fun j =>
    catch_rethrow
      (v ← read_at (ptr_add first j);
       construct_at (ptr_add d j) MoveC v;;
       leave_moved_from (ptr_add first j) v)
      (destroy_n d j)).

Definition uninitialized_value_construct_n (d : ptr) (n : nat) : M T unit :=
  for_ 0 n (fun j =>
    catch_rethrow (construct_at (ptr_add d j) ValueC (value_init tr)) (destroy_n d j)).

Definition copy_n (first : ptr) (n : nat) (d : ptr) : M T unit :=
  for_ 0 n (fun j => v ← read_at (ptr_add first j); assign_at (ptr_add d j) CopyA v).

(** [std::move(first, last, d_first)] *)
Definition std_move (first last d : ptr) : M T unit :=
  if poff last <? poff first then ub else
  for_ 0 (poff last - poff first) (fun j =>
    v ← read_at (ptr_add first j);
    assign_at (ptr_add d j) MoveA v;;
    leave_moved_from (ptr_add first j) v).

(** [std::move_backward(first, last, d_last)] *)
Definition move_backward (first last d_last : ptr) : M T unit :=
  if poff last <? poff first then ub else
  for_ 0 (poff last - poff first) (fun j =>
    v ← read_at (ptr_sub last (S j));
    assign_at (ptr_sub d_last (S j)) MoveA v;;
    leave_moved_from (ptr_sub last (S j)) v).

(** ** [RawMemory<T>] *)

(** The byte count [n * sizeof(T)] passed to [operator new], computed in
    [size_t]: it wraps modulo [2^64]. *)
Definition alloc_bytes (n : nat) : N := (N.of_nat n * Npos (elem_size tr) mod 2 ^ 64)%N.

(** The raw slots for [T] in a block of [alloc_bytes n] bytes. *)
Definition alloc_slots (n : nat) : nat := N.to_nat (alloc_bytes n / Npos (elem_size tr))%N.

(** [n * sizeof(T)] does not wrap. *)
Definition fits (n : nat) : bool := (N.of_nat n * Npos (elem_size tr) <? 2 ^ 64)%N.

(** [Allocate(n)]: [nullptr] for [n == 0]; otherwise
    [operator new(n * sizeof(T))], which throws [std::bad_alloc], allocating
    nothing, when the allocator fails, and otherwise returns a fresh block of
    [alloc_slots n] raw slots ([n] of them unless the byte count wrapped).
    The event [EAlloc b n] records the block and the [n] requested. *)
Definition Allocate (n : nat) : M T (option nat) :=
  if n =? 0 then mret None else fun s =>
  let b := length (heap s) in
  if new_fails tr b (alloc_bytes n) then Exn s else
  Ok (Some b) (mk_state (heap s ++ [mk_block true (replicate (alloc_slots n) None)]) (objs s)
                        (log s ++ [EAlloc b n]) (tick s)).

(** [Deallocate(buf)]: [operator delete(nullptr)] does nothing; releasing a
    block that is not allocated any more is undefined. *)
Definition Deallocate (buf : option nat) : M T unit :=
  match buf with
  | None => mret tt
  | Some b =>
      blk ← get_block b;
      put_block b (mk_block false (blk_slots blk));;
      emit (EDealloc b)
  end.

(** [explicit RawMemory(size_t capacity)] *)
Definition raw_new (n : nat) : M T rawmem :=
  b ← Allocate n; mret (mk_raw b n).

(** [~RawMemory()] *)
Definition raw_dtor (r : rawmem) : M T unit := Deallocate (buffer r).

End Model.

(** [RawMemory(RawMemory&&)]: the new object and the emptied source. *)
Definition raw_move_ctor (other : rawmem) : rawmem * rawmem :=
  (mk_raw (buffer other) (capacity other), mk_raw None 0).

(** [lhs = std::move(rhs)]: the fields of [rhs] overwrite those of [lhs],
    [rhs] becomes [(nullptr, 0)]. The results are the new [lhs] and [rhs]. *)
Definition raw_move_assign (lhs rhs : rawmem) : rawmem * rawmem :=
  (mk_raw (buffer rhs) (capacity rhs), mk_raw None 0).

(** [lhs.Swap(rhs)] *)
Definition raw_swap (lhs rhs : rawmem) : rawmem * rawmem := (rhs, lhs).

Definition GetAddress (r : rawmem) : ptr := mk_ptr (buffer r) 0.

Section RawOps.
Context {T : Type}.

(** [RawMemory::operator+]: one past the end is allowed. *)
Definition raw_plus (r : rawmem) (offset : nat) : M T ptr :=
  if offset <=? capacity r then mret (mk_ptr (buffer r) offset) else assert_fail.

(** [RawMemory::operator[]] *)
Definition raw_index (r : rawmem) (index : nat) : M T ptr :=
  if index <? capacity r then mret (mk_ptr (buffer r) index) else assert_fail.

(** *** The object store *)

Definition get_obj (i : nat) : M T vector := fun s =>
  match objs s !! i with Some v => Ok v s | None => UB end.

Definition set_obj (i : nat) (v : vector) : M T unit := fun s =>
  match objs s !! i with
  | Some _ => Ok tt (mk_state (heap s) (<[i := v]> (objs s)) (log s) (tick s))
  | None => UB
  end.

(** A new object (a declared variable or a temporary) at a fresh address. *)
Definition new_obj (v : vector) : M T nat := fun s =>
  Ok (length (objs s)) (mk_state (heap s) (objs s ++ [v]) (log s) (tick s)).

Definition declare (mk : M T vector) : M T nat := v ← mk; new_obj v.

Definition set_data (i : nat) (d : rawmem) : M T unit :=
  v ← get_obj i; set_obj i (mk_vec d (size v)).

Definition set_size (i : nat) (n : nat) : M T unit :=
  v ← get_obj i; set_obj i (mk_vec (data v) n).

End RawOps.

(** ** [Vector<T>] *)

Section Vector.
Context {T : Type} (tr : traits T).

Definition vbegin (v : vector) : ptr := GetAddress (data v).
Definition vend (v : vector) : ptr := ptr_add (GetAddress (data v)) (size v).

(** [Vector::TransferDataSafely] *)
Definition TransferDataSafely (old_begin : ptr) (count : nat) (new_begin : ptr) : M T unit :=
  if nothrow_move tr || negb (copyable tr)
  then uninitialized_move_n tr old_begin count new_begin
  else uninitialized_copy_n tr old_begin count new_begin.

(** [Vector() = default] *)
Definition vec_default : M T vector := mret (mk_vec (mk_raw None 0) 0).

(** [explicit Vector(size_t size)]: if a value initialisation throws, the
    member [data_] is destroyed. *)
Definition vec_sized (n : nat) : M T vector :=
  d ← raw_new tr n;
  catch_rethrow (uninitialized_value_construct_n tr (GetAddress d) n) (raw_dtor d);;
  mret (mk_vec d n).

(** [explicit Vector(const Vector& other)] *)
Definition vec_copy (other : nat) : M T vector :=
  o ← get_obj other;
  d ← raw_new tr (size o);
  catch_rethrow (uninitialized_copy_n tr (GetAddress (data o)) (size o) (GetAddress d))
                (raw_dtor d);;
  mret (mk_vec d (size o)).

(** [Vector(Vector&& other) noexcept] *)
Definition vec_move (other : nat) : M T vector :=
  o ← get_obj other;
  let '(d, od) := raw_move_ctor (data o) in
  set_data other od;;
  set_size other 0;;
  mret (mk_vec d (size o)).

(** [~Vector()] followed by [~RawMemory()] of the member [data_] *)
Definition vec_dtor (this : nat) : M T unit :=
  self ← get_obj this;
  destroy_n (vbegin self) (size self);;
  raw_dtor (data self).

(** [void Swap(Vector& other) noexcept] *)
Definition Swap (this other : nat) : M T unit :=
  a ← get_obj this;
  b ← get_obj other;
  let '(da, db) := raw_swap (data a) (data b) in
  set_data this da;; set_data other db;;
  set_size this (size b);; set_size other (size a).

(** [Vector& operator=(const Vector& rhs)] *)
Definition copy_assign (this rhs : nat) : M T unit :=
  if this =? rhs then mret tt else
  self ← get_obj this;
  r ← get_obj rhs;
  if capacity (data self) <? size r then
    rhs_copy ← declare (vec_copy rhs);
    Swap this rhs_copy;;
    vec_dtor rhs_copy
  else if size r <? size self then
    copy_n tr (vbegin r) (size r) (vbegin self);;
    destroy_n (ptr_add (vbegin self) (size r)) (size self - size r);;
    set_size this (size r)
  else
    copy_n tr (vbegin r) (size self) (vbegin self);;
    uninitialized_copy_n tr (ptr_add (vbegin r) (size self)) (size r - size self)
                         (ptr_add (vbegin self) (size self));;
    set_size this (size r).

(** [Vector& operator=(Vector&& rhs) noexcept], one field at a time as
    [std::exchange] does it. *)
Definition move_assign (this rhs : nat) : M T unit :=
  (* data_ = std::move(rhs.data_) *)
  r ← get_obj rhs; set_data rhs (mk_raw None (capacity (data r)));;
  t ← get_obj this; set_data this (mk_raw (buffer (data r)) (capacity (data t)));;
  r ← get_obj rhs; set_data rhs (mk_raw (buffer (data r)) 0);;
  t ← get_obj this; set_data this (mk_raw (buffer (data t)) (capacity (data r)));;
  (* size_ = std::exchange(rhs.size_, 0) *)
  r ← get_obj rhs; set_size rhs 0;;
  set_size this (size r).

(** [T& operator[](size_t index)] *)
Definition vec_index (this index : nat) : M T ptr :=
  self ← get_obj this;
  if index <? size self then raw_index (data self) index else assert_fail.

(** [void Reserve(size_t new_capacity)] *)
Definition Reserve (this new_capacity : nat) : M T unit :=
  self ← get_obj this;
  if new_capacity <=? capacity (data self) then mret tt else
  new_data ← raw_new tr new_capacity;
  catch_rethrow (TransferDataSafely (GetAddress (data self)) (size self) (GetAddress new_data))
                (raw_dtor new_data);;
  destroy_n (GetAddress (data self)) (size self);;
  let '(d, nd) := raw_swap (data self) new_data in
  set_data this d;;
  raw_dtor nd.

(** [void Resize(size_t new_size)] *)
Definition Resize (this new_size : nat) : M T unit :=
  self ← get_obj this;
  if new_size <? size self then
    destroy_n (ptr_add (vbegin self) new_size) (size self - new_size);;
    set_size this new_size
  else
    Reserve this new_size;;
    self' ← get_obj this;
    uninitialized_value_construct_n tr (ptr_add (vbegin self') (size self')) (new_size - size self');;
    set_size this new_size.

(** [void PushBack(const T& value)] *)
Definition PushBack_copy (this : nat) (value : T) : M T unit :=
  self ← get_obj this;
  if size self =? capacity (data self) then
    new_data ← raw_new tr (if size self =? 0 then 1 else size self * 2);
    catch_rethrow
      (p ← raw_plus new_data (size self);
       construct_at tr p CopyC value;;
       TransferDataSafely (GetAddress (data self)) (size self) (GetAddress new_data))
      (raw_dtor new_data);;
    destroy_n (GetAddress (data self)) (size self);;
    let '(d, nd) := raw_swap (data self) new_data in
    set_data this d;;
    raw_dtor nd;;
    set_size this (S (size self))
  else
    p ← raw_plus (data self) (size self);
    construct_at tr p CopyC value;;
    set_size this (S (size self)).

(** [void PushBack(T&& value)] *)
Definition PushBack_move (this : nat) (value : T) : M T unit :=
  self ← get_obj this;
  if size self =? capacity (data self) then
    new_data ← raw_new tr (if size self =? 0 then 1 else size self * 2);
    catch_rethrow
      (p ← raw_plus new_data (size self);
       construct_at tr p MoveC value;;
       TransferDataSafely (GetAddress (data self)) (size self) (GetAddress new_data))
      (raw_dtor new_data);;
    destroy_n (GetAddress (data self)) (size self);;
    let '(d, nd) := raw_move_assign (data self) new_data in
    set_data this d;;
    raw_dtor nd;;
    set_size this (S (size self))
  else
    p ← raw_plus (data self) (size self);
    construct_at tr p MoveC value;;
    set_size this (S (size self)).

(** [T& EmplaceBack(Args&&... args)]: [k] is the constructor the arguments
    select, [a] the argument it builds the element from. *)
Definition EmplaceBack (this : nat) (k : ctor_kind) (a : emplace_arg T) : M T ptr :=
  self ← get_obj this;
  if size self =? capacity (data self) then
    new_data ← raw_new tr (if size self =? 0 then 1 else size self * 2);
    emplaced_value ← catch_rethrow
      (p ← raw_plus new_data (size self);
       construct_arg tr p k a;;
       TransferDataSafely (GetAddress (data self)) (size self) (GetAddress new_data);;
       mret p)
      (raw_dtor new_data);
    destroy_n (GetAddress (data self)) (size self);;
    let '(d, nd) := raw_move_assign (data self) new_data in
    set_data this d;;
    raw_dtor nd;;
    set_size this (S (size self));;
    mret emplaced_value
  else
    p ← raw_plus (data self) (size self);
    construct_arg tr p k a;;
    set_size this (S (size self));;
    mret p.

(** [void PopBack() noexcept]: for [size_ == 0], [size_ - 1] wraps to
    [SIZE_MAX] and [GetAddress() + SIZE_MAX] lies outside every block. *)
Definition PopBack (this : nat) : M T unit :=
  self ← get_obj this;
  if size self =? 0 then ub else
  destroy_at (ptr_add (GetAddress (data self)) (size self - 1));;
  set_size this (size self - 1).

(** [iterator Emplace(const_iterator pos, Args&&... args)] with
    [pos == cbegin() + offset]; an iterator outside [[begin(), end()]] is
    not an iterator of the vector. *)
Definition Emplace (this offset : nat) (k : ctor_kind) (a : emplace_arg T) : M T ptr :=
  self ← get_obj this;
  if size self <? offset then ub else
  if offset =? size self then
    EmplaceBack this k a;;
    self' ← get_obj this;
    mret (ptr_add (vbegin self') offset)
  else if size self =? capacity (data self) then
    new_data ← raw_new tr (if size self =? 0 then 1 else size self * 2);
    catch_rethrow
      (p ← raw_plus new_data offset;
       construct_arg tr p k a;;
       catch_rethrow
         (TransferDataSafely (vbegin self) offset (GetAddress new_data))
         (destroy_at (ptr_add (GetAddress new_data) offset));;
       catch_rethrow
         (TransferDataSafely (ptr_add (vbegin self) offset) (size self - offset)
                             (ptr_add (GetAddress new_data) (offset + 1)))
         (destroy_n (GetAddress new_data) (offset + 1)))
      (raw_dtor new_data);;
    destroy_n (GetAddress (data self)) (size self);;
    let '(d, nd) := raw_move_assign (data self) new_data in
    set_data this d;;
    raw_dtor nd;;
    set_size this (S (size self));;
    self' ← get_obj this;
    mret (ptr_add (vbegin self') offset)
  else
    (* new (end()) T(std::forward<T>( * (end() - 1))) *)
    last ← read_at (ptr_sub (vend self) 1);
    construct_at tr (vend self) MoveC last;;
    leave_moved_from tr (ptr_sub (vend self) 1) last;;
    move_backward tr (ptr_add (vbegin self) offset) (ptr_sub (vend self) 1) (vend self);;
    (* data_[offset] = T(std::forward<Args>(args)...) *)
    tmp ← make_temp_arg tr k a;
    p ← raw_index (data self) offset;
    catch_rethrow (assign_at tr p MoveA tmp) destroy_temp;;
    destroy_temp;;
    set_size this (S (size self));;
    mret (ptr_add (vbegin self) offset).

(** [iterator Erase(const_iterator pos)] with [pos == cbegin() + offset] *)
Definition Erase (this offset : nat) : M T ptr :=
  self ← get_obj this;
  std_move tr (ptr_add (vbegin self) (offset + 1)) (vend self) (ptr_add (vbegin self) offset);;
  destroy_at (ptr_sub (vend self) 1);;
  set_size this (size self - 1);;
  mret (ptr_add (vbegin self) offset).

(** [Insert(pos, const T&)] and [Insert(pos, T&&)] *)
Definition Insert_copy (this offset : nat) (value : emplace_arg T) : M T ptr :=
  Emplace this offset CopyC value.
Definition Insert_move (this offset : nat) (value : emplace_arg T) : M T ptr :=
  Emplace this offset MoveC value.

End Vector.

(** The three ways of appending one element: [PushBack(const T&)],
    [PushBack(T&&)] and [EmplaceBack(args...)]. *)
Inductive push_kind := PushCopy | PushMove | EmplaceBackK (k : ctor_kind).

Section Ops.
Context {T : Type} (tr : traits T).

Definition push_back_op (op : push_kind) (this : nat) (value : T) : M T unit :=
  match op with
  | PushCopy => PushBack_copy tr this value
  | PushMove => PushBack_move tr this value
  | EmplaceBackK k => _ ← EmplaceBack tr this k (AVal value); mret tt
  end.

(** Every way of inserting one element: the appends, and [Emplace] at
    [offset] (which [Insert] calls). *)
Inductive insert_kind := IPush (op : push_kind) | IEmplace (offset : nat) (k : ctor_kind).

Definition insert_op (op : insert_kind) (this : nat) (value : T) : M T unit :=
  match op with
  | IPush o => push_back_op o this value
  | IEmplace offset k => _ ← Emplace tr this offset k (AVal value); mret tt
  end.

End Ops.

(** The sizes of the blocks allocated by a run, in order. *)
Fixpoint allocs (es : list event) : list nat :=
  match es with
  | [] => []
  | EAlloc _ n :: es' => n :: allocs es'
  | _ :: es' => allocs es'
  end.

Section Aux.
Context {T : Type} (tr : traits T).
Implicit Types (s : state T).

(** The first of [n] consecutive throwing operations, from tick [t] on,
    that throws. *)
Fixpoint first_throw (t n : nat) : option nat :=
  match n with
  | 0 => None
  | S n' => if throws_at tr t then Some 0 else option_map S (first_throw (S t) n')
  end.

Definition throws (nothrow : bool) (t : nat) : bool :=
  if nothrow then false else throws_at tr t.

Definition tick_step (nothrow : bool) (t : nat) : nat :=
  if nothrow then t else S t.

Definition move_ticks (i : nat) : nat := if nothrow_move tr then 0 else i.

Definition ev_constructs (d : ptr) (k : ctor_kind) (n : nat) : list event :=
  map (fun j => EConstruct (ptr_add d j) k) (seq 0 n).
Definition ev_destroys (d : ptr) (n : nat) : list event :=
  map (fun j => EDestroy (ptr_add d j)) (seq 0 n).

Definition assign_ticks (i : nat) : nat := if nothrow_move_assign tr then 0 else i.

Definition ev_assigns (d : ptr) (n : nat) : list event :=
  map (fun j => EAssign (ptr_add d j) MoveA) (seq 0 n).
Definition ev_copy_assigns (d : ptr) (n : nat) : list event :=
  map (fun j => EAssign (ptr_add d j) CopyA) (seq 0 n).

Definition slot_live (x : option T) : bool := match x with Some _ => true | None => false end.

(** [size_ <= capacity], [nullptr] exactly for capacity 0, the buffer is an
    allocated block of [capacity] slots, [[0, size)] hold elements and
    [[size, capacity)] are raw. *)
Definition vec_wf s (v : vector) : bool :=
  (size v <=? capacity (data v)) &&
  match buffer (data v) with
  | None => capacity (data v) =? 0
  | Some b =>
      match heap s !! b with
      | Some blk =>
          blk_live blk && (length (blk_slots blk) =? capacity (data v))
          && forallb slot_live (take (size v) (blk_slots blk))
          && forallb (fun x => negb (slot_live x)) (drop (size v) (blk_slots blk))
      | None => false
      end
  end.

(** The slots [[0, size)] of a vector: its elements. *)
Definition vec_slots s (v : vector) : list (option T) :=
  match buffer (data v) with
  | None => []
  | Some b => match heap s !! b with Some blk => take (size v) (blk_slots blk) | None => [] end
  end.

(** The log grows by events that allocate nothing. *)
Definition log_ext_noalloc (l l' : list event) : Prop := exists es, l' = l ++ es /\ allocs es = [].

(** The shape of the heap: which blocks are live and which of their slots
    hold an object. *)
Definition shape (s : state T) : list (bool * list bool) :=
  map (fun blk => (blk_live blk, map slot_live (blk_slots blk))) (heap s).

(** Slot [p] holds an object, read off the shape. *)
Definition live_at (s : state T) (p : ptr) : Prop :=
  exists b bs, pblk p = Some b /\ shape s !! b = Some (true, bs) /\ bs !! poff p = Some true.

(** The number of slots of each block of the heap. *)
Definition blk_lens (s : state T) : list nat := map (fun blk => length (blk_slots blk)) (heap s).

(** Slot [p] exists: its block, live or not, has a slot at [poff p]. *)
Definition has_slot (s : state T) (p : ptr) : Prop :=
  exists b c, pblk p = Some b /\ blk_lens s !! b = Some c /\ poff p < c.

(** Code that keeps the number of slots of every block. *)
Definition lens_op {A} (m : M T A) : Prop :=
  (forall s a s', m s = Ok a s' -> blk_lens s' = blk_lens s) /\
  (forall s s', m s = Exn s' -> blk_lens s' = blk_lens s).

(** Code that allocates no block and leaves the object store alone. *)
Definition elem_op {A} (m : M T A) : Prop :=
  (forall s a s', m s = Ok a s' -> objs s' = objs s /\ log_ext_noalloc (log s) (log s')) /\
  (forall s s', m s = Exn s' -> objs s' = objs s /\ log_ext_noalloc (log s) (log s')).

(** Code that allocates no block (it may update the object store). *)
Definition noalloc {A} (m : M T A) : Prop :=
  (forall s a s', m s = Ok a s' -> log_ext_noalloc (log s) (log s')) /\
  (forall s s', m s = Exn s' -> log_ext_noalloc (log s) (log s')).

Definition no_exn {A} (m : M T A) : Prop := forall s s', m s <> Exn s'.

(** The state right after [RawMemory(n)] allocated a block of [m] slots. *)
Definition alloc_state_sl s (n m : nat) : state T :=
  mk_state (heap s ++ [mk_block true (replicate m None)]) (objs s)
           (log s ++ [EAlloc (length (heap s)) n]) (tick s).

(** The state right after [RawMemory(n)] allocated its block of [n] slots. *)
Definition alloc_state s (n : nat) : state T :=
  mk_state (heap s ++ [mk_block true (replicate n None)]) (objs s)
           (log s ++ [EAlloc (length (heap s)) n]) (tick s).

(** The value left at the slot right after the [i] elements already moved
    one slot to the left. *)
Definition moved_last (x0 : T) (ws : list T) (i : nat) : T :=
  match i with 0 => x0 | S _ => moved_from tr (default x0 (ws !! (i - 1))) end.

End Aux.

(** ** Concrete element types, vectors and programs *)

(** An [int]-like element type: nothing it does throws. *)
Definition int_tr : traits nat := mk_traits true true true (fun v => v) 0 (fun _ => false) 4 (fun _ _ => false).

(** A copyable element type whose move constructor is not [noexcept], and a
    move-only element type whose move constructor is not [noexcept]; both
    throw at their third throwing operation, and a moved-from object holds 0. *)
Definition copy_throwing_tr : traits nat :=
  mk_traits false false true (fun v => v) 0 (fun t => t =? 2) 4 (fun _ _ => false).

(** Object 0 holds [[5; 6]] in a full buffer of two slots. *)
Definition full2_vec : vector := mk_vec (mk_raw (Some 0) 2) 2.
Definition full2_state : state nat :=
  mk_state [mk_block true [Some 5; Some 6]] [full2_vec] [] 0.

Definition empty_state : state nat := mk_state [] [] [] 0.

(** An empty vector as object 0, and [[5; 6]] next to an empty vector. *)
Definition empty_vec : vector := mk_vec (mk_raw None 0) 0.
Definition one_empty_state : state nat := mk_state [] [empty_vec] [] 0.
Definition two_state : state nat :=
  mk_state [mk_block true [Some 5; Some 6]] [full2_vec; empty_vec] [] 0.

(** [[5; 6]] in a full buffer of two slots, after two throwing operations:
    the next one throws with [copy_throwing_tr]. *)
Definition full2_state_t2 : state nat :=
  mk_state [mk_block true [Some 5; Some 6]] [full2_vec] [] 2.

(** Object 0 holds [[5; 6]] in a buffer of three slots. *)
Definition spare3_vec : vector := mk_vec (mk_raw (Some 0) 3) 2.
Definition spare3_state : state nat :=
  mk_state [mk_block true [Some 5; Some 6; None]] [spare3_vec] [] 0.

(** [[5; 6]] in a buffer of three slots, after two throwing operations. *)
Definition spare3_state_t2 : state nat :=
  mk_state [mk_block true [Some 5; Some 6; None]] [spare3_vec] [] 2.

(** Object 0 holds [[5; 6]] in a full buffer of two slots, object 1 holds
    [[7]] in a buffer of two slots, after one throwing operation. *)
Definition pair_spare_state : state nat :=
  mk_state [mk_block true [Some 5; Some 6]; mk_block true [Some 7; None]]
           [full2_vec; mk_vec (mk_raw (Some 1) 2) 1] [] 1.

(** [Vector<int> v; v.PushBack(1); v.PushBack(2);] and the end of [v]'s
    lifetime, with rvalue arguments. *)
Definition leak_program : M nat unit :=
  v ← declare vec_default;
  PushBack_move int_tr v 1;;
  PushBack_move int_tr v 2;;
  vec_dtor v.

(** An element type with [noexcept] moves whose third throwing operation,
    here the construction of the temporary [T(args...)], throws. *)
Definition temp_throw_tr : traits nat :=
  mk_traits true true true (fun _ => 0) 0 (fun t => t =? 2) 4 (fun _ _ => false).

(** [Vector<T> v; v.Reserve(4); v.PushBack(1); v.PushBack(2);
    v.Emplace(v.begin(), args...);] *)
Definition emplace_throw_program : M nat unit :=
  v ← declare vec_default;
  Reserve temp_throw_tr v 4;;
  PushBack_copy temp_throw_tr v 1;;
  PushBack_copy temp_throw_tr v 2;;
  _ ← Emplace temp_throw_tr v 0 ArgsC (AVal 9); mret tt.

(** * Proofs *)

(** ** Running the monad *)

Section Run.
Context {T : Type} (tr : traits T).
Implicit Types (s : state T) (l : list (option T)) (v : T).

Lemma bind_ok {A B} (m : M T A) (f : A -> M T B) s a s' :
  m s = Ok a s' -> (m ≫= f) s = f a s'.
Proof. intros H. unfold mbind, M_bind. now rewrite H. Qed.

Lemma bind_exn {A B} (m : M T A) (f : A -> M T B) s s' :
  m s = Exn s' -> (m ≫= f) s = Exn s'.
Proof. intros H. unfold mbind, M_bind. now rewrite H. Qed.

Lemma bind_ub {A B} (m : M T A) (f : A -> M T B) s :
  m s = UB -> (m ≫= f) s = UB.
Proof. intros H. unfold mbind, M_bind. now rewrite H. Qed.

Lemma bind_assoc {A B C} (m : M T A) (f : A -> M T B) (g : B -> M T C) s :
  ((m ≫= f) ≫= g) s = (m ≫= (fun x => f x ≫= g)) s.
Proof. unfold mbind, M_bind. now destruct (m s). Qed.

Lemma ret_run {A} (a : A) s : (mret a : M T A) s = Ok a s.
Proof. reflexivity. Qed.

Lemma catch_ok {A} (m : M T A) h s a s' :
  m s = Ok a s' -> catch_rethrow m h s = Ok a s'.
Proof. intros H. unfold catch_rethrow. now rewrite H. Qed.

Lemma catch_exn {A} (m : M T A) h s s' s'' :
  m s = Exn s' -> h s' = Ok tt s'' -> catch_rethrow m h s = Exn s''.
Proof. intros H Hh. unfold catch_rethrow. now rewrite H, Hh. Qed.

Lemma state_eta (s : state T) : mk_state (heap s) (objs s) (log s) (tick s) = s.
Proof. now destruct s. Qed.

(** The two ways a loop ends: every iteration returns, or iteration [j + k]
    throws after the earlier ones returned.  [F i] is the state before
    iteration [i]. *)
Lemma for_ok (body : nat -> M T unit) (F : nat -> state T) j n s :
  F j = s ->
  (forall i, j <= i < j + n -> body i (F i) = Ok tt (F (S i))) ->
  for_ j n body s = Ok tt (F (j + n)).
Proof.
  intros <-. revert j. induction n as [|n IH]; intros j Hb; cbn.
  - now rewrite Nat.add_0_r.
  - erewrite bind_ok by (apply Hb; lia).
    replace (j + S n) with (S j + n) by lia.
    apply IH. intros i Hi. apply Hb. lia.
Qed.

Lemma for_exn (body : nat -> M T unit) (F : nat -> state T) j n k s s' :
  F j = s -> k < n ->
  (forall i, j <= i < j + k -> body i (F i) = Ok tt (F (S i))) ->
  body (j + k) (F (j + k)) = Exn s' ->
  for_ j n body s = Exn s'.
Proof.
  intros <-. revert j k. induction n as [|n IH]; intros j k Hk Hb He; [lia|]. cbn.
  destruct k as [|k].
  - rewrite Nat.add_0_r in He. now apply bind_exn.
  - erewrite bind_ok by (apply Hb; lia).
    apply (IH (S j) k); [lia| |].
    + intros i Hi. apply Hb. lia.
    + now replace (S j + k) with (j + S k) by lia.
Qed.

(** ** Element operations that may throw *)

Lemma first_throw_None t n :
  first_throw tr t n = None -> forall i, i < n -> throws_at tr (t + i) = false.
Proof.
  revert t. induction n as [|n IH]; intros t H i Hi; [lia|]. cbn in H.
  destruct (throws_at tr t) eqn:Ht; [discriminate|].
  destruct (first_throw tr (S t) n) eqn:Hf; [discriminate|].
  destruct i as [|i]; [now rewrite Nat.add_0_r|].
  replace (t + S i) with (S t + i) by lia. apply IH; auto. lia.
Qed.

Lemma first_throw_Some t n k :
  first_throw tr t n = Some k ->
  k < n /\ throws_at tr (t + k) = true /\ forall i, i < k -> throws_at tr (t + i) = false.
Proof.
  revert t k. induction n as [|n IH]; intros t k H; [discriminate|]. cbn in H.
  destruct (throws_at tr t) eqn:Ht.
  - injection H as <-. rewrite Nat.add_0_r. repeat split; auto; lia.
  - destruct (first_throw tr (S t) n) as [k'|] eqn:Hf; [|discriminate].
    injection H as <-. destruct (IH _ _ Hf) as (Hk & Hthr & Hbefore).
    repeat split; [lia| now replace (t + S k') with (S t + k') by lia |].
    intros [|i] Hi; [now rewrite Nat.add_0_r|].
    replace (t + S i) with (S t + i) by lia. apply Hbefore. lia.
Qed.

Lemma may_throw_run nt s :
  may_throw tr nt s =
  if throws tr nt (tick s) then Exn (mk_state (heap s) (objs s) (log s) (S (tick s)))
  else Ok tt (mk_state (heap s) (objs s) (log s) (tick_step nt (tick s))).
Proof.
  unfold may_throw, throws, tick_step. destruct nt; [now rewrite state_eta|].
  now destruct (throws_at tr (tick s)).
Qed.

(** ** Slots *)

Lemma get_slot_run s b l i x :
  heap s !! b = Some (mk_block true l) -> l !! i = Some x ->
  get_slot (mk_ptr (Some b) i) s = Ok x s.
Proof. intros Hb Hi. unfold get_slot, get_block, mbind, M_bind; cbn. rewrite Hb; cbn. now rewrite Hi. Qed.

Lemma put_slot_run s b l i x :
  heap s !! b = Some (mk_block true l) ->
  put_slot (mk_ptr (Some b) i) x s =
  Ok tt (mk_state (<[b := mk_block true (<[i := x]> l)]> (heap s)) (objs s) (log s) (tick s)).
Proof. intros Hb. unfold put_slot, get_block, mbind, M_bind; cbn. now rewrite Hb. Qed.

Lemma read_at_run s b l i v :
  heap s !! b = Some (mk_block true l) -> l !! i = Some (Some v) ->
  read_at (mk_ptr (Some b) i) s = Ok v s.
Proof. intros Hb Hi. unfold read_at. now erewrite bind_ok by (eapply get_slot_run; eauto). Qed.

Lemma construct_at_run s b l i x k v :
  heap s !! b = Some (mk_block true l) -> l !! i = Some x ->
  construct_at tr (mk_ptr (Some b) i) k v s =
  if throws tr (ctor_nothrow tr k) (tick s)
  then Exn (mk_state (heap s) (objs s) (log s) (S (tick s)))
  else Ok tt (mk_state (<[b := mk_block true (<[i := Some v]> l)]> (heap s)) (objs s)
                       (log s ++ [EConstruct (mk_ptr (Some b) i) k])
                       (tick_step (ctor_nothrow tr k) (tick s))).
Proof.
  intros Hb Hi. unfold construct_at.
  erewrite bind_ok by (eapply get_slot_run; eauto).
  unfold mbind at 1, M_bind at 1. rewrite may_throw_run.
  destruct (throws _ _ _); [reflexivity|].
  unfold mbind, M_bind. rewrite (put_slot_run _ b l) by exact Hb. reflexivity.
Qed.

Lemma destroy_at_run s b l i x :
  heap s !! b = Some (mk_block true l) -> l !! i = Some (Some x) ->
  destroy_at (mk_ptr (Some b) i) s =
  Ok tt (mk_state (<[b := mk_block true (<[i := None]> l)]> (heap s)) (objs s)
                  (log s ++ [EDestroy (mk_ptr (Some b) i)]) (tick s)).
Proof.
  intros Hb Hi. unfold destroy_at.
  erewrite bind_ok by (eapply get_slot_run; eauto).
  unfold mbind, M_bind. rewrite (put_slot_run _ b l) by exact Hb. reflexivity.
Qed.

Lemma assign_at_run s b l i x k v :
  heap s !! b = Some (mk_block true l) -> l !! i = Some (Some x) ->
  assign_at tr (mk_ptr (Some b) i) k v s =
  if throws tr (assign_nothrow tr k) (tick s)
  then Exn (mk_state (heap s) (objs s) (log s) (S (tick s)))
  else Ok tt (mk_state (<[b := mk_block true (<[i := Some v]> l)]> (heap s)) (objs s)
                       (log s ++ [EAssign (mk_ptr (Some b) i) k])
                       (tick_step (assign_nothrow tr k) (tick s))).
Proof.
  intros Hb Hi. unfold assign_at.
  erewrite bind_ok by (eapply get_slot_run; eauto).
  unfold mbind at 1, M_bind at 1. rewrite may_throw_run.
  destruct (throws _ _ _); [reflexivity|].
  unfold mbind, M_bind. rewrite (put_slot_run _ b l) by exact Hb. reflexivity.
Qed.

End Run.

(** ** Ranges of slots *)

Section Ranges.
Context {A : Type}.
Implicit Types (l k : list A).

Lemma inserts_snoc c k x l :
  list_inserts c (k ++ [x]) l = <[c + length k := x]> (list_inserts c k l).
Proof. rewrite list_inserts_app_l. cbn. f_equal. lia. Qed.

Lemma inserts_inserts_same c k1 k2 l :
  length k1 = length k2 -> list_inserts c k1 (list_inserts c k2 l) = list_inserts c k1 l.
Proof.
  intros Hlen. apply list_eq. intros j.
  destruct (decide (j < c)).
  { now rewrite !list_lookup_inserts_lt. }
  destruct (decide (c + length k1 <= j)).
  { rewrite !list_lookup_inserts_ge by lia. done. }
  destruct (decide (j < length l)).
  - rewrite !list_lookup_inserts by (rewrite ?length_inserts; lia). done.
  - rewrite !(proj2 (lookup_ge_None _ _)); rewrite ?length_inserts; auto; lia.
Qed.

Lemma inserts_id c k l :
  (forall j x, k !! j = Some x -> l !! (c + j) = Some x) -> list_inserts c k l = l.
Proof.
  intros Hk. apply list_eq. intros j.
  destruct (decide (j < c)); [now rewrite list_lookup_inserts_lt|].
  destruct (decide (c + length k <= j)); [now rewrite list_lookup_inserts_ge|].
  destruct (decide (j < length l)).
  - rewrite list_lookup_inserts by lia.
    destruct (lookup_lt_is_Some_2 k (j - c)) as [x Hx]; [lia|].
    rewrite Hx. symmetry. replace j with (c + (j - c)) by lia. now apply Hk.
  - rewrite !(proj2 (lookup_ge_None _ _)); rewrite ?length_inserts; auto; lia.
Qed.

Lemma lookup_map_eq {B} (f : A -> B) l j : map f l !! j = f <$> (l !! j).
Proof. revert j. induction l as [|x l IH]; intros [|j]; cbn; auto. Qed.

Lemma lookup_inserts_in c k l j :
  j < length k -> c + j < length l -> list_inserts c k l !! (c + j) = k !! j.
Proof. intros. rewrite list_lookup_inserts by lia. f_equal. lia. Qed.

End Ranges.

(** Heap lookups after updates of other blocks, and of the same block. *)
Ltac heap_simpl :=
  repeat first
    [ rewrite list_lookup_insert_ne by lia
    | rewrite list_lookup_insert_eq by (rewrite ?length_insert; eauto using lookup_lt_Some)
    | rewrite list_insert_insert_eq ].

Lemma ev_constructs_S d k n :
  ev_constructs d k (S n) = ev_constructs d k n ++ [EConstruct (ptr_add d n) k].
Proof. unfold ev_constructs. now rewrite seq_S, map_app. Qed.

Lemma ev_destroys_S d n : ev_destroys d (S n) = ev_destroys d n ++ [EDestroy (ptr_add d n)].
Proof. unfold ev_destroys. now rewrite seq_S, map_app. Qed.

Lemma ev_copy_assigns_S d n :
  ev_copy_assigns d (S n) = ev_copy_assigns d n ++ [EAssign (ptr_add d n) CopyA].
Proof. unfold ev_copy_assigns. now rewrite seq_S, map_app. Qed.

Section Loops.
Context {T : Type} (tr : traits T).
Implicit Types (s : state T) (l : list (option T)) (vs : list T).

Lemma destroy_n_0 p s : destroy_n p 0 s = Ok tt s.
Proof. reflexivity. Qed.

Lemma destroy_n_run s b l c n :
  heap s !! b = Some (mk_block true l) ->
  (forall j, j < n -> exists x, l !! (c + j) = Some (Some x)) ->
  destroy_n (mk_ptr (Some b) c) n s =
  Ok tt (mk_state (<[b := mk_block true (list_inserts c (replicate n None) l)]> (heap s))
                  (objs s) (log s ++ ev_destroys (mk_ptr (Some b) c) n) (tick s)).
Proof.
  intros Hb Hl.
  set (F := fun i => mk_state (<[b := mk_block true (list_inserts c (replicate i None) l)]> (heap s))
                  (objs s) (log s ++ ev_destroys (mk_ptr (Some b) c) i) (tick s)).
  assert (HF0 : F 0 = s).
  { unfold F; cbn. rewrite list_insert_id by exact Hb. now rewrite app_nil_r, state_eta. }
  unfold destroy_n. apply (for_ok _ F 0 n s HF0). intros i [_ Hi]. destruct (Hl i Hi) as [x Hx]. unfold F; cbn [heap objs log tick].
  unfold ptr_add; cbn [pblk poff].
  rewrite (destroy_at_run _ b (list_inserts c (replicate i None) l) _ x); cbn [heap objs log tick].
  - heap_simpl. rewrite replicate_S_end, inserts_snoc, length_replicate, ev_destroys_S, app_assoc.
    reflexivity.
  - heap_simpl. reflexivity.
  - rewrite list_lookup_inserts_ge; [exact Hx|]. rewrite length_replicate. lia.
Qed.

(** [std::uninitialized_copy_n] between two different blocks: either all
    elements are copied, or the copy of element [k] throws, the [k] copies
    already made are destroyed and the source is untouched. *)
Lemma uninitialized_copy_n_run s ob os a nb ns c vs :
  ob <> nb ->
  heap s !! ob = Some (mk_block true os) ->
  heap s !! nb = Some (mk_block true ns) ->
  (forall j v, vs !! j = Some v -> os !! (a + j) = Some (Some v)) ->
  c + length vs <= length ns ->
  uninitialized_copy_n tr (mk_ptr (Some ob) a) (length vs) (mk_ptr (Some nb) c) s =
  match first_throw tr (tick s) (length vs) with
  | None =>
      Ok tt (mk_state (<[nb := mk_block true (list_inserts c (map Some vs) ns)]> (heap s)) (objs s)
                      (log s ++ ev_constructs (mk_ptr (Some nb) c) CopyC (length vs))
                      (tick s + length vs))
  | Some k =>
      Exn (mk_state (<[nb := mk_block true (list_inserts c (replicate k None) ns)]> (heap s)) (objs s)
                    (log s ++ ev_constructs (mk_ptr (Some nb) c) CopyC k
                           ++ ev_destroys (mk_ptr (Some nb) c) k)
                    (tick s + S k))
  end.
Proof.
  intros Hne Hob Hnb Hsrc Hlen.
  set (d := mk_ptr (Some nb) c).
  set (F := fun i => mk_state (<[nb := mk_block true (list_inserts c (map Some (take i vs)) ns)]> (heap s))
                   (objs s) (log s ++ ev_constructs d CopyC i) (tick s + i)).
  assert (HF0 : F 0 = s).
  { unfold F; cbn. rewrite list_insert_id by exact Hnb.
    now rewrite app_nil_r, Nat.add_0_r, state_eta. }
  assert (Hnbl : nb < length (heap s)) by (eapply lookup_lt_Some; eauto).
  assert (HFob : forall i, heap (F i) !! ob = Some (mk_block true os)).
  { intros i. unfold F; cbn. rewrite list_lookup_insert_ne by congruence. exact Hob. }
  assert (HFnb : forall i, heap (F i) !! nb
                           = Some (mk_block true (list_inserts c (map Some (take i vs)) ns))).
  { intros i. unfold F; cbn. now rewrite list_lookup_insert_eq by exact Hnbl. }
  assert (Hstep : forall i v, vs !! i = Some v ->
    (v' ← read_at (ptr_add (mk_ptr (Some ob) a) i); construct_at tr (ptr_add d i) CopyC v') (F i) =
    if throws_at tr (tick s + i)
    then Exn (mk_state (heap (F i)) (objs s) (log (F i)) (S (tick s + i)))
    else Ok tt (F (S i))).
  { intros i v Hv.
    assert (Hi : i < length vs) by (eapply lookup_lt_Some; eauto).
    unfold ptr_add at 1; cbn [pblk poff].
    rewrite (bind_ok _ _ _ v _ (read_at_run _ ob os _ _ (HFob i) (Hsrc i v Hv))).
    destruct (lookup_lt_is_Some_2 ns (c + i)) as [x Hx]; [lia|].
    unfold d, ptr_add; cbn [pblk poff].
    rewrite (construct_at_run _ _ nb _ _ x _ _ (HFnb i)).
    2:{ rewrite list_lookup_inserts_ge; [exact Hx|]. rewrite length_map, length_take. lia. }
    unfold F; cbn [throws ctor_nothrow heap objs log tick tick_step].
    destruct (throws_at tr (tick s + i)); [reflexivity|].
    heap_simpl. erewrite take_S_r by exact Hv.
    rewrite map_app. change (map Some [v]) with [Some v].
    rewrite inserts_snoc, length_map, length_take, ev_constructs_S, app_assoc.
    replace (c + Nat.min i (length vs)) with (c + i) by lia.
    replace (tick s + S i) with (S (tick s + i)) by lia. reflexivity. }
  assert (Hok : forall i, i < length vs -> throws_at tr (tick s + i) = false ->
    catch_rethrow (v' ← read_at (ptr_add (mk_ptr (Some ob) a) i); construct_at tr (ptr_add d i) CopyC v')
                  (destroy_n d i) (F i) = Ok tt (F (S i))).
  { intros i Hi Hthr. destruct (lookup_lt_is_Some_2 vs i Hi) as [v Hv].
    apply catch_ok. rewrite (Hstep i v Hv), Hthr. reflexivity. }
  unfold uninitialized_copy_n.
  destruct (first_throw tr (tick s) (length vs)) as [k|] eqn:Hft.
  - destruct (first_throw_Some _ _ _ _ Hft) as (Hk & Hthr & Hbefore).
    apply (for_exn _ F 0 (length vs) k s _ HF0 Hk).
    { intros i [_ Hi]. apply Hok; [lia|]. apply Hbefore. lia. }
    cbn [Nat.add]. destruct (lookup_lt_is_Some_2 vs k Hk) as [v Hv].
    eapply catch_exn.
    { rewrite (Hstep k v Hv), Hthr. reflexivity. }
    unfold d. rewrite (destroy_n_run _ nb (list_inserts c (map Some (take k vs)) ns)); cbn [heap objs log tick].
    + unfold F; cbn [heap objs log tick]. heap_simpl.
      rewrite inserts_inserts_same by (rewrite length_replicate, length_map, length_take; lia).
      rewrite app_assoc. replace (tick s + S k) with (S (tick s + k)) by lia. reflexivity.
    + exact (HFnb k).
    + intros j Hj. assert (Hjv : j < length vs) by lia.
      destruct (lookup_lt_is_Some_2 vs j Hjv) as [w Hw]. exists w.
      rewrite lookup_inserts_in; rewrite ?length_map, ?length_take; try lia.
      rewrite lookup_map_eq, lookup_take_lt, Hw by lia. reflexivity.
  - erewrite (for_ok _ F 0 (length vs) s HF0).
    + unfold F; cbn [heap objs log tick]. rewrite Nat.add_0_l, take_ge by lia. reflexivity.
    + intros i [_ Hi]. apply Hok; [lia|]. apply (first_throw_None _ _ (length vs) Hft). lia.
Qed.

(** [std::uninitialized_move_n] between two different blocks: the source
    elements moved so far are left moved-from. Moves throw only when [T]'s
    move constructor is not [noexcept]. *)

Lemma uninitialized_move_n_run s ob os a nb ns c vs :
  ob <> nb ->
  heap s !! ob = Some (mk_block true os) ->
  heap s !! nb = Some (mk_block true ns) ->
  (forall j v, vs !! j = Some v -> os !! (a + j) = Some (Some v)) ->
  c + length vs <= length ns ->
  uninitialized_move_n tr (mk_ptr (Some ob) a) (length vs) (mk_ptr (Some nb) c) s =
  match (if nothrow_move tr then None else first_throw tr (tick s) (length vs)) with
  | None =>
      Ok tt (mk_state (<[nb := mk_block true (list_inserts c (map Some vs) ns)]>
                        (<[ob := mk_block true (list_inserts a (map (fun v => Some (moved_from tr v)) vs) os)]>
                          (heap s))) (objs s)
                      (log s ++ ev_constructs (mk_ptr (Some nb) c) MoveC (length vs))
                      (tick s + move_ticks tr (length vs)))
  | Some k =>
      Exn (mk_state (<[nb := mk_block true (list_inserts c (replicate k None) ns)]>
                      (<[ob := mk_block true (list_inserts a (map (fun v => Some (moved_from tr v)) (take k vs)) os)]>
                        (heap s))) (objs s)
                    (log s ++ ev_constructs (mk_ptr (Some nb) c) MoveC k
                           ++ ev_destroys (mk_ptr (Some nb) c) k)
                    (tick s + S k))
  end.
Proof.
  intros Hne Hob Hnb Hsrc Hlen.
  set (d := mk_ptr (Some nb) c).
  set (mv := fun v => Some (moved_from tr v)).
  set (F := fun i => mk_state (<[nb := mk_block true (list_inserts c (map Some (take i vs)) ns)]>
                        (<[ob := mk_block true (list_inserts a (map mv (take i vs)) os)]> (heap s)))
                   (objs s) (log s ++ ev_constructs d MoveC i) (tick s + move_ticks tr i)).
  assert (Hobl : ob < length (heap s)) by (eapply lookup_lt_Some; eauto).
  assert (Hnbl : nb < length (heap s)) by (eapply lookup_lt_Some; eauto).
  assert (HF0 : F 0 = s).
  { unfold F, move_ticks; cbn. rewrite (list_insert_id (heap s) ob) by exact Hob.
    rewrite (list_insert_id (heap s) nb) by exact Hnb. destruct (nothrow_move tr);
    now rewrite app_nil_r, Nat.add_0_r, state_eta. }
  assert (HFob : forall i, heap (F i) !! ob
                           = Some (mk_block true (list_inserts a (map mv (take i vs)) os))).
  { intros i. unfold F; cbn. rewrite list_lookup_insert_ne by congruence.
    now rewrite list_lookup_insert_eq by exact Hobl. }
  assert (HFnb : forall i, heap (F i) !! nb
                           = Some (mk_block true (list_inserts c (map Some (take i vs)) ns))).
  { intros i. unfold F; cbn. now rewrite list_lookup_insert_eq by (rewrite length_insert; exact Hnbl). }
  assert (Hstep : forall i v, vs !! i = Some v ->
    (v' ← read_at (ptr_add (mk_ptr (Some ob) a) i);
     construct_at tr (ptr_add d i) MoveC v';;
     leave_moved_from tr (ptr_add (mk_ptr (Some ob) a) i) v') (F i) =
    if throws tr (nothrow_move tr) (tick s + move_ticks tr i)
    then Exn (mk_state (heap (F i)) (objs s) (log (F i)) (S (tick s + move_ticks tr i)))
    else Ok tt (F (S i))).
  { intros i v Hv.
    assert (Hi : i < length vs) by (eapply lookup_lt_Some; eauto).
    unfold ptr_add at 1; cbn [pblk poff].
    assert (Hrd : list_inserts a (map mv (take i vs)) os !! (a + i) = Some (Some v)).
    { rewrite list_lookup_inserts_ge; [exact (Hsrc i v Hv)|].
      rewrite length_map, length_take. lia. }
    rewrite (bind_ok _ _ _ v _ (read_at_run _ ob _ _ _ (HFob i) Hrd)).
    destruct (lookup_lt_is_Some_2 ns (c + i)) as [x Hx]; [lia|].
    unfold d, ptr_add; cbn [pblk poff].
    unfold mbind at 1, M_bind at 1.
    rewrite (construct_at_run _ _ nb _ _ x _ _ (HFnb i)).
    2:{ rewrite list_lookup_inserts_ge; [exact Hx|]. rewrite length_map, length_take. lia. }
    unfold F at 1; cbn [ctor_nothrow heap objs log tick].
    destruct (throws tr (nothrow_move tr) (tick s + move_ticks tr i)) eqn:Hthr; [reflexivity|].
    unfold leave_moved_from.
    rewrite (put_slot_run _ ob (list_inserts a (map mv (take i vs)) os)); cbn [heap objs log tick].
    2:{ rewrite list_lookup_insert_ne by congruence. exact (HFob i). }
    unfold F; cbn [heap objs log tick]. heap_simpl.
    rewrite (list_insert_insert_ne _ ob nb) by congruence. heap_simpl.
    erewrite take_S_r by exact Hv.
    rewrite !map_app. change (map Some [v]) with [Some v]. change (map mv [v]) with [mv v].
    rewrite !inserts_snoc, !length_map, !length_take, ev_constructs_S, app_assoc.
    replace (Nat.min i (length vs)) with i by lia.
    replace (tick_step (nothrow_move tr) (tick s + move_ticks tr i)) with (tick s + move_ticks tr (S i))
      by (unfold tick_step, move_ticks; destruct (nothrow_move tr); lia).
    reflexivity. }
  assert (Hok : forall i, i < length vs -> throws tr (nothrow_move tr) (tick s + move_ticks tr i) = false ->
    catch_rethrow
      (v' ← read_at (ptr_add (mk_ptr (Some ob) a) i);
       construct_at tr (ptr_add d i) MoveC v';;
       leave_moved_from tr (ptr_add (mk_ptr (Some ob) a) i) v')
      (destroy_n d i) (F i) = Ok tt (F (S i))).
  { intros i Hi Hthr. destruct (lookup_lt_is_Some_2 vs i Hi) as [v Hv].
    apply catch_ok. rewrite (Hstep i v Hv), Hthr. reflexivity. }
  unfold uninitialized_move_n.
  destruct (nothrow_move tr) eqn:Hnt.
  - erewrite (for_ok _ F 0 (length vs) s HF0).
    + unfold F; cbn [heap objs log tick]. rewrite Nat.add_0_l, take_ge by lia. reflexivity.
    + intros i [_ Hi]. apply Hok; [lia|]. unfold throws. now rewrite ?Hnt.
  - destruct (first_throw tr (tick s) (length vs)) as [k|] eqn:Hft.
    + destruct (first_throw_Some _ _ _ _ Hft) as (Hk & Hthr & Hbefore).
      apply (for_exn _ F 0 (length vs) k s _ HF0 Hk).
      { intros i [_ Hi]. apply Hok; [lia|]. unfold throws, move_ticks. rewrite ?Hnt.
        apply Hbefore. lia. }
      cbn [Nat.add]. destruct (lookup_lt_is_Some_2 vs k Hk) as [v Hv].
      eapply catch_exn.
      { rewrite (Hstep k v Hv). unfold throws, move_ticks. rewrite ?Hnt, Hthr. reflexivity. }
      unfold d. rewrite (destroy_n_run _ nb (list_inserts c (map Some (take k vs)) ns)); cbn [heap objs log tick].
      * unfold F; cbn [heap objs log tick]. heap_simpl.
        rewrite inserts_inserts_same by (rewrite length_replicate, length_map, length_take; lia).
        rewrite app_assoc. unfold move_ticks. rewrite ?Hnt.
        replace (tick s + S k) with (S (tick s + k)) by lia. reflexivity.
      * exact (HFnb k).
      * intros j Hj. assert (Hjv : j < length vs) by lia.
        destruct (lookup_lt_is_Some_2 vs j Hjv) as [w Hw]. exists w.
        rewrite lookup_inserts_in; rewrite ?length_map, ?length_take; try lia.
        rewrite lookup_map_eq, lookup_take_lt, Hw by lia. reflexivity.
    + erewrite (for_ok _ F 0 (length vs) s HF0).
      * unfold F; cbn [heap objs log tick]. rewrite Nat.add_0_l, take_ge by lia. reflexivity.
      * intros i [_ Hi]. apply Hok; [lia|]. unfold throws, move_ticks. rewrite ?Hnt.
        apply (first_throw_None _ _ (length vs) Hft). lia.
Qed.

(** [std::copy_n] between two different blocks: element-wise copy
    assignment over live slots, with no rollback when an assignment throws. *)
Lemma copy_n_run s ob os a nb ns c vs :
  ob <> nb ->
  heap s !! ob = Some (mk_block true os) ->
  heap s !! nb = Some (mk_block true ns) ->
  (forall j v, vs !! j = Some v -> os !! (a + j) = Some (Some v)) ->
  (forall j, j < length vs -> exists x, ns !! (c + j) = Some (Some x)) ->
  copy_n tr (mk_ptr (Some ob) a) (length vs) (mk_ptr (Some nb) c) s =
  match first_throw tr (tick s) (length vs) with
  | None =>
      Ok tt (mk_state (<[nb := mk_block true (list_inserts c (map Some vs) ns)]> (heap s)) (objs s)
                      (log s ++ ev_copy_assigns (mk_ptr (Some nb) c) (length vs))
                      (tick s + length vs))
  | Some k =>
      Exn (mk_state (<[nb := mk_block true (list_inserts c (map Some (take k vs)) ns)]> (heap s))
                    (objs s) (log s ++ ev_copy_assigns (mk_ptr (Some nb) c) k) (tick s + S k))
  end.
Proof.
  intros Hne Hob Hnb Hsrc Hdst.
  set (d := mk_ptr (Some nb) c).
  set (F := fun i => mk_state (<[nb := mk_block true (list_inserts c (map Some (take i vs)) ns)]> (heap s))
                   (objs s) (log s ++ ev_copy_assigns d i) (tick s + i)).
  assert (HF0 : F 0 = s).
  { unfold F; cbn. rewrite list_insert_id by exact Hnb.
    now rewrite app_nil_r, Nat.add_0_r, state_eta. }
  assert (Hnbl : nb < length (heap s)) by (eapply lookup_lt_Some; eauto).
  assert (HFob : forall i, heap (F i) !! ob = Some (mk_block true os)).
  { intros i. unfold F; cbn. rewrite list_lookup_insert_ne by congruence. exact Hob. }
  assert (HFnb : forall i, heap (F i) !! nb
                           = Some (mk_block true (list_inserts c (map Some (take i vs)) ns))).
  { intros i. unfold F; cbn. now rewrite list_lookup_insert_eq by exact Hnbl. }
  assert (Hstep : forall i v, vs !! i = Some v ->
    (v' ← read_at (ptr_add (mk_ptr (Some ob) a) i); assign_at tr (ptr_add d i) CopyA v') (F i) =
    if throws_at tr (tick s + i)
    then Exn (mk_state (heap (F i)) (objs s) (log (F i)) (S (tick s + i)))
    else Ok tt (F (S i))).
  { intros i v Hv.
    assert (Hi : i < length vs) by (eapply lookup_lt_Some; eauto).
    unfold ptr_add at 1; cbn [pblk poff].
    rewrite (bind_ok _ _ _ v _ (read_at_run _ ob os _ _ (HFob i) (Hsrc i v Hv))).
    destruct (Hdst i Hi) as [x Hx].
    unfold d, ptr_add; cbn [pblk poff].
    rewrite (assign_at_run _ _ nb _ _ x _ _ (HFnb i)).
    2:{ rewrite list_lookup_inserts_ge; [exact Hx|]. rewrite length_map, length_take. lia. }
    unfold F; cbn [throws assign_nothrow heap objs log tick tick_step].
    destruct (throws_at tr (tick s + i)); [reflexivity|].
    heap_simpl. erewrite take_S_r by exact Hv.
    rewrite map_app. change (map Some [v]) with [Some v].
    rewrite inserts_snoc, length_map, length_take, ev_copy_assigns_S, app_assoc.
    replace (c + Nat.min i (length vs)) with (c + i) by lia.
    replace (tick s + S i) with (S (tick s + i)) by lia. reflexivity. }
  unfold copy_n.
  destruct (first_throw tr (tick s) (length vs)) as [k|] eqn:Hft.
  - destruct (first_throw_Some _ _ _ _ Hft) as (Hk & Hthr & Hbefore).
    apply (for_exn _ F 0 (length vs) k s _ HF0 Hk).
    { intros i [_ Hi]. destruct (lookup_lt_is_Some_2 vs i ltac:(lia)) as [v Hv].
      rewrite (Hstep i v Hv), Hbefore by lia. reflexivity. }
    cbn [Nat.add]. destruct (lookup_lt_is_Some_2 vs k Hk) as [v Hv].
    rewrite (Hstep k v Hv), Hthr. unfold F; cbn [heap objs log tick].
    now replace (tick s + S k) with (S (tick s + k)) by lia.
  - erewrite (for_ok _ F 0 (length vs) s HF0).
    + unfold F; cbn [heap objs log tick]. rewrite Nat.add_0_l, take_ge by lia. reflexivity.
    + intros i [_ Hi]. destruct (lookup_lt_is_Some_2 vs i ltac:(lia)) as [v Hv].
      rewrite (Hstep i v Hv), (first_throw_None _ _ (length vs) Hft) by lia. reflexivity.
Qed.

End Loops.

(** ** Well-formed vectors *)

Section Wf.
Context {T : Type}.
Implicit Types (s : state T) (l : list (option T)) (vs : list T).

Lemma forallb_lookup {A} (f : A -> bool) (l : list A) j x :
  forallb f l = true -> l !! j = Some x -> f x = true.
Proof.
  intros Hf Hj. rewrite forallb_forall in Hf. apply Hf.
  apply list_elem_of_In. eapply list_elem_of_lookup_2; eauto.
Qed.

Lemma vec_wf_null s v :
  vec_wf s v = true -> buffer (data v) = None -> capacity (data v) = 0 /\ size v = 0.
Proof.
  unfold vec_wf. intros H Hb. rewrite Hb in H.
  apply andb_true_iff in H as [H1 H2]. apply Nat.leb_le in H1. apply Nat.eqb_eq in H2. lia.
Qed.

Lemma vec_wf_block s v b :
  vec_wf s v = true -> buffer (data v) = Some b ->
  exists l, heap s !! b = Some (mk_block true l) /\ length l = capacity (data v) /\
    size v <= capacity (data v) /\
    (forall j, j < size v -> exists x, l !! j = Some (Some x)) /\
    (forall j, size v <= j < capacity (data v) -> l !! j = Some None).
Proof.
  unfold vec_wf. intros H Hb. rewrite Hb in H.
  apply andb_true_iff in H as [Hsz H]. apply Nat.leb_le in Hsz.
  destruct (heap s !! b) as [[live l]|] eqn:Hh; [|discriminate]. cbn in H.
  apply andb_true_iff in H as [H Hraw]. apply andb_true_iff in H as [H Hlive].
  apply andb_true_iff in H as [Hl Hlen]. subst live. apply Nat.eqb_eq in Hlen.
  exists l. repeat split; auto.
  - intros j Hj. destruct (lookup_lt_is_Some_2 l j) as [x Hx]; [lia|].
    assert (Hx' : take (size v) l !! j = Some x) by (rewrite lookup_take_lt; auto).
    pose proof (forallb_lookup _ _ _ _ Hlive Hx') as Hs.
    destruct x as [x|]; [eauto|discriminate].
  - intros j Hj. destruct (lookup_lt_is_Some_2 l j) as [x Hx]; [lia|].
    assert (Hx' : drop (size v) l !! (j - size v) = Some x).
    { rewrite lookup_drop. now replace (size v + (j - size v)) with j by lia. }
    pose proof (forallb_lookup _ _ _ _ Hraw Hx') as Hs.
    destruct x as [x|]; [discriminate|auto].
Qed.

(** The elements of a vector as values. *)
Lemma live_values l n :
  (forall j, j < n -> exists x, l !! j = Some (Some x)) ->
  exists vs, length vs = n /\ forall j v, vs !! j = Some v -> l !! j = Some (Some v).
Proof.
  induction n as [|n IH]; intros Hl.
  - exists []. split; [done|]. intros j v Hj. rewrite lookup_nil in Hj. discriminate.
  - destruct IH as [vs [Hlen Hvs]]; [intros j Hj; apply Hl; lia|].
    destruct (Hl n) as [x Hx]; [lia|].
    exists (vs ++ [x]). split; [rewrite length_app; cbn; lia|].
    intros j v Hj. destruct (decide (j < length vs)).
    + rewrite lookup_app_l in Hj by lia. auto.
    + rewrite lookup_app_r in Hj by lia.
      destruct (j - length vs) as [|m] eqn:Hm; cbn in Hj; [|rewrite ?lookup_nil in Hj; discriminate].
      injection Hj as <-. now replace j with n by lia.
Qed.

Lemma insert_last {A} (h : list A) x y : <[length h := x]> (h ++ [y]) = h ++ [x].
Proof. induction h as [|z h IH]; [done|]. cbn. f_equal. exact IH. Qed.

End Wf.

(** ** Code that cannot throw *)

Section NoExn.
Context {T : Type} (tr : traits T).
Implicit Types (s : state T).

Lemma no_exn_ret {A} (a : A) : @no_exn T A (mret a).
Proof. intros s s'. discriminate. Qed.

Lemma no_exn_bind {A B} (m : M T A) (f : A -> M T B) :
  no_exn m -> (forall a, no_exn (f a)) -> no_exn (m ≫= f).
Proof.
  intros Hm Hf s s'. unfold mbind, M_bind.
  destruct (m s) as [a s1|s1| |] eqn:E; try discriminate.
  - apply Hf.
  - exfalso. exact (Hm _ _ E).
Qed.

Lemma no_exn_ub {A} : no_exn (ub : M T A).
Proof. intros s s'. discriminate. Qed.

Lemma no_exn_assert_fail {A} : no_exn (assert_fail : M T A).
Proof. intros s s'. discriminate. Qed.

Lemma no_exn_emit e : @no_exn T _ (emit e).
Proof. intros s s'. discriminate. Qed.

Lemma no_exn_get_block b : @no_exn T _ (get_block b).
Proof.
  intros s s'. unfold get_block. destruct (heap s !! b) as [blk|]; [|discriminate].
  destruct (blk_live blk); discriminate.
Qed.

Lemma no_exn_put_block b (blk : block T) : no_exn (put_block b blk).
Proof. intros s s'. discriminate. Qed.

Lemma no_exn_get_obj i : @no_exn T _ (get_obj i).
Proof. intros s s'. unfold get_obj. destruct (objs s !! i); discriminate. Qed.

Lemma no_exn_set_obj i v : @no_exn T _ (set_obj i v).
Proof. intros s s'. unfold set_obj. destruct (objs s !! i); discriminate. Qed.

Lemma no_exn_for j n (body : nat -> M T unit) :
  (forall i, no_exn (body i)) -> no_exn (for_ j n body).
Proof.
  revert j. induction n as [|n IH]; intros j Hb; cbn; [apply no_exn_ret|].
  apply no_exn_bind; auto.
Qed.

End NoExn.

Create HintDb no_exn.
#[export] Hint Resolve no_exn_ret no_exn_ub no_exn_assert_fail no_exn_emit no_exn_get_block
  no_exn_put_block no_exn_get_obj no_exn_set_obj : no_exn.

(** Split binds and branches until every piece is a primitive that cannot throw. *)
Ltac no_exn_tac :=
  repeat match goal with
  | |- no_exn (_ ≫= _) => apply no_exn_bind; [|intros ?]
  | |- no_exn (for_ _ _ _) => apply no_exn_for; intros ?
  | |- no_exn (match ?x with _ => _ end) => destruct x
  | |- no_exn (if ?x then _ else _) => destruct x
  | |- no_exn _ =>
      progress unfold destroy_n, destroy_at, get_slot, put_slot, Deallocate, raw_dtor,
        set_data, set_size, raw_plus, raw_index, destroy_temp
  end; eauto with no_exn.

(** ** Growth *)

Section Growth.
Context {T : Type} (tr : traits T).
Implicit Types (s : state T) (l : list (option T)) (vs : list T).

Lemma bind_exn_inv {A B} (m : M T A) (f : A -> M T B) s s' :
  (m ≫= f) s = Exn s' -> m s = Exn s' \/ exists a s1, m s = Ok a s1 /\ f a s1 = Exn s'.
Proof.
  unfold mbind, M_bind. destruct (m s) as [a s1|s1| |]; try discriminate; eauto.
  intros H. injection H as ->. auto.
Qed.

Lemma catch_exn_inv {A} (m : M T A) h s s' :
  catch_rethrow m h s = Exn s' -> exists s1, m s = Exn s1 /\ (h s1 = Ok tt s' \/ h s1 = Exn s').
Proof.
  unfold catch_rethrow. destruct (m s) as [a s1|s1| |]; try discriminate.
  destruct (h s1) as [[] s2|s2| |] eqn:E; try discriminate; intros H; injection H as ->; eauto.
Qed.

Lemma alloc_slots_le n : alloc_slots tr n <= n.
Proof.
  unfold alloc_slots, alloc_bytes.
  assert (H : (N.of_nat n * N.pos (elem_size tr) mod 2 ^ 64 / N.pos (elem_size tr) <= N.of_nat n)%N).
  { rewrite <- (N.div_mul (N.of_nat n) (N.pos (elem_size tr))) at 2 by lia.
    apply N.Div0.div_le_mono. apply N.Div0.mod_le. }
  lia.
Qed.

Lemma fits_slots n : fits tr n = true -> alloc_slots tr n = n.
Proof.
  unfold fits, alloc_slots, alloc_bytes. intros H. apply N.ltb_lt in H.
  rewrite N.mod_small by exact H. rewrite N.div_mul by lia. lia.
Qed.

Lemma slots_fits n : alloc_slots tr n = n -> fits tr n = true.
Proof.
  unfold fits, alloc_slots, alloc_bytes. intros H. apply N.ltb_lt.
  set (e := N.pos (elem_size tr)) in *.
  assert (He : e <> 0%N) by (unfold e; lia).
  pose proof (N.Div0.mul_div_le (N.of_nat n * e mod 2 ^ 64) e) as Hle.
  pose proof (N.mod_lt (N.of_nat n * e) (2 ^ 64) ltac:(lia)) as Hlt.
  assert (Hq : (N.of_nat n * e mod 2 ^ 64 / e)%N = N.of_nat n) by lia.
  rewrite Hq in Hle. lia.
Qed.

(** A block asked for [n <= 2 * (j + 1)] elements that has a slot [j] did
    not wrap: it has [n] slots. *)
Lemma grow_slots n j : n <= 2 * (j + 1) -> j < alloc_slots tr n -> alloc_slots tr n = n.
Proof.
  intros Hn Hj. destruct (fits tr n) eqn:Hf; [now apply fits_slots|].
  exfalso. unfold fits in Hf. apply N.ltb_ge in Hf.
  unfold alloc_slots, alloc_bytes in Hj.
  set (e := N.pos (elem_size tr)) in *.
  set (x := (N.of_nat n * e)%N) in *.
  assert (Hr : (x mod 2 ^ 64 < N.of_nat (j + 1) * e)%N).
  { pose proof (N.mod_lt x (2 ^ 64) ltac:(lia)) as Hlt.
    destruct (N.le_gt_cases (2 ^ 64) (N.of_nat (j + 1) * e)) as [Hb|Hb]; [lia|].
    pose proof (N.div_mod x (2 ^ 64) ltac:(lia)) as Hdm.
    assert (Hq : (1 <= x / 2 ^ 64)%N) by (apply N.div_le_lower_bound; lia).
    assert (Hx : (x <= 2 * N.of_nat (j + 1) * e)%N) by (unfold x; nia).
    nia. }
  assert (Hd : (x mod 2 ^ 64 / e < N.of_nat (j + 1))%N)
    by (apply N.Div0.div_lt_upper_bound; lia).
  lia.
Qed.

Lemma raw_new_fail s n :
  n <> 0 -> new_fails tr (length (heap s)) (alloc_bytes tr n) = true -> raw_new tr n s = Exn s.
Proof.
  intros Hn Hf. unfold raw_new, Allocate, mbind, M_bind. apply Nat.eqb_neq in Hn.
  rewrite Hn. cbv beta iota zeta. now rewrite Hf.
Qed.

Lemma raw_new_grow s n :
  n <> 0 -> new_fails tr (length (heap s)) (alloc_bytes tr n) = false ->
  raw_new tr n s = Ok (mk_raw (Some (length (heap s))) n) (alloc_state_sl s n (alloc_slots tr n)).
Proof.
  intros Hn Hf. unfold raw_new, Allocate, mbind, M_bind. apply Nat.eqb_neq in Hn.
  rewrite Hn. cbv beta iota zeta. now rewrite Hf.
Qed.

Lemma raw_new_run s n :
  n <> 0 -> new_fails tr (length (heap s)) (alloc_bytes tr n) = false -> alloc_slots tr n = n ->
  raw_new tr n s = Ok (mk_raw (Some (length (heap s))) n) (alloc_state s n).
Proof. intros Hn Hf Hm. rewrite (raw_new_grow s n Hn Hf), Hm. reflexivity. Qed.

Lemma Deallocate_run s b l :
  heap s !! b = Some (mk_block true l) ->
  Deallocate (Some b) s =
  Ok tt (mk_state (<[b := mk_block false l]> (heap s)) (objs s) (log s ++ [EDealloc b]) (tick s)).
Proof. intros Hb. unfold Deallocate, get_block, mbind, M_bind. now rewrite Hb. Qed.

Lemma transfer_0 p q s : TransferDataSafely tr p 0 q s = Ok tt s.
Proof. unfold TransferDataSafely. now destruct (_ || _). Qed.

Lemma lookup_alloc s n : heap (alloc_state s n) !! length (heap s) = Some (mk_block true (replicate n None)).
Proof. cbn. rewrite lookup_app_r by lia. now rewrite Nat.sub_diag. Qed.

Lemma lookup_alloc_old s n b : b < length (heap s) -> heap (alloc_state s n) !! b = heap s !! b.
Proof. intros Hb. cbn. now rewrite lookup_app_l by lia. Qed.

(** Growth of a vector whose elements are copyable or nothrow-movable: if
    constructing the new element at [size] or transferring the old elements
    into the fresh block throws, the old block and the object store are
    untouched and the fresh block holds no element in [[0, size)]. *)
Lemma grow_body_exn {A} s self n k value (Rest : M T A) s2 :
  vec_wf s self = true -> size self < n -> (copyable tr || nothrow_move tr) = true ->
  (forall s0 s0', Rest s0 = Exn s0' ->
     TransferDataSafely tr (GetAddress (data self)) (size self) (mk_ptr (Some (length (heap s))) 0) s0
     = Exn s0') ->
  (construct_at tr (mk_ptr (Some (length (heap s))) (size self)) k value;; Rest) (alloc_state s n)
  = Exn s2 ->
  objs s2 = objs s /\
  exists L, heap s2 = heap s ++ [mk_block true L] /\ length L = n /\
            forall j, j < size self -> L !! j = Some None.
Proof.
  intros Hwf Hn Hcm HRest H.
  set (nb := length (heap s)) in *.
  destruct (lookup_lt_is_Some_2 (replicate n (@None T)) (size self)) as [x Hx];
    [rewrite length_replicate; lia|].
  apply bind_exn_inv in H as [H | (u & s1 & H1 & H2)].
  - rewrite (construct_at_run tr _ _ _ _ x _ _ (lookup_alloc s n) Hx) in H.
    destruct (throws _ _ _); [|discriminate]. injection H as <-. cbn. split; [done|].
    exists (replicate n None). repeat split; [now rewrite length_replicate|].
    intros j Hj. apply lookup_replicate_2. lia.
  - rewrite (construct_at_run tr _ _ _ _ x _ _ (lookup_alloc s n) Hx) in H1.
    destruct (throws _ _ _); [discriminate|]. injection H1 as _ <-.
    apply HRest in H2. cbn [heap objs log tick alloc_state] in H2.
    set (ns := <[size self := Some value]> (replicate n None)) in *.
    destruct (buffer (data self)) as [ob|] eqn:Hbuf.
    2:{ destruct (vec_wf_null s self Hwf Hbuf) as [_ Hsz]. rewrite Hsz, transfer_0 in H2.
        discriminate. }
    destruct (vec_wf_block s self ob Hwf Hbuf) as (os & Hob & Hlen & Hsz & Hlive & _).
    destruct (live_values os (size self) Hlive) as (vs & Hvs & Hsrc).
    assert (Hobl : ob < nb) by (eapply lookup_lt_Some; eauto).
    set (h1 := <[nb := mk_block true ns]> (heap s ++ [mk_block true (replicate n None)])) in *.
    assert (Hh1 : h1 = heap s ++ [mk_block true ns]) by apply insert_last.
    assert (H1ob : h1 !! ob = Some (mk_block true os)).
    { rewrite Hh1, lookup_app_l by lia. exact Hob. }
    assert (H1nb : h1 !! nb = Some (mk_block true ns)).
    { rewrite Hh1, lookup_app_r by lia. now rewrite Nat.sub_diag. }
    assert (Hnsl : length ns = n) by (unfold ns; now rewrite length_insert, length_replicate).
    unfold GetAddress in H2. rewrite Hbuf, <- Hvs in H2. unfold TransferDataSafely in H2.
    destruct (nothrow_move tr) eqn:Hnt.
    + cbn in H2. rewrite (uninitialized_move_n_run tr _ ob os 0 nb ns 0 vs) in H2;
        cbn [heap]; auto; try lia.
      rewrite Hnt in H2. discriminate.
    + rewrite orb_false_r in Hcm. rewrite Hcm in H2. cbn in H2.
      rewrite (uninitialized_copy_n_run tr _ ob os 0 nb ns 0 vs) in H2; cbn [heap]; auto; try lia.
      destruct (first_throw tr _ (length vs)) as [k'|] eqn:Hft; [|discriminate].
      destruct (first_throw_Some tr _ _ _ Hft) as (Hk & _ & _).
      injection H2 as <-. cbn [heap objs]. split; [done|].
      exists (list_inserts 0 (replicate k' None) ns). split; [|split].
      * unfold nb. rewrite !insert_last. reflexivity.
      * now rewrite length_inserts.
      * intros j Hj. destruct (decide (j < k')).
        -- rewrite list_lookup_inserts by (rewrite ?length_replicate; lia).
           apply lookup_replicate_2. lia.
        -- rewrite list_lookup_inserts_ge by (rewrite length_replicate; lia).
           unfold ns. rewrite list_lookup_insert_ne by lia. apply lookup_replicate_2. lia.
Qed.

End Growth.

Section GrowthCatch.
Context {T : Type} (tr : traits T).
Implicit Types (s : state T) (l : list (option T)).

Lemma no_exn_elim {A} (m : M T A) s s' : m s = Exn s' -> no_exn m -> False.
Proof. intros H Hm. exact (Hm _ _ H). Qed.

Lemma get_obj_run s i v : objs s !! i = Some v -> get_obj i s = Ok v s.
Proof. intros H. unfold get_obj. now rewrite H. Qed.

Lemma set_obj_run s i v0 v : objs s !! i = Some v0 ->
  set_obj i v s = Ok tt (mk_state (heap s) (<[i := v]> (objs s)) (log s) (tick s)).
Proof. intros H. unfold set_obj. now rewrite H. Qed.

Lemma set_data_run s i v d : objs s !! i = Some v ->
  set_data i d s = Ok tt (mk_state (heap s) (<[i := mk_vec d (size v)]> (objs s)) (log s) (tick s)).
Proof.
  intros H. unfold set_data. rewrite (bind_ok _ _ _ _ _ (get_obj_run s i v H)).
  exact (set_obj_run s i v _ H).
Qed.

Lemma set_size_run s i v n : objs s !! i = Some v ->
  set_size i n s = Ok tt (mk_state (heap s) (<[i := mk_vec (data v) n]> (objs s)) (log s) (tick s)).
Proof.
  intros H. unfold set_size. rewrite (bind_ok _ _ _ _ _ (get_obj_run s i v H)).
  exact (set_obj_run s i v _ H).
Qed.

(** The fresh block of a growth is released when the work on it throws. *)
Lemma grow_catch_exn {A} s n (Body : M T A) (P : list (option T) -> Prop) s' :
  (forall s2, Body (alloc_state s n) = Exn s2 ->
     objs s2 = objs s /\ exists L, heap s2 = heap s ++ [mk_block true L] /\ P L) ->
  catch_rethrow Body (raw_dtor (mk_raw (Some (length (heap s))) n)) (alloc_state s n) = Exn s' ->
  objs s' = objs s /\ exists L, heap s' = heap s ++ [mk_block false L] /\ P L.
Proof.
  intros HB H. apply catch_exn_inv in H as (s2 & H2 & Hh).
  destruct (HB s2 H2) as (Hobjs & L & Hheap & HP).
  unfold raw_dtor in Hh; cbn [buffer] in Hh.
  rewrite (Deallocate_run s2 (length (heap s)) L) in Hh.
  2:{ rewrite Hheap, lookup_app_r by lia. now rewrite Nat.sub_diag. }
  destruct Hh as [Hh|Hh]; [|discriminate]. injection Hh as <-. cbn [heap objs].
  split; [exact Hobjs|]. exists L. split; [|exact HP]. rewrite Hheap. apply insert_last.
Qed.

End GrowthCatch.

(** Look up an object after updates of the object store. *)
Ltac obj_lookup :=
  cbn [objs heap log tick];
  repeat first [ rewrite list_lookup_insert_ne by congruence
               | rewrite list_lookup_insert_eq
                   by (rewrite ?length_insert; first [lia | eapply lookup_lt_Some; eassumption]) ];
  first [ reflexivity | eassumption ].

(** Run one access to the object store at the head of a bind. *)
Ltac obj_step :=
  first [ erewrite bind_ok by (apply get_obj_run; obj_lookup)
        | erewrite bind_ok by (eapply set_data_run; obj_lookup)
        | erewrite bind_ok by (eapply set_size_run; obj_lookup)
        | erewrite bind_ok by (eapply set_obj_run; obj_lookup) ];
  cbn [heap objs log tick data size buffer capacity raw_move_ctor raw_move_assign raw_swap].

Section MoveLoop.
Context {T : Type} (tr : traits T).
Implicit Types (s : state T) (l : list (option T)) (ws : list T).

Lemma ev_assigns_S d n : ev_assigns d (S n) = ev_assigns d n ++ [EAssign (ptr_add d n) MoveA].
Proof. unfold ev_assigns. now rewrite seq_S, map_app. Qed.

(** [std::move] of [ws], at slots [[c + 1, c + 1 + length ws)], one slot to
    the left inside one block that holds [x0] at slot [c]: either every
    move assignment returns and slots [[c, c + length ws)] hold [ws] with a
    moved-from object after them, or one of them throws. *)
Lemma std_move_run s b l c x0 ws :
  heap s !! b = Some (mk_block true l) ->
  l !! c = Some (Some x0) ->
  (forall j w, ws !! j = Some w -> l !! (S c + j) = Some (Some w)) ->
  match (if nothrow_move_assign tr then None else first_throw tr (tick s) (length ws)) with
  | None =>
      exists y, std_move tr (mk_ptr (Some b) (S c)) (mk_ptr (Some b) (S c + length ws)) (mk_ptr (Some b) c) s =
      Ok tt (mk_state (<[b := mk_block true (list_inserts c (map Some ws ++ [Some y]) l)]> (heap s))
                      (objs s) (log s ++ ev_assigns (mk_ptr (Some b) c) (length ws))
                      (tick s + assign_ticks tr (length ws)))
  | Some _ =>
      exists s', std_move tr (mk_ptr (Some b) (S c)) (mk_ptr (Some b) (S c + length ws)) (mk_ptr (Some b) c) s
                 = Exn s'
  end.
Proof.
  intros Hb Hx0 Hws.
  set (d := mk_ptr (Some b) c).
  set (F := fun i => mk_state
         (<[b := mk_block true (list_inserts c (map Some (take i ws) ++ [Some (moved_last tr x0 ws i)]) l)]> (heap s))
         (objs s) (log s ++ ev_assigns d i) (tick s + assign_ticks tr i)).
  assert (Hbl : b < length (heap s)) by (eapply lookup_lt_Some; eauto).
  assert (HF0 : F 0 = s).
  { unfold F, assign_ticks. rewrite take_0. cbn [map app moved_last].
    rewrite (inserts_id c [Some x0] l).
    - rewrite (list_insert_id (heap s) b) by exact Hb. unfold ev_assigns; cbn [seq map].
      destruct (nothrow_move_assign tr); now rewrite app_nil_r, Nat.add_0_r, state_eta.
    - intros [|j] x Hj; cbn in Hj; [injection Hj as <-; now rewrite Nat.add_0_r|].
      rewrite ?lookup_nil in Hj. discriminate. }
  assert (HFb : forall i, heap (F i) !! b
     = Some (mk_block true (list_inserts c (map Some (take i ws) ++ [Some (moved_last tr x0 ws i)]) l))).
  { intros i. unfold F; cbn. now rewrite list_lookup_insert_eq by exact Hbl. }
  assert (Hstep : forall i w, ws !! i = Some w ->
    (v ← read_at (ptr_add (mk_ptr (Some b) (S c)) i);
     assign_at tr (ptr_add d i) MoveA v;;
     leave_moved_from tr (ptr_add (mk_ptr (Some b) (S c)) i) v) (F i) =
    if throws tr (nothrow_move_assign tr) (tick s + assign_ticks tr i)
    then Exn (mk_state (heap (F i)) (objs s) (log (F i)) (S (tick s + assign_ticks tr i)))
    else Ok tt (F (S i))).
  { intros i w Hw.
    assert (Hi : i < length ws) by (eapply lookup_lt_Some; eauto).
    assert (Hl : S c + i < length l) by (eapply lookup_lt_Some; eauto).
    set (X := map Some (take i ws) ++ [Some (moved_last tr x0 ws i)]).
    assert (HX : length X = S i) by (unfold X; rewrite length_app, length_map, length_take; cbn; lia).
    unfold ptr_add at 1; cbn [pblk poff].
    assert (Hrd : list_inserts c X l !! (S c + i) = Some (Some w)).
    { rewrite list_lookup_inserts_ge by lia. exact (Hws i w Hw). }
    rewrite (bind_ok _ _ _ w _ (read_at_run _ b _ _ _ (HFb i) Hrd)).
    assert (Hold : list_inserts c X l !! (c + i) = Some (Some (moved_last tr x0 ws i))).
    { rewrite lookup_inserts_in by lia. unfold X. rewrite lookup_app_r; rewrite length_map, length_take; [|lia].
      now replace (i - Nat.min i (length ws)) with 0 by lia. }
    unfold d, ptr_add; cbn [pblk poff].
    unfold mbind at 1, M_bind at 1.
    rewrite (assign_at_run tr _ b _ _ _ _ _ (HFb i) Hold).
    unfold F at 1; cbn [assign_nothrow heap objs log tick].
    destruct (throws tr (nothrow_move_assign tr) (tick s + assign_ticks tr i)) eqn:Hthr; [reflexivity|].
    unfold leave_moved_from.
    rewrite (put_slot_run _ b (<[c + i := Some w]> (list_inserts c X l))); cbn [heap objs log tick].
    2:{ heap_simpl. reflexivity. }
    unfold F; cbn [heap objs log tick]. heap_simpl.
    unfold X. erewrite take_S_r by exact Hw. rewrite map_app.
    change (map Some [w]) with [Some w].
    rewrite !inserts_snoc, !length_app, !length_map, !length_take. cbn [length].
    replace (Nat.min i (length ws)) with i by lia.
    rewrite list_insert_insert_eq.
    replace (c + (i + 1)) with (S c + i) by lia.
    cbn [moved_last]. replace (S i - 1) with i by lia. rewrite Hw. cbn [default].
    rewrite ev_assigns_S, app_assoc.
    replace (tick_step (nothrow_move_assign tr) (tick s + assign_ticks tr i))
      with (tick s + assign_ticks tr (S i))
      by (unfold tick_step, assign_ticks; destruct (nothrow_move_assign tr); lia).
    reflexivity. }
  assert (Hok : forall i, i < length ws ->
    throws tr (nothrow_move_assign tr) (tick s + assign_ticks tr i) = false ->
    (v ← read_at (ptr_add (mk_ptr (Some b) (S c)) i);
     assign_at tr (ptr_add d i) MoveA v;;
     leave_moved_from tr (ptr_add (mk_ptr (Some b) (S c)) i) v) (F i) = Ok tt (F (S i))).
  { intros i Hi Hthr. destruct (lookup_lt_is_Some_2 ws i Hi) as [w Hw].
    rewrite (Hstep i w Hw), Hthr. reflexivity. }
  unfold std_move; cbn [poff].
  rewrite (proj2 (Nat.ltb_ge _ _)) by lia. replace (S c + length ws - S c) with (length ws) by lia.
  assert (Hall : (forall i, 0 <= i < 0 + length ws ->
                  throws tr (nothrow_move_assign tr) (tick s + assign_ticks tr i) = false) ->
    exists y, for_ 0 (length ws) (fun j =>
       v ← read_at (ptr_add (mk_ptr (Some b) (S c)) j);
       assign_at tr (ptr_add d j) MoveA v;;
       leave_moved_from tr (ptr_add (mk_ptr (Some b) (S c)) j) v) s =
    Ok tt (mk_state (<[b := mk_block true (list_inserts c (map Some ws ++ [Some y]) l)]> (heap s))
                    (objs s) (log s ++ ev_assigns d (length ws)) (tick s + assign_ticks tr (length ws)))).
  { intros Hnt. exists (moved_last tr x0 ws (length ws)).
    rewrite (for_ok _ F 0 (length ws) s HF0).
    - unfold F; cbn [Nat.add]. now rewrite take_ge by lia.
    - intros i Hi. apply Hok; [lia|]. apply Hnt. lia. }
  destruct (nothrow_move_assign tr) eqn:Hnt.
  - apply Hall. intros i _. unfold throws. now rewrite ?Hnt.
  - destruct (first_throw tr (tick s) (length ws)) as [k|] eqn:Hft.
    + destruct (first_throw_Some _ _ _ _ Hft) as (Hk & Hthr & Hbefore).
      destruct (lookup_lt_is_Some_2 ws k Hk) as [w Hw].
      eexists. apply (for_exn _ F 0 (length ws) k s _ HF0 Hk).
      * intros i [_ Hi]. apply Hok; [lia|]. unfold throws, assign_ticks. rewrite ?Hnt.
        apply Hbefore. lia.
      * cbn [Nat.add]. rewrite (Hstep k w Hw). unfold throws, assign_ticks. rewrite ?Hnt, Hthr.
        reflexivity.
    + apply Hall. intros i Hi. unfold throws, assign_ticks. rewrite ?Hnt.
      apply (first_throw_None _ _ (length ws) Hft). lia.
Qed.

End MoveLoop.

(** ** Code that allocates nothing *)

Section ElemOp.
Context {T : Type} (tr : traits T).
Implicit Types (s : state T).

Lemma allocs_app es1 es2 : allocs (es1 ++ es2) = allocs es1 ++ allocs es2.
Proof. induction es1 as [|[] es1 IH]; cbn; rewrite ?IH; reflexivity. Qed.

Lemma log_ext_refl l : log_ext_noalloc l l.
Proof. exists []. now rewrite app_nil_r. Qed.

Lemma log_ext_trans l1 l2 l3 :
  log_ext_noalloc l1 l2 -> log_ext_noalloc l2 l3 -> log_ext_noalloc l1 l3.
Proof.
  intros (es1 & -> & H1) (es2 & -> & H2). exists (es1 ++ es2).
  now rewrite app_assoc, allocs_app, H1, H2.
Qed.

Lemma elem_op_ret {A} (a : A) : @elem_op T A (mret a).
Proof.
  split; intros s; [intros a' s' H|intros s' H]; cbv in H; try discriminate.
  injection H as <- <-. split; [done|apply log_ext_refl].
Qed.

Lemma elem_op_ub {A} : @elem_op T A ub.
Proof. split; intros s; [intros a s' H|intros s' H]; discriminate. Qed.

Lemma elem_op_assert_fail {A} : @elem_op T A assert_fail.
Proof. split; intros s; [intros a s' H|intros s' H]; discriminate. Qed.

Lemma elem_op_bind {A B} (m : M T A) (f : A -> M T B) :
  elem_op m -> (forall a, elem_op (f a)) -> elem_op (m ≫= f).
Proof.
  intros [Hm1 Hm2] Hf. split.
  - intros s b s' H. unfold mbind, M_bind in H.
    destruct (m s) as [a s1|s1| |] eqn:E; try discriminate.
    destruct (Hm1 _ _ _ E) as [O1 L1]. destruct (proj1 (Hf a) _ _ _ H) as [O2 L2].
    split; [congruence|]. eapply log_ext_trans; eauto.
  - intros s s' H. unfold mbind, M_bind in H.
    destruct (m s) as [a s1|s1| |] eqn:E; try discriminate.
    + destruct (Hm1 _ _ _ E) as [O1 L1]. destruct (proj2 (Hf a) _ _ H) as [O2 L2].
      split; [congruence|]. eapply log_ext_trans; eauto.
    + injection H as <-. exact (Hm2 _ _ E).
Qed.

Lemma elem_op_catch {A} (m : M T A) h : elem_op m -> elem_op h -> elem_op (catch_rethrow m h).
Proof.
  intros [Hm1 Hm2] [Hh1 Hh2]. split.
  - intros s a s' H. unfold catch_rethrow in H.
    destruct (m s) as [a1 s1|s1| |] eqn:E; try discriminate.
    + injection H as -> ->. exact (Hm1 _ _ _ E).
    + destruct (h s1); discriminate.
  - intros s s' H. unfold catch_rethrow in H.
    destruct (m s) as [a1 s1|s1| |] eqn:E; try discriminate.
    destruct (Hm2 _ _ E) as [O1 L1].
    destruct (h s1) as [u s2|s2| |] eqn:Eh; try discriminate; injection H as <-.
    + destruct (Hh1 _ _ _ Eh) as [O2 L2]. split; [congruence|]. eapply log_ext_trans; eauto.
    + destruct (Hh2 _ _ Eh) as [O2 L2]. split; [congruence|]. eapply log_ext_trans; eauto.
Qed.

Lemma elem_op_for j n (body : nat -> M T unit) :
  (forall i, elem_op (body i)) -> elem_op (for_ j n body).
Proof.
  revert j. induction n as [|n IH]; intros j Hb; cbn; [apply elem_op_ret|].
  apply elem_op_bind; auto.
Qed.

Lemma elem_op_emit e : allocs [e] = [] -> @elem_op T unit (emit e).
Proof.
  intros He. split; intros s; [intros a s' H|intros s' H]; cbv in H; try discriminate.
  injection H as <- <-. split; [done|]. exists [e]. split; [done|exact He].
Qed.

Lemma elem_op_may_throw nt : elem_op (may_throw tr nt).
Proof.
  split.
  - intros s a s' H. unfold may_throw in H. destruct nt.
    + injection H as _ <-. split; [done|apply log_ext_refl].
    + destruct (throws_at tr (tick s)); [discriminate|].
      injection H as _ <-. split; [done|apply log_ext_refl].
  - intros s s' H. unfold may_throw in H. destruct nt; [discriminate|].
    destruct (throws_at tr (tick s)); [|discriminate].
    injection H as <-. split; [done|apply log_ext_refl].
Qed.

Lemma elem_op_get_block b : @elem_op T _ (get_block b).
Proof.
  split; intros s; [intros a s' H|intros s' H]; unfold get_block in H;
    destruct (heap s !! b) as [blk|]; try discriminate; destruct (blk_live blk); try discriminate.
  injection H as _ <-. split; [done|apply log_ext_refl].
Qed.

Lemma elem_op_put_block b (blk : block T) : elem_op (put_block b blk).
Proof.
  split; intros s; [intros a s' H|intros s' H]; cbv in H; try discriminate.
  injection H as _ <-. split; [done|apply log_ext_refl].
Qed.

Lemma elem_op_get_obj i : @elem_op T _ (get_obj i).
Proof.
  split; intros s; [intros a s' H|intros s' H]; unfold get_obj in H;
    destruct (objs s !! i); try discriminate.
  injection H as _ <-. split; [done|apply log_ext_refl].
Qed.

End ElemOp.

Create HintDb elem_op.
#[export] Hint Resolve elem_op_ret elem_op_ub elem_op_assert_fail elem_op_may_throw
  elem_op_get_block elem_op_put_block elem_op_get_obj : elem_op.

(** Split binds, handlers, loops and branches down to primitives that
    allocate nothing and leave the object store alone. *)
Ltac elem_op_tac :=
  repeat match goal with
  | |- elem_op (_ ≫= _) => apply elem_op_bind; [|intros ?]
  | |- elem_op (catch_rethrow _ _) => apply elem_op_catch
  | |- elem_op (for_ _ _ _) => apply elem_op_for; intros ?
  | |- elem_op (emit _) => apply elem_op_emit; reflexivity
  | |- elem_op (match ?x with _ => _ end) => destruct x
  | |- elem_op (if ?x then _ else _) => destruct x
  | |- elem_op _ =>
      progress unfold destroy_n, destroy_at, get_slot, put_slot, read_at, construct_at,
        assign_at, leave_moved_from, make_temp, destroy_temp, construct_arg, make_temp_arg,
        uninitialized_copy_n,
        uninitialized_move_n, uninitialized_value_construct_n, copy_n, std_move,
        move_backward, Deallocate, raw_dtor, raw_plus, raw_index, TransferDataSafely
  end; eauto with elem_op.

Section NoAlloc.
Context {T : Type} (tr : traits T).
Implicit Types (s : state T).

Lemma elem_op_noalloc {A} (m : M T A) : elem_op m -> noalloc m.
Proof. intros [H1 H2]. split; [intros s a s' H|intros s s' H]; [apply (H1 _ _ _ H)|apply (H2 _ _ H)]. Qed.

Lemma noalloc_bind {A B} (m : M T A) (f : A -> M T B) :
  noalloc m -> (forall a, noalloc (f a)) -> noalloc (m ≫= f).
Proof.
  intros [Hm1 Hm2] Hf. split.
  - intros s b s' H. unfold mbind, M_bind in H.
    destruct (m s) as [a s1|s1| |] eqn:E; try discriminate.
    eapply log_ext_trans; [exact (Hm1 _ _ _ E)|exact (proj1 (Hf a) _ _ _ H)].
  - intros s s' H. unfold mbind, M_bind in H.
    destruct (m s) as [a s1|s1| |] eqn:E; try discriminate.
    + eapply log_ext_trans; [exact (Hm1 _ _ _ E)|exact (proj2 (Hf a) _ _ H)].
    + injection H as <-. exact (Hm2 _ _ E).
Qed.

Lemma noalloc_set_obj i v : @noalloc T _ (set_obj i v).
Proof.
  split; intros s; [intros a s' H|intros s' H]; unfold set_obj in H;
    destruct (objs s !! i); try discriminate.
  injection H as _ <-. apply log_ext_refl.
Qed.

Lemma noalloc_new_obj v : @noalloc T _ (new_obj v).
Proof.
  split; intros s; [intros a s' H|intros s' H]; unfold new_obj in H; try discriminate.
  injection H as _ <-. apply log_ext_refl.
Qed.

(** A run that allocated one block for [n] elements, then nothing. *)
Lemma alloc_log s n m l :
  log_ext_noalloc (log (alloc_state_sl s n m)) l -> exists es, l = log s ++ es /\ allocs es = [n].
Proof.
  intros (es & -> & H). exists ([EAlloc (length (heap s)) n] ++ es). cbn [log alloc_state_sl].
  split; [now rewrite app_assoc|]. cbn. now rewrite H.
Qed.

Lemma elem_then {A B} (m : M T A) (f : A -> M T B) s b s' :
  elem_op m -> (m ≫= f) s = Ok b s' ->
  exists a s1, m s = Ok a s1 /\ objs s1 = objs s /\ log_ext_noalloc (log s) (log s1) /\
               f a s1 = Ok b s'.
Proof.
  intros [Hm _] H. unfold mbind, M_bind in H.
  destruct (m s) as [a s1|s1| |] eqn:E; try discriminate.
  destruct (Hm _ _ _ E). eauto 7.
Qed.

End NoAlloc.

(** Split binds, handlers, loops and branches down to primitives that
    allocate nothing. *)
Ltac noalloc_tac :=
  repeat match goal with
  | |- noalloc (_ ≫= _) => apply noalloc_bind; [|intros ?]
  | |- noalloc (set_obj _ _) => apply noalloc_set_obj
  | |- noalloc (new_obj _) => apply noalloc_new_obj
  | |- noalloc (set_data _ _) => unfold set_data
  | |- noalloc (set_size _ _) => unfold set_size
  | |- noalloc (match ?x with _ => _ end) => destruct x
  | |- noalloc (if ?x then _ else _) => destruct x
  | |- noalloc _ => apply elem_op_noalloc; elem_op_tac
  end.

(** Look up an object after updates of the object store, using the
    equations between the object stores of successive states. *)
Ltac obj_lookup_eqs :=
  repeat match goal with
  | H : objs ?x = _ |- context [objs ?x] => rewrite H
  | |- context [objs (alloc_state ?x ?n)] => change (objs (alloc_state x n)) with (objs x)
  | |- context [objs (alloc_state_sl ?x ?n ?m)] => change (objs (alloc_state_sl x n m)) with (objs x)
  end;
  cbn [objs heap log tick];
  repeat first [ rewrite list_lookup_insert_ne by congruence
               | rewrite list_lookup_insert_eq
                   by (rewrite ?length_insert; eapply lookup_lt_Some; eassumption) ];
  first [ reflexivity | eassumption ].

(** Walk a normally returning run: steps that leave the object store alone
    are passed over, [set_data]/[set_size] are run. *)
Ltac walk H :=
  repeat first
    [ match type of H with
      | (?m ≫= ?f) ?s = Ok _ _ =>
          let Hm := fresh "Hm" in
          assert (Hm : elem_op m) by elem_op_tac;
          let a := fresh "a" in let s1 := fresh "s" in
          let Hr := fresh "Hr" in let Ho := fresh "Ho" in let Hl := fresh "Hl" in
          let H' := fresh "H" in
          destruct (elem_then _ _ _ _ _ Hm H) as (a & s1 & Hr & Ho & Hl & H');
          clear Hm H; rename H' into H
      end
    | erewrite bind_ok in H by (eapply set_data_run; obj_lookup_eqs)
    | erewrite bind_ok in H by (eapply set_size_run; obj_lookup_eqs)
    | erewrite set_size_run in H by obj_lookup_eqs
    | progress cbn [raw_swap raw_move_assign fst snd] in H ].

(** The blocks allocated by a run that allocates nothing, in a form for
    [noalloc] and [elem_op] hypotheses. *)
Ltac log_part H :=
  match type of H with
  | ?m ?st = Exn _ =>
      let Hn := fresh "Hn" in assert (Hn : noalloc m) by noalloc_tac; apply (proj2 Hn) in H; clear Hn
  | ?m ?st = Ok _ _ =>
      let Hn := fresh "Hn" in assert (Hn : noalloc m) by noalloc_tac; apply (proj1 Hn) in H; clear Hn
  end.

Section Growth4.
Context {T : Type} (tr : traits T).
Implicit Types (s : state T).

Lemma bind_ok_inv {A B} (m : M T A) (f : A -> M T B) s b s' :
  (m ≫= f) s = Ok b s' -> exists a s1, m s = Ok a s1 /\ f a s1 = Ok b s'.
Proof.
  unfold mbind, M_bind. destruct (m s) as [a s1|s1| |]; intros H; try discriminate. eauto.
Qed.

Lemma grow_n_nonzero n : (if n =? 0 then 1 else n * 2) <> 0.
Proof. destruct (n =? 0) eqn:E; [|apply Nat.eqb_neq in E]; lia. Qed.

Lemma grow_n_max n : (if n =? 0 then 1 else n * 2) = Nat.max 1 (2 * n).
Proof. destruct (n =? 0) eqn:E; [apply Nat.eqb_eq in E|apply Nat.eqb_neq in E]; lia. Qed.

(** The growth check and the run after it, for an append that starts with
    [self <- get_obj this; if size self =? capacity (data self) then ...]:
    [operator new] fails, or the run goes on in the state after the
    allocation. *)
Ltac growth_split self H Hg :=
  destruct (size self =? capacity (data self)) eqn:Hg;
  [ apply Nat.eqb_eq in Hg;
    lazymatch type of H with
    | (raw_new ?t ?n ≫= _) ?st = _ =>
        let Hf := fresh "Hf" in
        destruct (new_fails t (length (heap st)) (alloc_bytes t n)) eqn:Hf;
        [ rewrite (bind_exn _ _ _ _ (raw_new_fail t st n (grow_n_nonzero _) Hf)) in H
        | rewrite (bind_ok _ _ _ _ _ (raw_new_grow t st n (grow_n_nonzero _) Hf)) in H ];
        rewrite grow_n_max, Hg in Hf; try (rewrite grow_n_max, Hg in H); rewrite ?Hf
    end
  | ];
  first
    [ discriminate
    | injection H as <-; exists []; split; [now rewrite app_nil_r|reflexivity]
    | log_part H; first [ destruct (alloc_log _ _ _ _ H) as (es & -> & Ha); now exists es
                        | destruct H as (es & -> & Ha); now exists es ]
    | walk H; injection H; clear H; intros; subst; rewrite ?Hg; obj_lookup_eqs ].

Ltac growth_cases self Hself H Hg :=
  rewrite (bind_ok _ _ _ _ _ (get_obj_run _ _ _ Hself)) in H;
  growth_split self H Hg.

Lemma emplace_back_growth this k a s self :
  objs s !! this = Some self ->
  (forall s', EmplaceBack tr this k a s = Exn s' ->
     exists es, log s' = log s ++ es /\
       allocs es = (if size self =? capacity (data self)
                    then (if new_fails tr (length (heap s))
                               (alloc_bytes tr (Nat.max 1 (2 * capacity (data self))))
                          then [] else [Nat.max 1 (2 * capacity (data self))])
                    else [])) /\
  (forall p s', EmplaceBack tr this k a s = Ok p s' ->
     (exists es, log s' = log s ++ es /\
       allocs es = (if size self =? capacity (data self)
                    then [Nat.max 1 (2 * capacity (data self))] else [])) /\
     objs s' !! this = Some (mk_vec
       (if size self =? capacity (data self)
        then mk_raw (Some (length (heap s))) (Nat.max 1 (2 * capacity (data self)))
        else data self) (S (size self)))).
Proof.
  intros Hself.
  split; [intros s' H|intros p s' H; split];
    unfold EmplaceBack in H; growth_cases self Hself H Hg.
Qed.

Lemma push_back_growth op this value s self :
  objs s !! this = Some self ->
  (forall s', push_back_op tr op this value s = Exn s' ->
     exists es, log s' = log s ++ es /\
       allocs es = (if size self =? capacity (data self)
                    then (if new_fails tr (length (heap s))
                               (alloc_bytes tr (Nat.max 1 (2 * capacity (data self))))
                          then [] else [Nat.max 1 (2 * capacity (data self))])
                    else [])) /\
  (forall s', push_back_op tr op this value s = Ok tt s' ->
     (exists es, log s' = log s ++ es /\
       allocs es = (if size self =? capacity (data self)
                    then [Nat.max 1 (2 * capacity (data self))] else [])) /\
     objs s' !! this = Some (mk_vec
       (if size self =? capacity (data self)
        then mk_raw (Some (length (heap s))) (Nat.max 1 (2 * capacity (data self)))
        else data self) (S (size self)))).
Proof.
  intros Hself. destruct op as [| |k]; cbn [push_back_op].
  - split; [intros s' H|intros s' H; split]; unfold PushBack_copy in H; growth_cases self Hself H Hg.
  - split; [intros s' H|intros s' H; split]; unfold PushBack_move in H; growth_cases self Hself H Hg.
  - destruct (emplace_back_growth this k (AVal value) s self Hself) as [He Hok]. split.
    + intros s' H. apply bind_exn_inv in H as [H|(p & s1 & _ & H)]; [exact (He _ H)|discriminate].
    + intros s' H. apply bind_ok_inv in H as (p & s1 & H & H'). injection H' as <-.
      exact (Hok _ _ H).
Qed.

Lemma log_then es l' s s1 :
  log s1 = log s ++ es -> log_ext_noalloc (log s1) l' ->
  exists es', l' = log s ++ es' /\ allocs es' = allocs es.
Proof.
  intros Hs (es2 & -> & H2). exists (es ++ es2).
  rewrite Hs, app_assoc, allocs_app, H2, app_nil_r. auto.
Qed.

Lemma emplace_growth this offset k a s self :
  objs s !! this = Some self ->
  (forall s', Emplace tr this offset k a s = Exn s' ->
     exists es, log s' = log s ++ es /\
       allocs es = (if size self =? capacity (data self)
                    then (if new_fails tr (length (heap s))
                               (alloc_bytes tr (Nat.max 1 (2 * capacity (data self))))
                          then [] else [Nat.max 1 (2 * capacity (data self))])
                    else [])) /\
  (forall p s', Emplace tr this offset k a s = Ok p s' ->
     (exists es, log s' = log s ++ es /\
       allocs es = (if size self =? capacity (data self)
                    then [Nat.max 1 (2 * capacity (data self))] else [])) /\
     objs s' !! this = Some (mk_vec
       (if size self =? capacity (data self)
        then mk_raw (Some (length (heap s))) (Nat.max 1 (2 * capacity (data self)))
        else data self) (S (size self)))).
Proof.
  intros Hself. destruct (emplace_back_growth this k a s self Hself) as [He Hok].
  assert (Hrest : forall o, @elem_op T _ (self' ← get_obj this; mret (ptr_add (vbegin self') o)))
    by (intros o; elem_op_tac).
  split; [intros s' H|intros p s' H];
    unfold Emplace in H; rewrite (bind_ok _ _ _ _ _ (get_obj_run _ _ _ Hself)) in H;
    (destruct (size self <? offset); [discriminate|]);
    destruct (offset =? size self).
  - apply bind_exn_inv in H as [H|(a0 & s1 & H1 & H2)]; [exact (He _ H)|].
    exfalso. unfold get_obj, mbind, M_bind in H2. destruct (objs s1 !! this); discriminate.
  - growth_split self H Hg.
  - apply bind_ok_inv in H as (a0 & s1 & H1 & H2).
    destruct (Hok _ _ H1) as [(es & Hl & Ha) Hobj].
    destruct (proj1 (Hrest offset) _ _ _ H2) as [Ho Hl2]. split.
    + destruct (log_then _ _ _ _ Hl Hl2) as (es' & -> & Ha'). exists es'. now rewrite Ha'.
    + now rewrite Ho.
  - split; growth_split self H Hg.
Qed.

End Growth4.

Section CopyAssign.
Context {T : Type} (tr : traits T).
Implicit Types (s : state T) (vs : list T).

(** A block whose slots are [vs] followed by [k] raw slots. *)
Lemma shape_eq (l : list (option T)) vs k :
  length l = length vs + k ->
  (forall j w, vs !! j = Some w -> l !! j = Some (Some w)) ->
  (forall j, length vs <= j < length vs + k -> l !! j = Some None) ->
  l = map Some vs ++ replicate k None.
Proof.
  intros Hlen Hv Hr. apply list_eq. intros j.
  destruct (decide (j < length vs)) as [Hj|Hj].
  - rewrite lookup_app_l by (rewrite length_map; lia).
    destruct (lookup_lt_is_Some_2 vs j Hj) as [w Hw].
    rewrite (Hv j w Hw), lookup_map_eq, Hw. reflexivity.
  - rewrite lookup_app_r by (rewrite length_map; lia). rewrite length_map.
    destruct (decide (j < length vs + k)).
    + rewrite Hr by lia. rewrite lookup_replicate_2 by lia. reflexivity.
    + rewrite (proj2 (lookup_ge_None l j)) by lia.
      rewrite (proj2 (lookup_ge_None _ _)); [reflexivity|]. rewrite length_replicate. lia.
Qed.

Lemma vec_wf_shape s v b vs k :
  buffer (data v) = Some b -> capacity (data v) = length vs + k -> size v = length vs ->
  heap s !! b = Some (mk_block true (map Some vs ++ replicate k None)) ->
  vec_wf s v = true /\ vec_slots s v = map Some vs.
Proof.
  intros Hb Hc Hs Hh. unfold vec_wf, vec_slots. rewrite Hb, Hh, Hc, Hs. cbn [blk_live blk_slots].
  assert (Hl : length (map Some vs) = length vs) by apply length_map.
  rewrite <- Hl. rewrite take_app_length, drop_app_length. split; [|reflexivity].
  rewrite length_app, length_replicate, !Nat.eqb_refl. cbn.
  apply andb_true_iff; split; [apply Nat.leb_le; lia|].
  apply andb_true_iff; split; apply forallb_forall.
  - intros x Hx. apply in_map_iff in Hx as (w & <- & _). reflexivity.
  - intros x Hx. apply list_elem_of_In, elem_of_replicate in Hx as [-> _]. reflexivity.
Qed.

(** The elements of a well-formed vector, read off its slots. *)
Lemma slots_values s v vs :
  vec_wf s v = true -> vec_slots s v = map Some vs ->
  length vs = size v /\
  (buffer (data v) = None /\ size v = 0 \/
   exists b l, buffer (data v) = Some b /\ heap s !! b = Some (mk_block true l) /\
     (forall j w, vs !! j = Some w -> l !! j = Some (Some w))).
Proof.
  intros Hwf Hsl. destruct (buffer (data v)) as [b|] eqn:Hb.
  - destruct (vec_wf_block _ _ _ Hwf Hb) as (l & Hh & Hlen & Hsz & _).
    unfold vec_slots in Hsl. rewrite Hb, Hh in Hsl. cbn [blk_slots] in Hsl.
    split.
    + rewrite <- (length_map Some vs), <- Hsl, length_take. lia.
    + right. exists b, l. repeat split; auto. intros j w Hj.
      assert (Hm : map Some vs !! j = Some (Some w)) by (rewrite lookup_map_eq, Hj; reflexivity).
      rewrite <- Hsl in Hm. apply lookup_take_Some in Hm as [Hm _]. exact Hm.
  - destruct (vec_wf_null _ _ Hwf Hb) as [_ Hs].
    unfold vec_slots in Hsl. rewrite Hb in Hsl. destruct vs; [|discriminate]. cbn. auto.
Qed.

(** [vec_wf] and [vec_slots] only look at the vector's own block. *)
Lemma vec_wf_heap_eq s s' v :
  (forall b, buffer (data v) = Some b -> heap s' !! b = heap s !! b) ->
  vec_wf s' v = vec_wf s v /\ vec_slots s' v = vec_slots s v.
Proof.
  intros H. unfold vec_wf, vec_slots. destruct (buffer (data v)) as [b|]; [|auto].
  rewrite (H b eq_refl). auto.
Qed.

Lemma first_throw_add t a n :
  first_throw tr t (a + n) =
  match first_throw tr t a with
  | Some k => Some k
  | None => option_map (Nat.add a) (first_throw tr (t + a) n)
  end.
Proof.
  revert t. induction a as [|a IH]; intros t; cbn.
  - rewrite Nat.add_0_r. now destruct (first_throw tr t n).
  - destruct (throws_at tr t); [reflexivity|]. rewrite IH.
    replace (S t + a) with (t + S a) by lia.
    destruct (first_throw tr (S t) a); [reflexivity|].
    now destruct (first_throw tr (t + S a) n).
Qed.

Lemma inserts_full {A} (k l : list A) : length k = length l -> list_inserts 0 k l = k.
Proof. intros H. rewrite <- (app_nil_r k) at 1. now apply list_inserts_0_l. Qed.

Lemma inserts_raw k n : k <= n -> list_inserts 0 (replicate k None) (replicate n (@None T)) = replicate n None.
Proof.
  intros Hk. apply inserts_id. intros j x Hj. cbn.
  apply lookup_replicate in Hj as [-> Hj]. apply lookup_replicate_2. lia.
Qed.

(** [explicit Vector(const Vector& other)] of a vector with [n > 0]
    elements [vs]: a fresh block of [n] slots receives the copies, or, when
    a copy throws, is emptied and released. *)
Lemma vec_copy_run s rhs r vs b l :
  objs s !! rhs = Some r -> buffer (data r) = Some b -> heap s !! b = Some (mk_block true l) ->
  (forall j w, vs !! j = Some w -> l !! j = Some (Some w)) ->
  length vs = size r -> size r <> 0 ->
  new_fails tr (length (heap s)) (alloc_bytes tr (size r)) = false -> fits tr (size r) = true ->
  vec_copy tr rhs s =
  match first_throw tr (tick s) (size r) with
  | None =>
      Ok (mk_vec (mk_raw (Some (length (heap s))) (size r)) (size r))
         (mk_state (heap s ++ [mk_block true (map Some vs)]) (objs s)
                   (log s ++ [EAlloc (length (heap s)) (size r)]
                          ++ ev_constructs (mk_ptr (Some (length (heap s))) 0) CopyC (size r))
                   (tick s + size r))
  | Some k =>
      Exn (mk_state (heap s ++ [mk_block false (replicate (size r) None)]) (objs s)
                    (log s ++ [EAlloc (length (heap s)) (size r)]
                           ++ ev_constructs (mk_ptr (Some (length (heap s))) 0) CopyC k
                           ++ ev_destroys (mk_ptr (Some (length (heap s))) 0) k
                           ++ [EDealloc (length (heap s))])
                    (tick s + S k))
  end.
Proof.
  intros Hr Hb Hh Hv Hlen Hn Hf Hfit.
  assert (Hbl : b < length (heap s)) by (eapply lookup_lt_Some; eauto).
  unfold vec_copy. rewrite (bind_ok _ _ _ _ _ (get_obj_run _ _ _ Hr)).
  rewrite (bind_ok _ _ _ _ _ (raw_new_run tr _ _ Hn Hf (fits_slots tr _ Hfit))).
  unfold GetAddress; rewrite Hb; cbn [buffer capacity].
  rewrite <- Hlen.
  pose proof (uninitialized_copy_n_run tr (alloc_state s (length vs)) b l 0 (length (heap s))
                (replicate (length vs) None) 0 vs ltac:(lia)) as Hrun.
  rewrite lookup_alloc_old in Hrun by exact Hbl.
  specialize (Hrun Hh (lookup_alloc _ _) Hv ltac:(rewrite length_replicate; lia)).
  cbn [tick alloc_state] in Hrun |- *.
  destruct (first_throw tr (tick s) (length vs)) as [k|] eqn:Hft.
  - destruct (first_throw_Some _ _ _ _ Hft) as (Hk & _ & _).
    apply bind_exn. eapply catch_exn; [exact Hrun|].
    unfold raw_dtor; cbn [buffer]. rewrite Deallocate_run with (l := list_inserts 0 (replicate k None)
                                                               (replicate (length vs) None)).
    + cbn [heap objs log tick alloc_state]. rewrite list_insert_insert_eq, insert_last, inserts_raw by lia.
      now rewrite !app_assoc.
    + cbn [heap alloc_state]. rewrite list_lookup_insert_eq; [reflexivity|].
      rewrite length_app; cbn; lia.
  - rewrite (bind_ok _ _ _ _ _ (catch_ok _ _ _ _ _ Hrun)).
    cbn [heap objs log tick alloc_state]. rewrite insert_last, inserts_full
      by (rewrite length_map, length_replicate; reflexivity).
    now rewrite app_assoc.
Qed.

(** [Vector(const Vector& other)] when [operator new] fails. *)
Lemma vec_copy_fail s rhs r :
  objs s !! rhs = Some r -> size r <> 0 ->
  new_fails tr (length (heap s)) (alloc_bytes tr (size r)) = true ->
  vec_copy tr rhs s = Exn s.
Proof.
  intros Hr Hn Hf. unfold vec_copy. rewrite (bind_ok _ _ _ _ _ (get_obj_run _ _ _ Hr)).
  now rewrite (bind_exn _ _ _ _ (raw_new_fail tr _ _ Hn Hf)).
Qed.

End CopyAssign.

(** ** Growth in [Emplace] *)

Section EmplaceGrowth.
Context {T : Type} (tr : traits T).
Implicit Types (s : state T) (l : list (option T)).




Lemma catch_ok_inv {A} (m : M T A) h s a s' :
  catch_rethrow m h s = Ok a s' -> m s = Ok a s'.
Proof.
  unfold catch_rethrow. destruct (m s) as [a1 s1|s1| |]; auto.
  destruct (h s1) as [? ?|?| |]; discriminate.
Qed.

(** A list of [n] raw slots. *)
Lemma all_raw l n :
  length l = n -> (forall j, j < n -> l !! j = Some None) -> l = replicate n None.
Proof.
  intros Hl Hj. apply list_eq. intros j. destruct (decide (j < n)).
  - rewrite Hj by lia. rewrite lookup_replicate_2 by lia. reflexivity.
  - rewrite (proj2 (lookup_ge_None l j)) by lia.
    rewrite (proj2 (lookup_ge_None _ j)); [reflexivity|]. rewrite length_replicate. lia.
Qed.

End EmplaceGrowth.

(** * The claims *)

Module Claims.

(** Claim C1 (code bug): a [PushBack] or [EmplaceBack] that has to grow
    builds the new element at slot [size] of the fresh block before the
    transfer; when the transfer throws, the handler only releases the block
    and never destroys that element, whereas the growth path of [Emplace]
    destroys the element it built ([std::destroy_at]) in the same situation.
    Growing [[5; 6]] with a copyable element type whose third throwing
    operation (the copy of [6]) throws: [PushBack(9)] and [EmplaceBack(9)]
    release block 1 with [9] still alive at slot 2 and no destruction of it
    in the log, while [Emplace(begin(), 9)] under the same failure leaves no
    element alive in the released block and logs the destruction of the new
    element at slot 0. *)
Theorem push_back_growth_keeps_tail :
  vec_wf full2_state full2_vec = true /\
  (exists s', push_back_op copy_throwing_tr PushCopy 0 9 full2_state = Exn s' /\
     heap s' !! 1 = Some (mk_block false [None; None; Some 9; None]) /\
     ~ In (EDestroy (mk_ptr (Some 1) 2)) (log s')) /\
  (exists s', push_back_op copy_throwing_tr (EmplaceBackK CopyC) 0 9 full2_state = Exn s' /\
     heap s' !! 1 = Some (mk_block false [None; None; Some 9; None]) /\
     ~ In (EDestroy (mk_ptr (Some 1) 2)) (log s')) /\
  (exists s', Emplace copy_throwing_tr 0 0 CopyC (AVal 9) full2_state = Exn s' /\
     heap s' !! 1 = Some (mk_block false [None; None; None; None]) /\
     In (EDestroy (mk_ptr (Some 1) 0)) (log s')).
Proof.
  split; [vm_compute; reflexivity|]. split; [|split].
  - eexists. split; [vm_compute; reflexivity|]. split; [vm_compute; reflexivity|].
    vm_compute. intros H. repeat (destruct H as [H|H]; [discriminate|]). exact H.
  - eexists. split; [vm_compute; reflexivity|]. split; [vm_compute; reflexivity|].
    vm_compute. intros H. repeat (destruct H as [H|H]; [discriminate|]). exact H.
  - eexists. split; [vm_compute; reflexivity|]. split; [vm_compute; reflexivity|].
    vm_compute. tauto.
Qed.

(** Claim C2 (code bug): [PushBack(T&&)] replaces the buffer with
    [data_ = std::move(new_data)], which does not release the old block.
    After [Vector<int> v; v.PushBack(1); v.PushBack(2);] and the end of
    [v]'s lifetime, block 0, allocated by the first [PushBack], is still
    allocated and was never released. *)
Theorem push_back_move_leaks_buffer :
  exists s', leak_program empty_state = Ok tt s' /\
    In (EAlloc 0 1) (log s') /\ ~ In (EDealloc 0) (log s') /\
    heap s' !! 0 = Some (mk_block true [None]).
Proof.
  eexists. split; [vm_compute; reflexivity|]. split; [vm_compute; tauto|]. split.
  - vm_compute. intros H. repeat (destruct H as [H|H]; [discriminate|]). exact H.
  - vm_compute. reflexivity.
Qed.

(** Claim C5 (code bug): an [Emplace] before [end()] that does not grow
    constructs a new last element from [*(end() - 1)] before the temporary
    [T(args...)] is built; when building the temporary throws, [size_] is
    unchanged and slot [size_] still holds that element, so the vector is
    no longer well formed: [[size, capacity)] is not raw memory. *)
Theorem emplace_throw_breaks_invariant :
  exists s', emplace_throw_program empty_state = Exn s' /\
    objs s' !! 0 = Some (mk_vec (mk_raw (Some 0) 4) 2) /\
    heap s' !! 0 = Some (mk_block true [Some 0; Some 1; Some 2; None]) /\
    vec_wf s' (mk_vec (mk_raw (Some 0) 4) 2) = false.
Proof. eexists. split; [vm_compute; reflexivity|]. vm_compute. repeat split. Qed.

Section C3.
Context {T : Type} (tr : traits T).

End C3.



Section Simple.
Context {T : Type} (tr : traits T).

(** Claim C10: copy-assigning a vector to itself ([this == &rhs]) returns at
    once: the state, and so the vector's size, capacity and elements, are
    unchanged. *)
Theorem copy_assign_self this (s : state T) : copy_assign tr this this s = Ok tt s.
Proof. unfold copy_assign. now rewrite Nat.eqb_refl. Qed.

(** Claim C7: move construction [Vector B(std::move(A))] returns normally,
    leaves the heap and the event log as they were (no element is
    constructed or destroyed, no block allocated or released), gives [B]
    [A]'s buffer, capacity and size, and leaves [A] with [nullptr], capacity
    0 and size 0; move assignment [B = std::move(A)] between two different
    objects does the same to [B] and [A]. *)
Theorem vector_move_transfers (s : state T) a b va vb :
  objs s !! a = Some va ->
  vec_move a s = Ok (mk_vec (mk_raw (buffer (data va)) (capacity (data va))) (size va))
                    (mk_state (heap s) (<[a := mk_vec (mk_raw None 0) 0]> (objs s)) (log s) (tick s)) /\
  (a <> b -> objs s !! b = Some vb ->
   move_assign b a s =
   Ok tt (mk_state (heap s)
            (<[b := mk_vec (mk_raw (buffer (data va)) (capacity (data va))) (size va)]>
              (<[a := mk_vec (mk_raw None 0) 0]> (objs s))) (log s) (tick s))).
Proof.
  intros Ha. assert (Hal : a < length (objs s)) by (eapply lookup_lt_Some; eauto). split.
  - unfold vec_move. do 3 obj_step. rewrite ret_run. rewrite list_insert_insert_eq. reflexivity.
  - intros Hab Hb. assert (Hbl : b < length (objs s)) by (eapply lookup_lt_Some; eauto).
    unfold move_assign. do 10 obj_step.
    erewrite set_size_run by obj_lookup. cbn [heap objs log tick data size].
    do 2 f_equal. apply list_eq. intros j.
    destruct (decide (j = b)) as [->|]; [|destruct (decide (j = a)) as [->|]];
      repeat first [ rewrite list_lookup_insert_ne by congruence
                   | rewrite list_lookup_insert_eq by (rewrite ?length_insert; lia) ];
      reflexivity.
Qed.

(** Claim C9 (amended): [operator[]] with [index >= size_] and
    [RawMemory::operator+] with [offset > capacity_] fail their [assert];
    [PopBack] on an empty vector is not checked and is undefined behaviour;
    on a well-formed vector with [size_ > 0], [PopBack] destroys exactly the
    last element, at slot [size_ - 1], and decrements [size_]. *)
Theorem precondition_checks :
  (forall (s : state T) this self index,
     objs s !! this = Some self -> size self <= index -> vec_index this index s = AssertFail) /\
  (forall (s : state T) r offset, capacity r < offset -> raw_plus r offset s = AssertFail) /\
  (forall (s : state T) this self,
     objs s !! this = Some self -> size self = 0 -> PopBack this s = UB) /\
  (forall (s : state T) this self,
     objs s !! this = Some self -> vec_wf s self = true -> 0 < size self ->
     exists b l, buffer (data self) = Some b /\ heap s !! b = Some (mk_block true l) /\
       PopBack this s =
       Ok tt (mk_state (<[b := mk_block true (<[size self - 1 := None]> l)]> (heap s))
                       (<[this := mk_vec (data self) (size self - 1)]> (objs s))
                       (log s ++ [EDestroy (mk_ptr (Some b) (size self - 1))]) (tick s))).
Proof.
  split; [|split; [|split]].
  - intros s this self index Hself Hi. unfold vec_index.
    rewrite (bind_ok _ _ _ _ _ (get_obj_run s this self Hself)).
    now rewrite (proj2 (Nat.ltb_ge _ _) Hi).
  - intros s r offset Ho. unfold raw_plus. now rewrite (proj2 (Nat.leb_gt _ _) Ho).
  - intros s this self Hself H0. unfold PopBack.
    rewrite (bind_ok _ _ _ _ _ (get_obj_run s this self Hself)).
    now rewrite H0.
  - intros s this self Hself Hwf Hpos.
    destruct (buffer (data self)) as [b|] eqn:Hbuf.
    2:{ destruct (vec_wf_null s self Hwf Hbuf). lia. }
    destruct (vec_wf_block s self b Hwf Hbuf) as (l & Hb & _ & _ & Hlive & _).
    destruct (Hlive (size self - 1)) as [x Hx]; [lia|].
    exists b, l. split; [reflexivity|]. split; [exact Hb|].
    unfold PopBack. rewrite (bind_ok _ _ _ _ _ (get_obj_run s this self Hself)).
    rewrite (proj2 (Nat.eqb_neq _ _)) by lia.
    unfold GetAddress, ptr_add. rewrite Hbuf. cbn [pblk poff Nat.add].
    rewrite (bind_ok _ _ _ _ _ (destroy_at_run s b l _ x Hb Hx)).
    erewrite set_size_run by obj_lookup. reflexivity.
Qed.

End Simple.

(** Witness for C7: [[5; 6]] moved out of object 0, into a new object and
    into object 1. *)
Lemma vector_move_transfers_witness :
  objs two_state !! 0 = Some full2_vec /\
  vec_move 0 two_state =
    Ok full2_vec (mk_state (heap two_state) [empty_vec; empty_vec] [] 0) /\
  move_assign 1 0 two_state =
    Ok tt (mk_state (heap two_state) [empty_vec; full2_vec] [] 0).
Proof.
  split; [reflexivity|].
  destruct (vector_move_transfers two_state 0 1 full2_vec empty_vec eq_refl) as [H1 H2].
  split; [exact H1|]. exact (H2 ltac:(discriminate) eq_refl).
Defined.

(** Witness for C9: each part at a concrete vector. *)
Lemma precondition_checks_witness :
  vec_index 0 2 full2_state = AssertFail /\
  raw_plus (mk_raw (Some 0) 2) 3 full2_state = AssertFail /\
  PopBack 0 one_empty_state = UB /\
  PopBack 0 full2_state =
    Ok tt (mk_state [mk_block true [Some 5; None]] [mk_vec (mk_raw (Some 0) 2) 1]
                    [EDestroy (mk_ptr (Some 0) 1)] 0).
Proof.
  destruct (@precondition_checks nat) as (H1 & H2 & H3 & H4).
  split; [exact (H1 full2_state 0 full2_vec 2 eq_refl ltac:(cbn; lia))|].
  split; [exact (H2 full2_state (mk_raw (Some 0) 2) 3 ltac:(cbn; lia))|].
  split; [exact (H3 one_empty_state 0 empty_vec eq_refl eq_refl)|].
  destruct (H4 full2_state 0 full2_vec eq_refl ltac:(vm_compute; reflexivity) ltac:(cbn; lia))
    as (b & l & Hb & Hl & H).
  rewrite H. cbn in Hb. injection Hb as <-. cbn in Hl. injection Hl as <-. reflexivity.
Defined.

(** Counterexample to C9 as stated: [PopBack] on an empty vector trips no
    [assert]; it is undefined behaviour. *)
Lemma precondition_checks_counterexample : PopBack 0 one_empty_state = UB /\ UB <> (@AssertFail nat unit).
Proof. split; [reflexivity | discriminate]. Qed.

Section C8.
Context {T : Type} (tr : traits T).

(** Claim C8: on a well-formed vector holding [vs], [Erase] at a position
    [p < size_] move-assigns each element of [(p, size_)] one slot to the
    left, destroys the last slot and decrements [size_]: when no move
    assignment throws, the slots [[0, size_ - 1)] then hold [vs] without its
    element at [p], in order, and slot [size_ - 1] is raw again; if [T]'s
    move assignment is not [noexcept], one of them may throw instead. *)
Theorem erase_removes s this self p :
  objs s !! this = Some self -> vec_wf s self = true -> p < size self ->
  exists b l vs,
    buffer (data self) = Some b /\ heap s !! b = Some (mk_block true l) /\
    length vs = size self /\ (forall j v, vs !! j = Some v -> l !! j = Some (Some v)) /\
    match (if nothrow_move_assign tr then None else first_throw tr (tick s) (size self - S p)) with
    | None =>
        Erase tr this p s =
        Ok (mk_ptr (Some b) p)
           (mk_state (<[b := mk_block true (list_inserts 0 (map Some (delete p vs) ++ [None]) l)]> (heap s))
                     (<[this := mk_vec (data self) (size self - 1)]> (objs s))
                     (log s ++ ev_assigns (mk_ptr (Some b) p) (size self - S p)
                            ++ [EDestroy (mk_ptr (Some b) (size self - 1))])
                     (tick s + assign_ticks tr (size self - S p)))
    | Some _ => exists s', Erase tr this p s = Exn s'
    end.
Proof.
  intros Hself Hwf Hp.
  destruct (buffer (data self)) as [b|] eqn:Hbuf.
  2:{ destruct (vec_wf_null s self Hwf Hbuf). lia. }
  destruct (vec_wf_block s self b Hwf Hbuf) as (l & Hb & Hlen & Hsz & Hlive & _).
  destruct (live_values l (size self) Hlive) as (vs & Hvs & Hsrc).
  exists b, l, vs. do 4 (split; [assumption || reflexivity|]).
  destruct (lookup_lt_is_Some_2 vs p ltac:(lia)) as [x0 Hx0].
  set (ws := drop (S p) vs).
  assert (Hws_len : length ws = size self - S p) by (unfold ws; rewrite length_drop; lia).
  assert (Hws : forall j w, ws !! j = Some w -> l !! (S p + j) = Some (Some w)).
  { intros j w Hj. unfold ws in Hj. rewrite lookup_drop in Hj. auto. }
  pose proof (std_move_run tr s b l p x0 ws Hb (Hsrc p x0 Hx0) Hws) as Hm.
  rewrite Hws_len in Hm.
  assert (Hptrs : std_move tr (ptr_add (vbegin self) (p + 1)) (vend self) (ptr_add (vbegin self) p)
                = std_move tr (mk_ptr (Some b) (S p)) (mk_ptr (Some b) (S p + (size self - S p)))
                              (mk_ptr (Some b) p)).
  { unfold vbegin, vend, GetAddress, ptr_add. rewrite Hbuf. cbn [pblk poff].
    replace (0 + (p + 1)) with (S p) by lia. replace (0 + p) with p by lia.
    now replace (0 + size self) with (S p + (size self - S p)) by lia. }
  unfold Erase. rewrite (bind_ok _ _ _ _ _ (get_obj_run s this self Hself)), Hptrs.
  destruct (if nothrow_move_assign tr then None else first_throw tr (tick s) (size self - S p)).
  - destruct Hm as [s' Hm]. exists s'. now apply bind_exn.
  - destruct Hm as [y Hm]. rewrite (bind_ok _ _ _ _ _ Hm).
    set (Z := list_inserts p (map Some ws) l).
    assert (HZ : list_inserts p (map Some ws ++ [Some y]) l = <[size self - 1 := Some y]> Z).
    { unfold Z. rewrite inserts_snoc, length_map, Hws_len. f_equal. lia. }
    assert (Hlast : list_inserts p (map Some ws ++ [Some y]) l !! (size self - 1) = Some (Some y)).
    { rewrite HZ. apply list_lookup_insert_eq. unfold Z. rewrite length_inserts. lia. }
    unfold vend, GetAddress, ptr_sub, ptr_add. rewrite Hbuf. cbn [pblk poff Nat.add].
    assert (Hb' : <[b := mk_block true (list_inserts p (map Some ws ++ [Some y]) l)]> (heap s) !! b
                  = Some (mk_block true (list_inserts p (map Some ws ++ [Some y]) l))).
    { heap_simpl. reflexivity. }
    rewrite (bind_ok _ _ _ _ _ (destroy_at_run (mk_state _ (objs s) _ _) b _ _ _ Hb' Hlast)).
    erewrite bind_ok by (apply (set_size_run _ this self); exact Hself).
    rewrite ret_run. cbn [heap objs log tick]. heap_simpl.
    rewrite <- !app_assoc.
    assert (Hlist : <[size self - 1 := None]> (list_inserts p (map Some ws ++ [Some y]) l)
                    = list_inserts 0 (map Some (delete p vs) ++ [None]) l).
    { rewrite HZ, list_insert_insert_eq.
      rewrite delete_take_drop, map_app, <- app_assoc, list_inserts_app_l.
      rewrite (inserts_id 0 (map Some (take p vs)) l).
      - fold ws. rewrite inserts_snoc, length_map, length_map, length_take, Hws_len.
        unfold Z. replace (Nat.min p (length vs) + 0) with p by lia. f_equal. lia.
      - intros j o Hj. rewrite lookup_map_eq in Hj.
        destruct (take p vs !! j) as [v|] eqn:Hv; [|discriminate]. injection Hj as <-.
        apply Hsrc. rewrite lookup_take_lt in Hv; [exact Hv|].
        apply lookup_lt_Some in Hv. rewrite length_take in Hv. lia. }
    rewrite Hlist. unfold vbegin, GetAddress. rewrite Hbuf. reflexivity.
Qed.

End C8.

(** Witness for C8: erasing the first element of [[5; 6]]. *)
Lemma erase_removes_witness :
  Erase int_tr 0 0 full2_state =
  Ok (mk_ptr (Some 0) 0)
     (mk_state [mk_block true [Some 6; None]] [mk_vec (mk_raw (Some 0) 2) 1]
               [EAssign (mk_ptr (Some 0) 0) MoveA; EDestroy (mk_ptr (Some 0) 1)] 0).
Proof.
  destruct (erase_removes int_tr full2_state 0 full2_vec 0 eq_refl
              ltac:(vm_compute; reflexivity) ltac:(cbn; lia))
    as (b & l & vs & Hb & Hl & Hvs & Hsrc & H).
  cbn in Hb. injection Hb as <-. cbn in Hl. injection Hl as <-.
  destruct vs as [|v0 [|v1 [|v2 vs]]]; cbn in Hvs; try discriminate.
  pose proof (Hsrc 0 v0 eq_refl) as H0. pose proof (Hsrc 1 v1 eq_refl) as H1.
  cbn in H0, H1. injection H0 as <-. injection H1 as <-.
  rewrite H. reflexivity.
Defined.

Section C4.
Context {T : Type} (tr : traits T).

(** C4: every insertion ([PushBack], [EmplaceBack], [Emplace], [Insert])
    into a vector [self] allocates exactly one block, of
    [max(1, 2 * capacity)] slots, when [size self = capacity], and allocates
    nothing otherwise; this holds whether the call returns or throws, except
    that when [operator new] itself throws [std::bad_alloc] no block is
    allocated. When
    it returns, the vector owns that new block (the block numbered
    [length (heap s)]) with the new capacity, or keeps its buffer when it
    did not grow, and its size is one more. *)
Theorem insert_growth_policy op this value s self :
  objs s !! this = Some self ->
  (forall s', insert_op tr op this value s = Exn s' ->
     exists es, log s' = log s ++ es /\
       allocs es = (if size self =? capacity (data self)
                    then (if new_fails tr (length (heap s))
                               (alloc_bytes tr (Nat.max 1 (2 * capacity (data self))))
                          then [] else [Nat.max 1 (2 * capacity (data self))])
                    else [])) /\
  (forall s', insert_op tr op this value s = Ok tt s' ->
     exists es self', log s' = log s ++ es /\
       allocs es = (if size self =? capacity (data self)
                    then [Nat.max 1 (2 * capacity (data self))] else []) /\
       objs s' !! this = Some self' /\ size self' = S (size self) /\
       data self' = (if size self =? capacity (data self)
                     then mk_raw (Some (length (heap s))) (Nat.max 1 (2 * capacity (data self)))
                     else data self)).
Proof.
  intros Hself. destruct op as [o|offset k]; cbn [insert_op].
  - destruct (push_back_growth tr o this value s self Hself) as [He Hok]. split; [exact He|].
    intros s' H. destruct (Hok _ H) as [(es & Hl & Ha) Hobj]. eauto 8.
  - destruct (emplace_growth tr this offset k (AVal value) s self Hself) as [He Hok]. split.
    + intros s' H. apply bind_exn_inv in H as [H|(p & s1 & _ & H)]; [exact (He _ H)|discriminate].
    + intros s' H. apply bind_ok_inv in H as (p & s1 & H & H'). injection H' as <-.
      destruct (Hok _ _ H) as [(es & Hl & Ha) Hobj]. eauto 8.
Qed.

End C4.

Lemma insert_growth_policy_witness :
  objs full2_state !! 0 = Some full2_vec /\
  (exists s', insert_op int_tr (IPush PushCopy) 0 7 full2_state = Ok tt s') /\
  forall s', insert_op int_tr (IPush PushCopy) 0 7 full2_state = Ok tt s' ->
    exists es self', log s' = log full2_state ++ es /\ allocs es = [4] /\
      objs s' !! 0 = Some self' /\ size self' = 3 /\ data self' = mk_raw (Some 1) 4.
Proof.
  split; [reflexivity|]. split; [eexists; vm_compute; reflexivity|].
  apply (insert_growth_policy int_tr (IPush PushCopy) 0 7 full2_state full2_vec).
  reflexivity.
Defined.

Section C6.
Context {T : Type} (tr : traits T).

Lemma reuse_final (s : state T) this rhs self r vs b0 blk lg t :
  objs s !! this = Some self -> objs s !! rhs = Some r -> this <> rhs ->
  buffer (data self) = Some b0 -> heap s !! b0 = Some blk -> buffer (data r) <> Some b0 ->
  vec_wf s r = true -> vec_slots s r = map Some vs -> length vs = size r ->
  size r <= capacity (data self) ->
  let s' := mk_state (<[b0 := mk_block true (map Some vs ++ replicate (capacity (data self) - size r) None)]>
                        (heap s))
                     (<[this := mk_vec (data self) (size r)]> (objs s)) lg t in
  objs s' !! this = Some (mk_vec (data self) (size r)) /\
  vec_wf s' (mk_vec (data self) (size r)) = true /\
  vec_slots s' (mk_vec (data self) (size r)) = map Some vs /\
  objs s' !! rhs = Some r /\ vec_wf s' r = true /\ vec_slots s' r = map Some vs.
Proof.
  intros Hself Hr Hne Hb0 Hblk Hrb Hwfr Hsl Hlen Hc s'.
  assert (Hb0l : b0 < length (heap s)) by (eapply lookup_lt_Some; eauto).
  assert (Hthis : objs s' !! this = Some (mk_vec (data self) (size r))).
  { unfold s'; cbn [objs]. apply list_lookup_insert_eq. eapply lookup_lt_Some; eauto. }
  destruct (vec_wf_shape s' (mk_vec (data self) (size r)) b0 vs (capacity (data self) - size r))
    as [Hw1 Hw2]; cbn [data size]; auto; try lia.
  { unfold s'; cbn [heap]. now apply list_lookup_insert_eq. }
  destruct (vec_wf_heap_eq s s' r) as [Hr1 Hr2].
  { intros b Hb. unfold s'; cbn [heap]. apply list_lookup_insert_ne. congruence. }
  repeat split; auto.
  - unfold s'; cbn [objs]. rewrite list_lookup_insert_ne by congruence. exact Hr.
  - now rewrite Hr1.
  - now rewrite Hr2.
Qed.

Lemma copy_n_0 p q s : copy_n tr p 0 q s = Ok tt s.
Proof. reflexivity. Qed.

Lemma uninitialized_copy_n_0 p q s : uninitialized_copy_n tr p 0 q s = Ok tt s.
Proof. reflexivity. Qed.

Lemma copy_n_0' p n q s : 0 = n -> copy_n tr p n q s = Ok tt s.
Proof. now intros <-. Qed.

Lemma uninitialized_copy_n_0' p n q s : 0 = n -> uninitialized_copy_n tr p n q s = Ok tt s.
Proof. now intros <-. Qed.

(** C6: copy assignment [*this = rhs] between distinct vectors, where
    [rhs] holds the elements [vs] (and the two buffers are distinct). When no
    element copy throws, the destination ends with size [size rhs] and slots
    [vs] in order, and [rhs] is unchanged. When [size rhs > capacity], a fresh
    block of [size rhs] slots is built by copy construction and swapped in
    (the old elements are then destroyed and the old buffer freed); otherwise
    the buffer is kept, the common prefix is copy-assigned, and the surplus
    is destroyed (shrinking) or the extra elements are copy-constructed
    (growing within capacity), as the event log shows. When a copy throws on
    the copy-and-swap path, no object changes and the only heap change is a
    new, already freed block: [*this] is untouched. The copy-and-swap path
    first allocates the block of the temporary [Vector rhs_copy(rhs)]: when
    [operator new] throws [std::bad_alloc] there, nothing at all changes.
    The byte count [size rhs * sizeof(T)] of that block does not wrap (it is
    the size of the elements [rhs] already holds). *)
Theorem copy_assign_spec this rhs s self r vs :
  this <> rhs -> objs s !! this = Some self -> objs s !! rhs = Some r ->
  vec_wf s self = true -> vec_wf s r = true -> vec_slots s r = map Some vs ->
  (forall b, buffer (data self) = Some b -> buffer (data r) <> Some b) ->
  fits tr (size r) = true ->
  if (capacity (data self) <? size r) && new_fails tr (length (heap s)) (alloc_bytes tr (size r))
  then copy_assign tr this rhs s = Exn s
  else
  match first_throw tr (tick s) (size r) with
  | None =>
      exists s' self', copy_assign tr this rhs s = Ok tt s' /\
        objs s' !! this = Some self' /\ size self' = size r /\
        vec_wf s' self' = true /\ vec_slots s' self' = map Some vs /\
        data self' = (if capacity (data self) <? size r
                      then mk_raw (Some (length (heap s))) (size r) else data self) /\
        objs s' !! rhs = Some r /\ vec_wf s' r = true /\ vec_slots s' r = map Some vs /\
        log s' = log s ++
          (if capacity (data self) <? size r then
             [EAlloc (length (heap s)) (size r)]
             ++ ev_constructs (mk_ptr (Some (length (heap s))) 0) CopyC (size r)
             ++ ev_destroys (vbegin self) (size self)
             ++ (match buffer (data self) with Some b => [EDealloc b] | None => [] end)
           else
             ev_copy_assigns (vbegin self) (Nat.min (size r) (size self))
             ++ (if size r <? size self
                 then ev_destroys (ptr_add (vbegin self) (size r)) (size self - size r)
                 else ev_constructs (ptr_add (vbegin self) (size self)) CopyC (size r - size self)))
  | Some _ =>
      exists s', copy_assign tr this rhs s = Exn s' /\
        (capacity (data self) < size r ->
         objs s' = objs s /\ exists L, heap s' = heap s ++ [mk_block false L])
  end.
Proof.
  intros Hne Hself Hr Hwfs Hwfr Hsl Hsep Hfit.
  destruct (slots_values _ _ _ Hwfr Hsl) as [Hlen Hrb].
  assert (Hthis_l : this < length (objs s)) by (eapply lookup_lt_Some; eauto).
  assert (Hrhs_l : rhs < length (objs s)) by (eapply lookup_lt_Some; eauto).
  unfold copy_assign. rewrite (proj2 (Nat.eqb_neq _ _) Hne).
  rewrite (bind_ok _ _ _ _ _ (get_obj_run _ _ _ Hself)), (bind_ok _ _ _ _ _ (get_obj_run _ _ _ Hr)).
  destruct (capacity (data self) <? size r) eqn:Hc.
  - (* rhs does not fit: copy and swap *)
    apply Nat.ltb_lt in Hc. cbn [andb].
    destruct Hrb as [[_ Hr0]|(b & l & Hb & Hh & Hv)]; [lia|].
    unfold declare.
    destruct (new_fails tr (length (heap s)) (alloc_bytes tr (size r))) eqn:Hf.
    { apply bind_exn. apply bind_exn. exact (vec_copy_fail tr s rhs r Hr ltac:(lia) Hf). }
    pose proof (vec_copy_run tr s rhs r vs b l Hr Hb Hh Hv Hlen ltac:(lia) Hf Hfit) as Hcopy.
    destruct (first_throw tr (tick s) (size r)) as [k|] eqn:Hft.
    + eexists. split.
      * apply bind_exn. apply bind_exn. exact Hcopy.
      * intros _. cbn [objs heap]. split; [reflexivity|]. eauto.
    + erewrite bind_ok by (rewrite (bind_ok _ _ _ _ _ Hcopy); reflexivity).
      set (nb := length (heap s)) in *.
      set (nv := mk_vec (mk_raw (Some nb) (size r)) (size r)).
      assert (Hl1 : (objs s ++ [nv]) !! this = Some self) by (rewrite lookup_app_l; auto).
      assert (Hl2 : (objs s ++ [nv]) !! rhs = Some r) by (rewrite lookup_app_l; auto).
      assert (Hl3 : (objs s ++ [nv]) !! length (objs s) = Some nv)
        by (rewrite lookup_app_r, Nat.sub_diag by lia; reflexivity).
      assert (Hn1 : this <> length (objs s)) by lia.
      assert (Hn2 : rhs <> length (objs s)) by lia.
      assert (Hbnb : b <> nb) by (apply lookup_lt_Some in Hh; unfold nb; lia).
      cbn [objs]. unfold Swap. do 6 (rewrite ?bind_assoc; obj_step). unfold vec_dtor. obj_step.
      assert (Hnbh : forall h, (heap s ++ [mk_block true (map Some vs)]) !! nb = Some h ->
                               h = mk_block true (map Some vs)).
      { intros h. unfold nb. rewrite lookup_app_r, Nat.sub_diag by lia. cbn. congruence. }
      assert (Hold : forall b', b' < nb -> (heap s ++ [mk_block true (map Some vs)]) !! b' = heap s !! b')
        by (intros; apply lookup_app_l; lia).
      assert (Hnew : (heap s ++ [mk_block true (map Some vs)]) !! nb = Some (mk_block true (map Some vs)))
        by (unfold nb; rewrite lookup_app_r, Nat.sub_diag by lia; reflexivity).
      assert (Hbl : b < nb) by (apply lookup_lt_Some in Hh; exact Hh).
      unfold vbegin, GetAddress; cbn [data].
      destruct (buffer (data self)) as [b0|] eqn:Hb0.
      * destruct (vec_wf_block _ _ _ Hwfs Hb0) as (l0 & Hh0 & Hlen0 & Hsz0 & Hlive0 & Hraw0).
        assert (Hb0l : b0 < nb) by (apply lookup_lt_Some in Hh0; exact Hh0).
        assert (Hbb0 : b <> b0) by (intros ->; exact (Hsep b0 eq_refl Hb)).
        erewrite bind_ok
          by (apply destroy_n_run; [cbn [heap]; rewrite Hold by lia; exact Hh0 | exact Hlive0]).
        unfold raw_dtor; rewrite Hb0.
        rewrite Deallocate_run with (l := list_inserts 0 (replicate (size self) None) l0)
          by (cbn [heap]; apply list_lookup_insert_eq; rewrite length_app; cbn; lia).
        eexists. exists nv. cbn [heap objs log tick].
        split; [reflexivity|]. split; [obj_lookup|]. split; [reflexivity|].
        match goal with |- vec_wf ?st _ = true /\ _ =>
          destruct (vec_wf_shape st nv nb vs 0 eq_refl ltac:(cbn; lia) ltac:(cbn; lia)) as [Hw1 Hw2];
          [cbn [heap]; rewrite !list_lookup_insert_ne by lia; rewrite Hnew, app_nil_r; reflexivity|]
        end.
        split; [exact Hw1|]. split; [exact Hw2|]. split; [reflexivity|]. split; [obj_lookup|].
        match goal with |- vec_wf ?st _ = true /\ _ =>
          destruct (vec_wf_heap_eq s st r) as [Hr1 Hr2]
        end.
        { intros b' Hb'. rewrite Hb in Hb'. injection Hb' as <-. cbn [heap].
          rewrite !list_lookup_insert_ne by lia. apply Hold. lia. }
        rewrite Hr1, Hr2. split; [exact Hwfr|]. split; [exact Hsl|].
        now rewrite <- !app_assoc.
      * destruct (vec_wf_null _ _ Hwfs Hb0) as [Hc0 Hs0]. rewrite Hs0.
        rewrite (bind_ok _ _ _ _ _ (destroy_n_0 _ _)). unfold raw_dtor, Deallocate; rewrite Hb0.
        eexists. exists nv. cbn [heap objs log tick].
        split; [reflexivity|]. split; [obj_lookup|]. split; [reflexivity|].
        match goal with |- vec_wf ?st _ = true /\ _ =>
          destruct (vec_wf_shape st nv nb vs 0 eq_refl ltac:(cbn; lia) ltac:(cbn; lia)) as [Hw1 Hw2];
          [cbn [heap]; rewrite Hnew, app_nil_r; reflexivity|]
        end.
        split; [exact Hw1|]. split; [exact Hw2|]. split; [reflexivity|]. split; [obj_lookup|].
        match goal with |- vec_wf ?st _ = true /\ _ =>
          destruct (vec_wf_heap_eq s st r) as [Hr1 Hr2]
        end.
        { intros b' Hb'. rewrite Hb in Hb'. injection Hb' as <-. cbn [heap]. apply Hold. lia. }
        rewrite Hr1, Hr2. split; [exact Hwfr|]. split; [exact Hsl|].
        cbn [log ev_destroys seq map]. now rewrite !app_nil_r.
  - (* rhs fits: reuse the buffer *)
    cbn [andb].
    apply Nat.ltb_ge in Hc.
    destruct (buffer (data self)) as [b0|] eqn:Hb0.
    2:{ (* no buffer: both vectors are empty *)
      destruct (vec_wf_null _ _ Hwfs Hb0) as [Hc0 Hs0].
      destruct r as [dr sr]; cbn [size data] in *.
      destruct vs; cbn [length] in Hlen; [|lia]. subst sr. cbn [first_throw].
      rewrite Hs0. cbn [Nat.ltb Nat.leb].
      rewrite (bind_ok _ _ _ _ _ (copy_n_0 _ _ _)), (bind_ok _ _ _ _ _ (uninitialized_copy_n_0 _ _ _)).
      erewrite set_size_run by obj_lookup.
      eexists. exists (mk_vec (data self) 0). split; [reflexivity|]. cbn [objs heap log tick].
      split; [obj_lookup|]. split; [reflexivity|].
      split; [unfold vec_wf; cbn [data size]; rewrite Hb0, Hc0; reflexivity|].
      split; [unfold vec_slots; cbn [data size]; rewrite Hb0; reflexivity|].
      split; [reflexivity|]. split; [obj_lookup|].
      match goal with |- vec_wf ?st _ = true /\ _ =>
        destruct (vec_wf_heap_eq s st (mk_vec dr 0)) as [Hr1 Hr2]; [reflexivity|]
      end.
      rewrite Hr1, Hr2. repeat split; auto. cbn. now rewrite app_nil_r. }
    destruct (vec_wf_block _ _ _ Hwfs Hb0) as (l0 & Hh0 & Hlen0 & Hsz0 & Hlive0 & Hraw0).
    assert (Hrb0 : buffer (data r) <> Some b0) by exact (Hsep b0 eq_refl).
    unfold vbegin, GetAddress. rewrite Hb0.
    assert (Hb0l : b0 < length (heap s)) by (eapply lookup_lt_Some; eauto).
    destruct (Nat.eq_dec (size r) 0) as [Hr0|Hr0].
    + (* empty source *)
      destruct vs; cbn [length] in Hlen; [|lia].
      replace (first_throw tr (tick s) (size r)) with (@None nat) by (rewrite <- Hlen; reflexivity).
      destruct (size r <? size self) eqn:Hs.
      * apply Nat.ltb_lt in Hs.
        rewrite (bind_ok _ _ _ _ _ (copy_n_0' _ _ _ _ Hlen)). unfold ptr_add at 1; cbn [pblk poff Nat.add].
        erewrite bind_ok by (apply destroy_n_run; [exact Hh0|intros j Hj; apply Hlive0; lia]).
        erewrite set_size_run by obj_lookup.
        assert (HL : list_inserts (size r) (replicate (size self - size r) None) l0
                     = map Some [] ++ replicate (capacity (data self) - size r) None).
        { apply shape_eq; cbn [length].
          - rewrite length_inserts. lia.
          - intros j w Hj. rewrite lookup_nil in Hj. discriminate.
          - intros j Hj. destruct (decide (j < size self)).
            + rewrite list_lookup_inserts by (rewrite ?length_replicate; lia).
              apply lookup_replicate_2. lia.
            + rewrite list_lookup_inserts_ge by (rewrite length_replicate; lia). apply Hraw0. lia. }
        eexists. exists (mk_vec (data self) (size r)). split; [reflexivity|].
        rewrite HL.
        match goal with |- objs ?st !! _ = _ /\ _ =>
          pose proof (reuse_final s this rhs self r [] b0 _ (log st) (tick st)
                        Hself Hr Hne Hb0 Hh0 Hrb0 Hwfr Hsl Hlen ltac:(lia)) as HF
        end.
        cbv zeta in HF. destruct HF as (F1 & F2 & F3 & F4 & F5 & F6).
        repeat split; auto.
        cbn [log]. rewrite <- Hlen. cbn [Nat.min ev_copy_assigns seq map app]. unfold ptr_add; cbn [pblk poff Nat.add]. reflexivity.
      * apply Nat.ltb_ge in Hs.
        rewrite (bind_ok _ _ _ _ _ (copy_n_0' _ (size self) _ _ ltac:(lia))).
        rewrite (bind_ok _ _ _ _ _ (uninitialized_copy_n_0' _ (size r - size self) _ _ ltac:(lia))).
        erewrite set_size_run by obj_lookup.
        eexists. exists (mk_vec (data self) (size r)). split; [reflexivity|].
        cbn [heap objs log tick].
        assert (Hself0 : mk_vec (data self) (size r) = self) by (destruct self; cbn in *; f_equal; lia).
        rewrite Hself0.
        split; [obj_lookup|]. split; [lia|].
        match goal with |- vec_wf ?st _ = true /\ _ =>
          destruct (vec_wf_heap_eq s st self) as [Hs1 Hs2]; [reflexivity|];
          destruct (vec_wf_heap_eq s st r) as [Hr1 Hr2]; [reflexivity|]
        end.
        rewrite Hs1, Hs2, Hr1, Hr2.
        split; [exact Hwfs|]. split.
        { unfold vec_slots. rewrite Hb0, Hh0. cbn. replace (size self) with 0 by lia. reflexivity. }
        split; [reflexivity|]. split; [obj_lookup|].
        repeat split; auto. replace (size self) with 0 by lia. rewrite <- Hlen.
        cbn. now rewrite !app_nil_r.
    + destruct Hrb as [[_ Hr0']|(br & lr & Hbr & Hhr & Hv)]; [lia|].
      assert (Hbrb0 : br <> b0) by congruence.
      rewrite Hbr. rewrite <- Hlen in *.
      destruct (length vs <? size self) eqn:Hs.
      * (* shrink: assign the prefix, destroy the tail *)
        apply Nat.ltb_lt in Hs.
        pose proof (copy_n_run tr s br lr 0 b0 l0 0 vs Hbrb0 Hhr Hh0 Hv
                      ltac:(intros j Hj; apply Hlive0; lia)) as Hcp.
        destruct (first_throw tr (tick s) (length vs)) as [k|] eqn:Hft.
        { eexists. split; [apply bind_exn; exact Hcp|lia]. }
        rewrite (bind_ok _ _ _ _ _ Hcp). unfold ptr_add; cbn [pblk poff Nat.add].
        erewrite bind_ok by (apply destroy_n_run;
          [cbn [heap]; apply list_lookup_insert_eq; exact Hb0l
          |intros j Hj; rewrite list_lookup_inserts_ge by (rewrite length_map; lia);
           apply Hlive0; lia]).
        erewrite set_size_run by obj_lookup.
        assert (HL : list_inserts (length vs) (replicate (size self - length vs) None)
                       (list_inserts 0 (map Some vs) l0)
                     = map Some vs ++ replicate (capacity (data self) - length vs) None).
        { apply shape_eq.
          - rewrite !length_inserts. lia.
          - intros j w Hj. pose proof (lookup_lt_Some _ _ _ Hj).
            rewrite list_lookup_inserts_lt by lia.
            rewrite list_lookup_inserts by (rewrite ?length_map; lia).
            rewrite Nat.sub_0_r, lookup_map_eq, Hj. reflexivity.
          - intros j Hj. destruct (decide (j < size self)).
            + rewrite list_lookup_inserts by (rewrite ?length_replicate, ?length_inserts; lia).
              apply lookup_replicate_2. lia.
            + rewrite list_lookup_inserts_ge by (rewrite length_replicate; lia).
              rewrite list_lookup_inserts_ge by (rewrite length_map; lia). apply Hraw0. lia. }
        eexists. exists (mk_vec (data self) (length vs)). split; [reflexivity|].
        cbn [heap]. rewrite list_insert_insert_eq, HL.
        match goal with |- objs ?st !! _ = _ /\ _ =>
          pose proof (reuse_final s this rhs self r vs b0 _ (log st) (tick st)
                        Hself Hr Hne Hb0 Hh0 Hrb0 Hwfr Hsl Hlen ltac:(lia)) as HF
        end.
        rewrite <- Hlen in HF. cbv zeta in HF. destruct HF as (F1 & F2 & F3 & F4 & F5 & F6).
        repeat split; auto.
        cbn [log]. rewrite Nat.min_l by lia. now rewrite app_assoc.
      * (* grow in place: assign the live prefix, construct the rest *)
        apply Nat.ltb_ge in Hs.
        set (v1 := take (size self) vs). set (v2 := drop (size self) vs).
        assert (Hl1 : length v1 = size self) by (unfold v1; rewrite length_take; lia).
        assert (Hl2 : length v2 = length vs - size self) by (unfold v2; rewrite length_drop; lia).
        pose proof (copy_n_run tr s br lr 0 b0 l0 0 v1 Hbrb0 Hhr Hh0
                      ltac:(intros j w Hj; apply lookup_take_Some in Hj as [Hj _]; apply Hv; exact Hj)
                      ltac:(intros j Hj; apply Hlive0; unfold v1 in Hj; rewrite length_take in Hj; lia))
          as Hcp.
        rewrite Hl1 in Hcp.
        replace (first_throw tr (tick s) (length vs))
          with (first_throw tr (tick s) (size self + (length vs - size self))) by (f_equal; lia).
        rewrite first_throw_add.
        destruct (first_throw tr (tick s) (size self)) as [k|] eqn:Hft1.
        { eexists. split; [apply bind_exn; exact Hcp|lia]. }
        rewrite (bind_ok _ _ _ _ _ Hcp). unfold ptr_add; cbn [pblk poff Nat.add].
        pose proof (uninitialized_copy_n_run tr
                      (mk_state (<[b0 := mk_block true (list_inserts 0 (map Some v1) l0)]> (heap s)) (objs s)
                         (log s ++ ev_copy_assigns (mk_ptr (Some b0) 0) (size self)) (tick s + size self))
                      br lr (size self) b0 _ (size self) v2 Hbrb0
                      ltac:(cbn [heap]; rewrite list_lookup_insert_ne by congruence; exact Hhr)
                      ltac:(cbn [heap]; apply list_lookup_insert_eq; exact Hb0l)
                      ltac:(intros j w Hj; unfold v2 in Hj; rewrite lookup_drop in Hj; apply Hv; exact Hj)
                      ltac:(rewrite length_inserts; unfold v2; rewrite length_drop; lia))
          as Hucp.
        rewrite Hl2 in Hucp. cbn [tick] in Hucp.
        destruct (first_throw tr (tick s + size self) (length vs - size self)) as [k|] eqn:Hft2;
          cbn [option_map].
        { eexists. split; [apply bind_exn; exact Hucp|lia]. }
        rewrite (bind_ok _ _ _ _ _ Hucp).
        erewrite set_size_run by obj_lookup.
        assert (HL : list_inserts (size self) (map Some v2) (list_inserts 0 (map Some v1) l0)
                     = map Some vs ++ replicate (capacity (data self) - length vs) None).
        { apply shape_eq.
          - rewrite !length_inserts. lia.
          - intros j w Hj. pose proof (lookup_lt_Some _ _ _ Hj). destruct (decide (j < size self)).
            + rewrite list_lookup_inserts_lt by lia.
              rewrite list_lookup_inserts by (rewrite ?length_map, ?Hl1, ?Hl2, ?length_inserts; lia).
              rewrite Nat.sub_0_r, lookup_map_eq. unfold v1. rewrite lookup_take_lt by lia.
              rewrite Hj. reflexivity.
            + rewrite list_lookup_inserts by (rewrite ?length_map, ?Hl1, ?Hl2, ?length_inserts; lia).
              rewrite lookup_map_eq. unfold v2. rewrite lookup_drop.
              replace (size self + (j - size self)) with j by lia. rewrite Hj. reflexivity.
          - intros j Hj.
            rewrite list_lookup_inserts_ge by (rewrite length_map, ?Hl1, ?Hl2; lia).
            rewrite list_lookup_inserts_ge by (rewrite length_map, ?Hl1, ?Hl2; lia). apply Hraw0. lia. }
        eexists. exists (mk_vec (data self) (length vs)). split; [reflexivity|].
        cbn [heap]. rewrite list_insert_insert_eq, HL.
        match goal with |- objs ?st !! _ = _ /\ _ =>
          pose proof (reuse_final s this rhs self r vs b0 _ (log st) (tick st)
                        Hself Hr Hne Hb0 Hh0 Hrb0 Hwfr Hsl Hlen ltac:(lia)) as HF
        end.
        rewrite <- Hlen in HF. cbv zeta in HF. destruct HF as (F1 & F2 & F3 & F4 & F5 & F6).
        repeat split; auto.
        cbn [log]. rewrite Nat.min_r by lia. now rewrite app_assoc.
Qed.

End C6.

Lemma copy_assign_spec_witness :
  exists s' self', copy_assign int_tr 1 0 two_state = Ok tt s' /\
    objs s' !! 1 = Some self' /\ size self' = 2 /\
    vec_wf s' self' = true /\ vec_slots s' self' = [Some 5; Some 6] /\
    data self' = mk_raw (Some 1) 2 /\
    objs s' !! 0 = Some full2_vec /\ vec_slots s' full2_vec = [Some 5; Some 6] /\
    log s' = [EAlloc 1 2] ++ ev_constructs (mk_ptr (Some 1) 0) CopyC 2.
Proof.
  pose proof (copy_assign_spec int_tr 1 0 two_state empty_vec full2_vec [5; 6]
                ltac:(lia) eq_refl eq_refl eq_refl eq_refl eq_refl
                ltac:(intros b Hb; discriminate Hb) eq_refl) as H.
  destruct H as (s' & self' & Hrun & H1 & H2 & H3 & H4 & H5 & H6 & _ & H8 & H9).
  exists s', self'. repeat split; assumption.
Defined.

End Claims.

(** * Further properties of the public operations *)

Module Extra.

Section Slots.
Context {T : Type} (tr : traits T).
Implicit Types (s : state T).

Lemma map_insert_eq {A B} (f : A -> B) (l : list A) i x :
  map f (<[i := x]> l) = <[i := f x]> (map f l).
Proof. revert i. induction l as [|y l IH]; intros [|i]; cbn; f_equal; auto. Qed.

Lemma get_slot_inv s p x s1 :
  get_slot p s = Ok x s1 -> s1 = s /\
  exists b blk, pblk p = Some b /\ heap s !! b = Some blk /\ blk_live blk = true /\
    blk_slots blk !! poff p = Some x.
Proof.
  unfold get_slot. destruct (pblk p) as [b|]; [|unfold ub; discriminate].
  unfold get_block, mbind, M_bind. destruct (heap s !! b) as [blk|] eqn:Hh; [|discriminate].
  destruct (blk_live blk) eqn:Hl; [|discriminate].
  destruct (blk_slots blk !! poff p) as [y|] eqn:Hy; [|unfold ub; discriminate].
  unfold mret, M_ret. intros H. injection H as -> ->. split; [done|]. eauto 7.
Qed.

Lemma put_slot_inv s p x s1 :
  put_slot p x s = Ok tt s1 ->
  exists b blk, pblk p = Some b /\ heap s !! b = Some blk /\
    s1 = mk_state (<[b := mk_block true (<[poff p := x]> (blk_slots blk))]> (heap s))
                  (objs s) (log s) (tick s).
Proof.
  unfold put_slot. destruct (pblk p) as [b|]; [|unfold ub; discriminate].
  unfold get_block, mbind, M_bind. destruct (heap s !! b) as [blk|] eqn:Hh; [|discriminate].
  destruct (blk_live blk); [|discriminate].
  unfold put_block. intros H. injection H as <-. eauto.
Qed.

Lemma blk_lens_lookup s b : blk_lens s !! b = (fun blk => length (blk_slots blk)) <$> heap s !! b.
Proof. unfold blk_lens. apply lookup_map_eq. Qed.

(** Replacing a block by one with as many slots keeps the slot counts. *)
Lemma blk_lens_insert s b blk blk' :
  heap s !! b = Some blk -> length (blk_slots blk') = length (blk_slots blk) ->
  map (fun blk => length (blk_slots blk)) (<[b := blk']> (heap s)) = blk_lens s.
Proof.
  intros Hb Hl. rewrite map_insert_eq, Hl. apply list_insert_id.
  now rewrite blk_lens_lookup, Hb.
Qed.

Lemma lens_alloc s n m : blk_lens (alloc_state_sl s n m) !! length (heap s) = Some m.
Proof.
  rewrite blk_lens_lookup. cbn [heap alloc_state_sl].
  rewrite lookup_app_r, Nat.sub_diag by lia. cbn. now rewrite length_replicate.
Qed.

Lemma has_slot_lens s s' p : blk_lens s' = blk_lens s -> has_slot s p -> has_slot s' p.
Proof. unfold has_slot. now intros ->. Qed.

(** A slot of the fresh block of [m] slots. *)
Lemma has_slot_fresh s n m (st : state T) j :
  blk_lens st = blk_lens (alloc_state_sl s n m) ->
  has_slot st (mk_ptr (Some (length (heap s))) j) -> j < m.
Proof.
  intros Hl (b & c & Hb & Hc & Hj). cbn [pblk poff] in Hb, Hj. injection Hb as <-.
  rewrite Hl, lens_alloc in Hc. injection Hc as <-. exact Hj.
Qed.

Lemma lens_op_ret {A} (a : A) : @lens_op T A (mret a).
Proof. split; intros s; [intros a' s' H|intros s' H]; cbv in H; try discriminate. now injection H as _ <-. Qed.

Lemma lens_op_ub {A} : @lens_op T A ub.
Proof. split; intros s; [intros a s' H|intros s' H]; discriminate. Qed.

Lemma lens_op_assert_fail {A} : @lens_op T A assert_fail.
Proof. split; intros s; [intros a s' H|intros s' H]; discriminate. Qed.

Lemma lens_op_bind {A B} (m : M T A) (f : A -> M T B) :
  lens_op m -> (forall a, lens_op (f a)) -> lens_op (m ≫= f).
Proof.
  intros [Hm1 Hm2] Hf. split.
  - intros s b s' H. unfold mbind, M_bind in H.
    destruct (m s) as [a s1|s1| |] eqn:E; try discriminate.
    rewrite (proj1 (Hf a) _ _ _ H). exact (Hm1 _ _ _ E).
  - intros s s' H. unfold mbind, M_bind in H.
    destruct (m s) as [a s1|s1| |] eqn:E; try discriminate.
    + rewrite (proj2 (Hf a) _ _ H). exact (Hm1 _ _ _ E).
    + injection H as <-. exact (Hm2 _ _ E).
Qed.

Lemma lens_op_catch {A} (m : M T A) h : lens_op m -> lens_op h -> lens_op (catch_rethrow m h).
Proof.
  intros [Hm1 Hm2] [Hh1 Hh2]. split.
  - intros s a s' H. unfold catch_rethrow in H.
    destruct (m s) as [a1 s1|s1| |] eqn:E; try discriminate.
    + injection H as -> ->. exact (Hm1 _ _ _ E).
    + destruct (h s1); discriminate.
  - intros s s' H. unfold catch_rethrow in H.
    destruct (m s) as [a1 s1|s1| |] eqn:E; try discriminate.
    destruct (h s1) as [u s2|s2| |] eqn:Eh; try discriminate; injection H as <-.
    + rewrite (Hh1 _ _ _ Eh). exact (Hm2 _ _ E).
    + rewrite (Hh2 _ _ Eh). exact (Hm2 _ _ E).
Qed.

Lemma lens_op_for j n (body : nat -> M T unit) :
  (forall i, lens_op (body i)) -> lens_op (for_ j n body).
Proof.
  revert j. induction n as [|n IH]; intros j Hb; cbn; [apply lens_op_ret|].
  apply lens_op_bind; auto.
Qed.

Lemma lens_op_emit e : @lens_op T unit (emit e).
Proof. split; intros s; [intros a s' H|intros s' H]; cbv in H; try discriminate. now injection H as _ <-. Qed.

Lemma lens_op_may_throw nt : lens_op (may_throw tr nt).
Proof.
  split; intros s; [intros a s' H|intros s' H]; unfold may_throw in H; destruct nt;
    try destruct (throws_at tr (tick s)); try discriminate;
    first [injection H as _ <- | injection H as <-]; reflexivity.
Qed.

Lemma lens_op_get_block b : @lens_op T _ (get_block b).
Proof.
  split; intros s; [intros a s' H|intros s' H]; unfold get_block in H;
    destruct (heap s !! b) as [blk|]; try discriminate; destruct (blk_live blk); try discriminate.
  now injection H as _ <-.
Qed.

Lemma lens_op_get_obj i : @lens_op T _ (get_obj i).
Proof.
  split; intros s; [intros a s' H|intros s' H]; unfold get_obj in H;
    destruct (objs s !! i); try discriminate. now injection H as _ <-.
Qed.

Lemma lens_op_set_obj i v : @lens_op T _ (set_obj i v).
Proof.
  split; intros s; [intros a s' H|intros s' H]; unfold set_obj in H;
    destruct (objs s !! i); try discriminate. now injection H as _ <-.
Qed.

Lemma lens_op_put_slot p x : @lens_op T _ (put_slot p x).
Proof.
  split; intros s; [intros [] s' H|intros s' H].
  - apply put_slot_inv in H as (b & blk & _ & Hb & ->). unfold blk_lens; cbn [heap].
    apply (blk_lens_insert s b blk); [exact Hb|]. cbn. apply length_insert.
  - unfold put_slot in H. destruct (pblk p) as [b|]; [|discriminate].
    unfold get_block, mbind, M_bind in H. destruct (heap s !! b) as [blk|]; [|discriminate].
    destruct (blk_live blk); discriminate.
Qed.

Lemma lens_op_Deallocate buf : @lens_op T _ (Deallocate buf).
Proof.
  destruct buf as [b|]; [|apply lens_op_ret].
  split; intros s; [intros [] s' H|intros s' H];
    unfold Deallocate, get_block, mbind, M_bind in H;
    destruct (heap s !! b) as [blk|] eqn:Hb; try discriminate;
    destruct (blk_live blk); try discriminate.
  injection H as <-. unfold blk_lens; cbn [heap]. now apply (blk_lens_insert s b blk).
Qed.

End Slots.

Create HintDb lens_op.
#[export] Hint Resolve lens_op_ret lens_op_ub lens_op_assert_fail lens_op_may_throw lens_op_emit
  lens_op_get_block lens_op_get_obj lens_op_set_obj lens_op_put_slot lens_op_Deallocate : lens_op.

(** Split binds, handlers, loops and branches down to primitives that
    keep the number of slots of every block. *)
Ltac lens_tac :=
  repeat match goal with
  | |- lens_op (_ ≫= _) => apply lens_op_bind; [|intros ?]
  | |- lens_op (catch_rethrow _ _) => apply lens_op_catch
  | |- lens_op (for_ _ _ _) => apply lens_op_for; intros ?
  | |- lens_op (put_slot _ _) => apply lens_op_put_slot
  | |- lens_op (Deallocate _) => apply lens_op_Deallocate
  | |- lens_op (match ?x with _ => _ end) => destruct x
  | |- lens_op (if ?x then _ else _) => destruct x
  | |- lens_op _ =>
      progress unfold destroy_n, destroy_at, get_slot, read_at, construct_at,
        assign_at, leave_moved_from, make_temp, destroy_temp, construct_arg, make_temp_arg,
        uninitialized_copy_n, uninitialized_move_n, uninitialized_value_construct_n, copy_n,
        std_move, move_backward, raw_dtor, raw_plus, raw_index, TransferDataSafely,
        set_data, set_size
  end; eauto with lens_op.

Section SlotRuns.
Context {T : Type} (tr : traits T).
Implicit Types (s : state T).

(** A run that starts by reading slot [p] needs that slot. *)
Lemma get_slot_then {A} p (f : option T -> M T A) s a s' :
  (forall x, lens_op (f x)) -> (get_slot p ≫= f) s = Ok a s' ->
  has_slot s p /\ blk_lens s' = blk_lens s.
Proof.
  intros Hf H. apply bind_ok_inv in H as (x & s1 & H1 & H2).
  apply get_slot_inv in H1 as (-> & b & blk & Hp & Hb & _ & Hx).
  split; [|exact (proj1 (Hf x) _ _ _ H2)].
  exists b, (length (blk_slots blk)). split; [exact Hp|]. split.
  - now rewrite blk_lens_lookup, Hb.
  - eapply lookup_lt_Some; eauto.
Qed.

Lemma read_at_same p s v s1 : read_at p s = Ok v s1 -> s1 = s.
Proof.
  intros H. unfold read_at in H. apply bind_ok_inv in H as ([y|] & s2 & H1 & H2);
    [|unfold ub in H2; discriminate].
  apply get_slot_inv in H1 as (-> & _). now injection H2 as _ <-.
Qed.

Lemma construct_at_has p k v s s1 :
  construct_at tr p k v s = Ok tt s1 -> has_slot s p /\ blk_lens s1 = blk_lens s.
Proof. apply get_slot_then. intros x. lens_tac. Qed.

Lemma construct_arg_has p k a s s1 :
  construct_arg tr p k a s = Ok tt s1 -> has_slot s p /\ blk_lens s1 = blk_lens s.
Proof.
  destruct a as [v|q]; cbn [construct_arg]; [apply construct_at_has|].
  intros H. apply bind_ok_inv in H as (v & s2 & H1 & H2). apply read_at_same in H1 as ->.
  apply bind_ok_inv in H2 as ([] & s3 & H3 & H4).
  destruct (construct_at_has _ _ _ _ _ H3) as [Hs Hl]. split; [exact Hs|].
  assert (Hm : lens_op (match k with MoveC => leave_moved_from tr q v | _ => mret tt end : M T unit))
    by lens_tac.
  rewrite (proj1 Hm _ _ _ H4). exact Hl.
Qed.

(** A loop whose body [i] needs slot [P i] and keeps the slot counts. *)
Lemma for_has j n (body : nat -> M T unit) (P : nat -> ptr) s s' :
  (forall i (st st' : state T), body i st = Ok tt st' -> has_slot st (P i) /\ blk_lens st' = blk_lens st) ->
  for_ j n body s = Ok tt s' ->
  blk_lens s' = blk_lens s /\ forall i, j <= i < j + n -> has_slot s (P i).
Proof.
  intros Hb. revert j s. induction n as [|n IH]; intros j s H; cbn in H.
  - injection H as <-. split; [done|]. intros i Hi. lia.
  - apply bind_ok_inv in H as ([] & s1 & H1 & H2).
    destruct (Hb _ _ _ H1) as [Hs1 Hl1]. destruct (IH _ _ H2) as [Hl2 Hs2].
    split; [congruence|]. intros i Hi.
    destruct (decide (i = j)) as [->|]; [exact Hs1|].
    apply (has_slot_lens s1); [congruence|]. apply Hs2. lia.
Qed.

Lemma value_construct_has d n s s' :
  uninitialized_value_construct_n tr d n s = Ok tt s' ->
  blk_lens s' = blk_lens s /\ forall i, i < n -> has_slot s (ptr_add d i).
Proof.
  intros H. apply (for_has _ _ _ (fun i => ptr_add d i)) in H as [Hl Hs].
  - split; [exact Hl|]. intros i Hi. apply Hs. lia.
  - intros i st st' Hi. apply catch_ok_inv in Hi. exact (construct_at_has _ _ _ _ _ Hi).
Qed.

Lemma transfer_has first n d s s' :
  TransferDataSafely tr first n d s = Ok tt s' ->
  blk_lens s' = blk_lens s /\ forall i, i < n -> has_slot s (ptr_add d i).
Proof.
  unfold TransferDataSafely. intros H.
  destruct (nothrow_move tr || negb (copyable tr));
    apply (for_has _ _ _ (fun i => ptr_add d i)) in H as [Hl Hs];
    try (split; [exact Hl|]; intros i Hi; apply Hs; lia);
    intros i st st' Hi; apply catch_ok_inv in Hi;
    apply bind_ok_inv in Hi as (v & s2 & H1 & H2); apply read_at_same in H1 as ->.
  - apply bind_ok_inv in H2 as ([] & s3 & H3 & H4).
    destruct (construct_at_has _ _ _ _ _ H3) as [Hs Hl]. split; [exact Hs|].
    assert (Hm : lens_op (leave_moved_from tr (ptr_add first i) v)) by lens_tac.
    rewrite (proj1 Hm _ _ _ H4). exact Hl.
  - exact (construct_at_has _ _ _ _ _ H2).
Qed.

End SlotRuns.

Section ValueInit.
Context {T : Type} (tr : traits T).
Implicit Types (s : state T) (l : list (option T)) (vs : list T).

Lemma ev_destroys_0 d : ev_destroys d 0 = [].
Proof. reflexivity. Qed.

(** The slots of a well-formed vector's block once its [size] elements are
    destroyed: all raw. *)
Lemma destroyed_raw s v b l :
  vec_wf s v = true -> buffer (data v) = Some b -> heap s !! b = Some (mk_block true l) ->
  list_inserts 0 (replicate (size v) None) l = replicate (capacity (data v)) None.
Proof.
  intros Hwf Hb Hh. destruct (vec_wf_block s v b Hwf Hb) as (l' & Hh' & Hlen & Hsz & _ & Hraw).
  rewrite Hh in Hh'. injection Hh' as <-.
  apply all_raw; [now rewrite length_inserts|]. intros j Hj.
  destruct (decide (j < size v)).
  - rewrite list_lookup_inserts by (rewrite ?length_replicate; lia).
    apply lookup_replicate_2. lia.
  - rewrite list_lookup_inserts_ge by (rewrite length_replicate; lia). apply Hraw. lia.
Qed.

(** [std::uninitialized_value_construct_n] into a block: either every
    value initialisation returns, or the [k]-th throws and the [k] objects
    already built are destroyed. *)
Lemma uninitialized_value_construct_n_run s nb ns c n :
  heap s !! nb = Some (mk_block true ns) -> c + n <= length ns ->
  uninitialized_value_construct_n tr (mk_ptr (Some nb) c) n s =
  match first_throw tr (tick s) n with
  | None =>
      Ok tt (mk_state (<[nb := mk_block true (list_inserts c (replicate n (Some (value_init tr))) ns)]> (heap s))
                      (objs s) (log s ++ ev_constructs (mk_ptr (Some nb) c) ValueC n) (tick s + n))
  | Some k =>
      Exn (mk_state (<[nb := mk_block true (list_inserts c (replicate k None) ns)]> (heap s)) (objs s)
                    (log s ++ ev_constructs (mk_ptr (Some nb) c) ValueC k
                           ++ ev_destroys (mk_ptr (Some nb) c) k)
                    (tick s + S k))
  end.
Proof.
  intros Hnb Hlen.
  set (d := mk_ptr (Some nb) c).
  set (F := fun i => mk_state (<[nb := mk_block true (list_inserts c (replicate i (Some (value_init tr))) ns)]> (heap s))
                   (objs s) (log s ++ ev_constructs d ValueC i) (tick s + i)).
  assert (HF0 : F 0 = s).
  { unfold F; cbn. rewrite list_insert_id by exact Hnb.
    now rewrite app_nil_r, Nat.add_0_r, state_eta. }
  assert (Hnbl : nb < length (heap s)) by (eapply lookup_lt_Some; eauto).
  assert (HFnb : forall i, heap (F i) !! nb
                           = Some (mk_block true (list_inserts c (replicate i (Some (value_init tr))) ns))).
  { intros i. unfold F; cbn. now rewrite list_lookup_insert_eq by exact Hnbl. }
  assert (Hstep : forall i, i < n ->
    construct_at tr (ptr_add d i) ValueC (value_init tr) (F i) =
    if throws_at tr (tick s + i)
    then Exn (mk_state (heap (F i)) (objs s) (log (F i)) (S (tick s + i)))
    else Ok tt (F (S i))).
  { intros i Hi.
    destruct (lookup_lt_is_Some_2 ns (c + i)) as [x Hx]; [lia|].
    unfold d, ptr_add; cbn [pblk poff].
    rewrite (construct_at_run _ _ nb _ _ x _ _ (HFnb i)).
    2:{ rewrite list_lookup_inserts_ge; [exact Hx|]. rewrite length_replicate. lia. }
    unfold F; cbn [throws ctor_nothrow heap objs log tick tick_step].
    destruct (throws_at tr (tick s + i)); [reflexivity|].
    heap_simpl. rewrite replicate_S_end, inserts_snoc, length_replicate, ev_constructs_S, app_assoc.
    replace (tick s + S i) with (S (tick s + i)) by lia. reflexivity. }
  assert (Hok : forall i, i < n -> throws_at tr (tick s + i) = false ->
    catch_rethrow (construct_at tr (ptr_add d i) ValueC (value_init tr)) (destroy_n d i) (F i)
    = Ok tt (F (S i))).
  { intros i Hi Hthr. apply catch_ok. rewrite (Hstep i Hi), Hthr. reflexivity. }
  unfold uninitialized_value_construct_n.
  destruct (first_throw tr (tick s) n) as [k|] eqn:Hft.
  - destruct (first_throw_Some _ _ _ _ Hft) as (Hk & Hthr & Hbefore).
    apply (for_exn _ F 0 n k s _ HF0 Hk).
    { intros i [_ Hi]. apply Hok; [lia|]. apply Hbefore. lia. }
    cbn [Nat.add]. eapply catch_exn.
    { rewrite (Hstep k Hk), Hthr. reflexivity. }
    unfold d. rewrite (destroy_n_run _ nb (list_inserts c (replicate k (Some (value_init tr))) ns));
      cbn [heap objs log tick].
    + unfold F; cbn [heap objs log tick]. heap_simpl.
      rewrite inserts_inserts_same by (rewrite !length_replicate; lia).
      rewrite app_assoc. replace (tick s + S k) with (S (tick s + k)) by lia. reflexivity.
    + exact (HFnb k).
    + intros j Hj. exists (value_init tr).
      rewrite lookup_inserts_in; rewrite ?length_replicate; try lia.
      apply lookup_replicate_2. lia.
  - erewrite (for_ok _ F 0 n s HF0).
    + unfold F; cbn [heap objs log tick]. rewrite Nat.add_0_l. reflexivity.
    + intros i [_ Hi]. apply Hok; [lia|]. apply (first_throw_None _ _ n Hft). lia.
Qed.

End ValueInit.

Section Lifetime.
Context {T : Type} (tr : traits T).
Implicit Types (s : state T) (vs : list T).

Lemma Swap_run s a b va vb :
  objs s !! a = Some va -> objs s !! b = Some vb ->
  Swap a b s = Ok tt (mk_state (heap s) (<[b := va]> (<[a := vb]> (objs s))) (log s) (tick s)).
Proof.
  intros Ha Hb. assert (Hal : a < length (objs s)) by (eapply lookup_lt_Some; eauto).
  destruct (decide (a = b)) as [<-|Hab].
  - rewrite Ha in Hb. injection Hb as <-.
    unfold Swap. do 5 obj_step. erewrite set_size_run by obj_lookup.
    cbn [heap objs log tick data size]. rewrite !list_insert_insert_eq. destruct va. reflexivity.
  - assert (Hbl : b < length (objs s)) by (eapply lookup_lt_Some; eauto).
    unfold Swap. do 5 obj_step. erewrite set_size_run by obj_lookup.
    cbn [heap objs log tick data size]. do 2 f_equal. apply list_eq. intros j.
    destruct va, vb.
    destruct (decide (j = b)) as [->|]; [|destruct (decide (j = a)) as [->|]];
      repeat first [ rewrite list_lookup_insert_ne by congruence
                   | rewrite list_lookup_insert_eq by (rewrite ?length_insert; lia) ];
      reflexivity.
Qed.

(** [~Vector] on a well-formed vector destroys its [size] elements in
    order and then deallocates its block, if it has one: the whole block is
    left dead and raw, and no object is changed. *)
Theorem vec_dtor_releases s this v :
  objs s !! this = Some v -> vec_wf s v = true ->
  vec_dtor this s =
  Ok tt (mk_state (match buffer (data v) with
                   | Some b => <[b := mk_block false (replicate (capacity (data v)) None)]> (heap s)
                   | None => heap s
                   end) (objs s)
                  (log s ++ ev_destroys (vbegin v) (size v)
                         ++ match buffer (data v) with Some b => [EDealloc b] | None => [] end)
                  (tick s)).
Proof.
  intros Hv Hwf. unfold vec_dtor. rewrite (bind_ok _ _ _ _ _ (get_obj_run _ _ _ Hv)).
  destruct (buffer (data v)) as [b|] eqn:Hbuf.
  - destruct (vec_wf_block s v b Hwf Hbuf) as (l & Hh & Hlen & Hsz & Hlive & _).
    unfold vbegin, GetAddress. rewrite Hbuf.
    rewrite (bind_ok _ _ _ _ _ (destroy_n_run s b l 0 (size v) Hh Hlive)).
    unfold raw_dtor. rewrite Hbuf.
    rewrite Deallocate_run with (l := list_inserts 0 (replicate (size v) None) l).
    + cbn [heap objs log tick]. rewrite list_insert_insert_eq, (destroyed_raw s v b l Hwf Hbuf Hh).
      now rewrite app_assoc.
    + cbn [heap]. heap_simpl. reflexivity.
  - destruct (vec_wf_null s v Hwf Hbuf) as [_ Hs]. rewrite Hs.
    unfold raw_dtor. rewrite Hbuf, (bind_ok _ _ _ _ _ (destroy_n_0 _ _)). cbn.
    now rewrite app_nil_r, state_eta.
Qed.

Lemma vec_sized_outcome s n :
  fits tr n = true ->
  vec_sized tr n s =
  if n =? 0 then Ok (mk_vec (mk_raw None 0) 0) s else
  if new_fails tr (length (heap s)) (alloc_bytes tr n) then Exn s else
  match first_throw tr (tick s) n with
  | None =>
      Ok (mk_vec (mk_raw (Some (length (heap s))) n) n)
         (mk_state (heap s ++ [mk_block true (replicate n (Some (value_init tr)))]) (objs s)
                   (log s ++ [EAlloc (length (heap s)) n]
                          ++ ev_constructs (mk_ptr (Some (length (heap s))) 0) ValueC n)
                   (tick s + n))
  | Some k =>
      Exn (mk_state (heap s ++ [mk_block false (replicate n None)]) (objs s)
                    (log s ++ [EAlloc (length (heap s)) n]
                           ++ ev_constructs (mk_ptr (Some (length (heap s))) 0) ValueC k
                           ++ ev_destroys (mk_ptr (Some (length (heap s))) 0) k
                           ++ [EDealloc (length (heap s))])
                    (tick s + S k))
  end.
Proof.
  intros Hfit. unfold vec_sized. destruct (n =? 0) eqn:Hn.
  - apply Nat.eqb_eq in Hn. subst n. reflexivity.
  - apply Nat.eqb_neq in Hn.
    destruct (new_fails tr (length (heap s)) (alloc_bytes tr n)) eqn:Hf.
    { exact (bind_exn _ _ _ _ (raw_new_fail tr _ _ Hn Hf)). }
    rewrite (bind_ok _ _ _ _ _ (raw_new_run tr _ _ Hn Hf (fits_slots tr _ Hfit))).
    unfold GetAddress; cbn [buffer].
    pose proof (uninitialized_value_construct_n_run tr (alloc_state s n) (length (heap s))
                  (replicate n None) 0 n (lookup_alloc _ _) ltac:(rewrite length_replicate; lia)) as Hrun.
    cbn [tick alloc_state] in Hrun |- *.
    destruct (first_throw tr (tick s) n) as [k|] eqn:Hft.
    + destruct (first_throw_Some _ _ _ _ Hft) as (Hk & _ & _).
      apply bind_exn. eapply catch_exn; [exact Hrun|].
      unfold raw_dtor; cbn [buffer].
      rewrite Deallocate_run with (l := list_inserts 0 (replicate k None) (replicate n None)).
      * cbn [heap objs log tick alloc_state].
        rewrite list_insert_insert_eq, insert_last, inserts_raw by lia. now rewrite !app_assoc.
      * cbn [heap alloc_state]. rewrite list_lookup_insert_eq; [reflexivity|].
        rewrite length_app; cbn; lia.
    + rewrite (bind_ok _ _ _ _ _ (catch_ok _ _ _ _ _ Hrun)).
      cbn [heap objs log tick alloc_state]. rewrite insert_last, inserts_full
        by (rewrite !length_replicate; reflexivity).
      now rewrite app_assoc.
Qed.
(** A [Vector(n)] that returns got a block of [n] slots: [n * sizeof(T)]
    did not wrap (the value initialisation of element [n - 1] needs slot
    [n - 1]). *)
Lemma vec_sized_fits s n v s' : vec_sized tr n s = Ok v s' -> fits tr n = true.
Proof.
  intros H. destruct (n =? 0) eqn:Hn.
  { apply Nat.eqb_eq in Hn. subst n. apply N.ltb_lt. lia. }
  apply Nat.eqb_neq in Hn. unfold vec_sized in H.
  destruct (new_fails tr (length (heap s)) (alloc_bytes tr n)) eqn:Hf.
  { rewrite (bind_exn _ _ _ _ (raw_new_fail tr _ _ Hn Hf)) in H. discriminate. }
  rewrite (bind_ok _ _ _ _ _ (raw_new_grow tr _ _ Hn Hf)) in H.
  apply bind_ok_inv in H as ([] & s1 & H & _). apply catch_ok_inv in H.
  apply value_construct_has in H as [_ Hs].
  pose proof (has_slot_fresh s n (alloc_slots tr n) _ (n - 1) eq_refl (Hs (n - 1) ltac:(lia))).
  apply slots_fits. pose proof (alloc_slots_le tr n). lia.
Qed.


End Lifetime.

Section Construction.
Context {T : Type} (tr : traits T).
Implicit Types (s : state T) (vs : list T).

Lemma map_Some_replicate {A} n (x : A) : map Some (replicate n x) = replicate n (Some x).
Proof. induction n as [|n IH]; cbn; congruence. Qed.

Lemma lookup_snoc_new {A} (h : list A) x : (h ++ [x]) !! length h = Some x.
Proof. rewrite lookup_app_r by lia. now rewrite Nat.sub_diag. Qed.

(** A successful [Vector(size_t n)] builds a well-formed vector of [n]
    value-initialised elements whose capacity is exactly [n]; no other
    object changes. *)
Theorem vec_sized_elements s n v s' :
  vec_sized tr n s = Ok v s' ->
  vec_wf s' v = true /\ vec_slots s' v = replicate n (Some (value_init tr)) /\
  capacity (data v) = n /\ objs s' = objs s.
Proof.
  intros H. pose proof (vec_sized_fits tr s n v s' H) as Hfit. revert H.
  rewrite (vec_sized_outcome tr s n Hfit). destruct (n =? 0) eqn:Hn.
  - apply Nat.eqb_eq in Hn. subst n. intros H. injection H as <- <-. auto.
  - destruct (new_fails _ _ _); [discriminate|].
    destruct (first_throw tr (tick s) n); [discriminate|]. intros H. injection H as <- <-.
    destruct (vec_wf_shape (T := T)
                (mk_state (heap s ++ [mk_block true (replicate n (Some (value_init tr)))]) (objs s)
                   (log s ++ [EAlloc (length (heap s)) n]
                          ++ ev_constructs (mk_ptr (Some (length (heap s))) 0) ValueC n)
                   (tick s + n))
                (mk_vec (mk_raw (Some (length (heap s))) n) n) (length (heap s))
                (replicate n (value_init tr)) 0) as [Hwf Hsl]; cbn [data size buffer capacity heap];
      rewrite ?length_replicate; try lia; try reflexivity.
    + rewrite app_nil_r, map_Some_replicate. apply lookup_snoc_new.
    + rewrite map_Some_replicate in Hsl. auto.
Qed.

(** [Vector(const Vector& other)] on a well-formed [other] (whose [size]
    elements take [size * sizeof(T)] bytes, a count that fits in [size_t])
    either returns a well-formed vector holding copies of [other]'s elements
    in order, with size and capacity equal to [other]'s size, and no existing
    block touched; or throws [std::bad_alloc] from [operator new], and then
    nothing changed; or throws from an element copy, and then the object
    store is unchanged and the only trace left is one released block of
    [size] raw slots. *)
Theorem vec_copy_spec s other o vs :
  objs s !! other = Some o -> vec_wf s o = true -> vec_slots s o = map Some vs ->
  fits tr (size o) = true ->
  (exists v s', vec_copy tr other s = Ok v s' /\
     vec_wf s' v = true /\ vec_slots s' v = map Some vs /\ size v = size o /\
     capacity (data v) = size o /\ objs s' = objs s /\
     forall b, b < length (heap s) -> heap s' !! b = heap s !! b) \/
  (new_fails tr (length (heap s)) (alloc_bytes tr (size o)) = true /\ vec_copy tr other s = Exn s) \/
  (new_fails tr (length (heap s)) (alloc_bytes tr (size o)) = false /\
   exists s', vec_copy tr other s = Exn s' /\ objs s' = objs s /\
     heap s' = heap s ++ [mk_block false (replicate (size o) None)]).
Proof.
  intros Ho Hwf Hsl Hfit. destruct (slots_values s o vs Hwf Hsl) as [Hlen Hcase].
  destruct (decide (size o = 0)) as [H0|H0].
  - left. exists (mk_vec (mk_raw None 0) 0), s.
    unfold vec_copy. rewrite (bind_ok _ _ _ _ _ (get_obj_run _ _ _ Ho)), H0.
    destruct vs; [|cbn in Hlen; lia]. repeat split; reflexivity.
  - destruct (new_fails tr (length (heap s)) (alloc_bytes tr (size o))) eqn:Hf.
    { right; left. split; [reflexivity|]. exact (vec_copy_fail tr s other o Ho H0 Hf). }
    destruct Hcase as [[_ Hs0]|(b & l & Hb & Hh & Hv)]; [lia|].
    rewrite (vec_copy_run tr s other o vs b l Ho Hb Hh Hv Hlen H0 Hf Hfit).
    destruct (first_throw tr (tick s) (size o)).
    + right; right. split; [reflexivity|]. eexists. split; [reflexivity|]. auto.
    + left. eexists _, _. split; [reflexivity|].
      cbn [heap objs size data capacity].
      destruct (vec_wf_shape (T := T)
                  (mk_state (heap s ++ [mk_block true (map Some vs)]) (objs s)
                     (log s ++ [EAlloc (length (heap s)) (size o)]
                            ++ ev_constructs (mk_ptr (Some (length (heap s))) 0) CopyC (size o))
                     (tick s + size o))
                  (mk_vec (mk_raw (Some (length (heap s))) (size o)) (size o)) (length (heap s))
                  vs 0) as [Hwf' Hsl']; cbn [data size buffer capacity heap]; try lia; try reflexivity.
      { rewrite app_nil_r. apply lookup_snoc_new. }
      repeat split; auto. intros b' Hb'. now rewrite lookup_app_l by lia.
Qed.

(** [operator[]] at an index below [size] changes nothing and returns a
    pointer through which the element at that index is read. *)
Theorem vec_index_reads s this self vs index v :
  objs s !! this = Some self -> vec_wf s self = true -> vec_slots s self = map Some vs ->
  vs !! index = Some v ->
  exists p, vec_index this index s = Ok p s /\ read_at p s = Ok v s.
Proof.
  intros Hself Hwf Hsl Hv. destruct (slots_values s self vs Hwf Hsl) as [Hlen Hcase].
  assert (Hi : index < size self) by (rewrite <- Hlen; eapply lookup_lt_Some; eauto).
  destruct Hcase as [[_ Hs0]|(b & l & Hb & Hh & Hsrc)]; [lia|].
  destruct (vec_wf_block s self b Hwf Hb) as (l' & _ & _ & Hsz & _).
  exists (mk_ptr (Some b) index). split.
  - unfold vec_index. rewrite (bind_ok _ _ _ _ _ (get_obj_run _ _ _ Hself)).
    rewrite (proj2 (Nat.ltb_lt _ _) Hi). unfold raw_index.
    rewrite (proj2 (Nat.ltb_lt _ _)) by lia. rewrite Hb. reflexivity.
  - apply (read_at_run s b l); auto.
Qed.

(** [Swap] is an involution: [a.Swap(b); a.Swap(b);] on two vector
    objects gives back exactly the state it started from. *)
Theorem swap_swap_id s a b va vb :
  objs s !! a = Some va -> objs s !! b = Some vb -> (Swap a b;; Swap a b) s = Ok tt s.
Proof.
  intros Ha Hb. assert (Hal : a < length (objs s)) by (eapply lookup_lt_Some; eauto).
  assert (Hbl : b < length (objs s)) by (eapply lookup_lt_Some; eauto).
  rewrite (bind_ok _ _ _ _ _ (Swap_run s a b va vb Ha Hb)).
  destruct (decide (a = b)) as [<-|Hab].
  - rewrite Ha in Hb. injection Hb as <-.
    rewrite (Swap_run _ a a va va); cbn [heap objs log tick];
      rewrite ?list_insert_insert_eq, ?list_insert_id by exact Ha;
      rewrite ?list_lookup_insert_eq by lia; rewrite ?state_eta; auto.
  - rewrite (Swap_run _ a b vb va); cbn [heap objs log tick].
    + destruct s as [h os lg t]. cbn [heap objs log tick] in *. do 2 f_equal. apply list_eq. intros j.
      destruct (decide (j = b)) as [->|]; [|destruct (decide (j = a)) as [->|]];
        repeat first [ rewrite list_lookup_insert_ne by congruence
                     | rewrite list_lookup_insert_eq by (rewrite ?length_insert; lia) ];
        congruence.
    + rewrite list_lookup_insert_ne by congruence. rewrite list_lookup_insert_eq by lia. reflexivity.
    + rewrite list_lookup_insert_eq by (rewrite length_insert; lia). reflexivity.
Qed.

End Construction.

(** The allocation of a growth that returns: [operator new] did not
    fail. *)
Ltac grow_alloc H :=
  lazymatch type of H with
  | (raw_new ?t ?n ≫= _) ?st = Ok _ _ =>
      let Hf := fresh "Hf" in
      destruct (new_fails t (length (heap st)) (alloc_bytes t n)) eqn:Hf;
      [ rewrite (bind_exn _ _ _ _ (raw_new_fail t st n (grow_n_nonzero _) Hf)) in H; discriminate
      | rewrite (bind_ok _ _ _ _ _ (raw_new_grow t st n (grow_n_nonzero _) Hf)) in H ]
  end.

Section GrowthRun.
Context {T : Type} (tr : traits T).
Implicit Types (s : state T) (l : list (option T)) (vs : list T).

Lemma vec_wf_size s v : vec_wf s v = true -> size v <= capacity (data v).
Proof. unfold vec_wf. intros H. apply andb_true_iff in H as [H _]. now apply Nat.leb_le. Qed.

(** The fresh block of a growth in which the new element was built at slot
    [size] has all the slots asked for. *)
Lemma grow_fresh_slots s self N k a st :
  N = (if size self =? 0 then 1 else size self * 2) ->
  construct_arg tr (mk_ptr (Some (length (heap s))) (size self)) k a
    (alloc_state_sl s N (alloc_slots tr N)) = Ok tt st ->
  alloc_slots tr N = N.
Proof.
  intros HN H. apply construct_arg_has in H as [Hs _].
  apply (has_slot_fresh s N (alloc_slots tr N) _ _ eq_refl) in Hs.
  apply (grow_slots tr N (size self)); [|exact Hs].
  destruct (size self =? 0); lia.
Qed.

(** Moving or copying the elements of a well-formed vector into another
    block, then destroying them: when the transfer returns, the other block
    holds the elements and the old block only raw slots. *)
Lemma transfer_destroy_ok s self vs nb ns s1 :
  vec_wf s self = true -> vec_slots s self = map Some vs ->
  heap s !! nb = Some (mk_block true ns) -> buffer (data self) <> Some nb -> size self <= length ns ->
  TransferDataSafely tr (GetAddress (data self)) (size self) (mk_ptr (Some nb) 0) s = Ok tt s1 ->
  exists s2, destroy_n (GetAddress (data self)) (size self) s1 = Ok tt s2 /\ objs s2 = objs s /\
    heap s2 = <[nb := mk_block true (list_inserts 0 (map Some vs) ns)]>
                (match buffer (data self) with
                 | Some ob => <[ob := mk_block true (replicate (capacity (data self)) None)]> (heap s)
                 | None => heap s
                 end).
Proof.
  intros Hwf Hsl Hnb Hne Hn H.
  destruct (slots_values s self vs Hwf Hsl) as [Hlen [[Hb0 Hs0]|(ob & l & Hb & Hh & Hv)]].
  - rewrite Hs0, transfer_0 in H. injection H as <-. exists s. rewrite Hs0. split; [reflexivity|].
    split; [reflexivity|]. rewrite Hb0. destruct vs; [|cbn in Hlen; lia]. cbn.
    now rewrite list_insert_id by exact Hnb.
  - assert (Hobnb : ob <> nb) by congruence.
    assert (Hnbl : nb < length (heap s)) by (eapply lookup_lt_Some; eauto).
    assert (Hobl : ob < length (heap s)) by (eapply lookup_lt_Some; eauto).
    rewrite Hb. unfold GetAddress in *. rewrite Hb in *. rewrite <- Hlen in *.
    unfold TransferDataSafely in H. destruct (nothrow_move tr || negb (copyable tr)).
    + rewrite (uninitialized_move_n_run tr s ob l 0 nb ns 0 vs Hobnb Hh Hnb Hv) in H by lia.
      destruct (if nothrow_move tr then None else _); [discriminate|]. injection H as <-.
      set (os' := list_inserts 0 (map (fun v => Some (moved_from tr v)) vs) l).
      rewrite (destroy_n_run _ ob os').
      * eexists. split; [reflexivity|]. cbn [heap objs]. split; [reflexivity|].
        rewrite list_insert_insert_ne by congruence. rewrite list_insert_insert_eq. f_equal. f_equal.
        f_equal. unfold os'. rewrite inserts_inserts_same by (rewrite length_replicate, length_map; lia).
        rewrite Hlen. exact (destroyed_raw s self ob l Hwf Hb Hh).
      * cbn [heap]. rewrite list_lookup_insert_ne by congruence. heap_simpl. reflexivity.
      * intros j Hj. destruct (lookup_lt_is_Some_2 vs j Hj) as [w Hw].
        exists (moved_from tr w). unfold os'.
        rewrite lookup_inserts_in; rewrite ?length_map; try lia.
        2:{ destruct (vec_wf_block s self ob Hwf Hb) as (l' & Hh' & Hl' & Hsz & _).
            rewrite Hh in Hh'. injection Hh' as <-. lia. }
        rewrite lookup_map_eq, Hw. reflexivity.
    + rewrite (uninitialized_copy_n_run tr s ob l 0 nb ns 0 vs Hobnb Hh Hnb Hv) in H by lia.
      destruct (first_throw _ _ _); [discriminate|]. injection H as <-.
      rewrite (destroy_n_run _ ob l).
      * eexists. split; [reflexivity|]. cbn [heap objs]. split; [reflexivity|].
        rewrite list_insert_insert_ne by congruence. do 3 f_equal.
        rewrite Hlen. exact (destroyed_raw s self ob l Hwf Hb Hh).
      * cbn [heap]. rewrite list_lookup_insert_ne by congruence. exact Hh.
      * intros j Hj. destruct (lookup_lt_is_Some_2 vs j Hj) as [w Hw]. exists w. exact (Hv j w Hw).
Qed.

Lemma grown_slots vs x N :
  length vs < N ->
  list_inserts 0 (map Some vs) (<[length vs := Some x]> (replicate N None))
  = map Some (vs ++ [x]) ++ replicate (N - S (length vs)) None.
Proof.
  intros HN. apply shape_eq; rewrite ?length_inserts, ?length_insert, ?length_replicate, ?length_app;
    cbn [length]; [lia| |].
  - intros j w Hj. destruct (decide (j < length vs)).
    + rewrite list_lookup_inserts by (rewrite ?length_map, ?length_insert, ?length_replicate; lia).
      rewrite Nat.sub_0_r, lookup_map_eq. rewrite lookup_app_l in Hj by lia. now rewrite Hj.
    + rewrite list_lookup_inserts_ge by (rewrite length_map; lia).
      rewrite lookup_app_r in Hj by lia.
      destruct (j - length vs) as [|m] eqn:Hm; cbn in Hj; [|rewrite ?lookup_nil in Hj; discriminate].
      injection Hj as <-. replace j with (length vs) by lia.
      rewrite list_lookup_insert_eq by (rewrite length_replicate; lia). reflexivity.
  - intros j Hj. rewrite list_lookup_inserts_ge by (rewrite length_map; lia).
    rewrite list_lookup_insert_ne by lia. apply lookup_replicate_2. lia.
Qed.

(** The growth path of an append, up to the destruction of the old
    elements: the fresh block holds the old elements followed by the new
    one, the old block only raw slots. *)
Lemma grow_ok s self vs N k value s0 s1 :
  vec_wf s self = true -> vec_slots s self = map Some vs -> size self < N ->
  construct_at tr (mk_ptr (Some (length (heap s))) (size self)) k value (alloc_state s N) = Ok tt s0 ->
  TransferDataSafely tr (GetAddress (data self)) (size self) (mk_ptr (Some (length (heap s))) 0) s0
  = Ok tt s1 ->
  exists s2, destroy_n (GetAddress (data self)) (size self) s1 = Ok tt s2 /\ objs s2 = objs s /\
    heap s2 = match buffer (data self) with
              | Some ob => <[ob := mk_block true (replicate (capacity (data self)) None)]> (heap s)
              | None => heap s
              end ++ [mk_block true (map Some (vs ++ [value]) ++ replicate (N - S (size self)) None)].
Proof.
  intros Hwf Hsl HN Hc Ht.
  destruct (slots_values s self vs Hwf Hsl) as [Hlen _].
  rewrite (construct_at_run tr _ (length (heap s)) (replicate N None) _ None) in Hc;
    [|apply lookup_alloc|apply lookup_replicate_2; lia].
  destruct (throws _ _ _); [discriminate|]. injection Hc as <-.
  set (ns := <[size self := Some value]> (replicate N None)) in *.
  cbn [heap objs log tick alloc_state] in Ht. rewrite insert_last in Ht.
  set (s0 := mk_state (heap s ++ [mk_block true ns]) _ _ _) in Ht.
  assert (Hold : forall b, buffer (data self) = Some b -> heap s0 !! b = heap s !! b).
  { intros b Hb. destruct (vec_wf_block s self b Hwf Hb) as (l & Hh & _).
    cbn. apply lookup_app_l. eapply lookup_lt_Some; eauto. }
  destruct (vec_wf_heap_eq s s0 self Hold) as [Hwf0 Hsl0].
  destruct (transfer_destroy_ok s0 self vs (length (heap s)) ns s1) as (s2 & Hd & Ho & Hh2);
    [congruence|congruence|apply lookup_snoc_new| |unfold ns; rewrite length_insert, length_replicate; lia|exact Ht|].
  { intros Hb. destruct (vec_wf_block s self _ Hwf Hb) as (l & Hh & _).
    apply lookup_lt_Some in Hh. lia. }
  exists s2. split; [exact Hd|]. split; [exact Ho|]. rewrite Hh2. cbn [heap s0].
  unfold ns. rewrite <- Hlen, grown_slots by lia.
  destruct (buffer (data self)) as [ob|] eqn:Hb.
  - destruct (vec_wf_block s self ob Hwf Hb) as (l & Hh & _).
    apply lookup_lt_Some in Hh. rewrite insert_app_l by lia.
    rewrite <- (length_insert (heap s) ob (mk_block true (replicate (capacity (data self)) None))).
    apply insert_last.
  - apply insert_last.
Qed.

End GrowthRun.

Section InPlace.
Context {T : Type} (tr : traits T).
Implicit Types (s : state T) (l : list (option T)) (vs : list T).

(** Releasing a buffer other than block [nb]. *)
Lemma raw_dtor_keeps s r nb :
  (forall b, buffer r = Some b -> b <> nb /\ exists l, heap s !! b = Some (mk_block true l)) ->
  exists s', @raw_dtor T r s = Ok tt s' /\ objs s' = objs s /\ heap s' !! nb = heap s !! nb.
Proof.
  intros H. unfold raw_dtor. destruct (buffer r) as [b|].
  - destruct (H b eq_refl) as (Hne & l & Hh). rewrite (Deallocate_run s b l Hh).
    eexists. split; [reflexivity|]. cbn. split; [reflexivity|].
    now rewrite list_lookup_insert_ne by congruence.
  - exists s. auto.
Qed.

(** Appending in place: slot [size] of a well-formed vector's block is raw
    and receives the new element. *)
Lemma in_place_slots s self vs b l value :
  vec_wf s self = true -> vec_slots s self = map Some vs -> buffer (data self) = Some b ->
  heap s !! b = Some (mk_block true l) -> size self < capacity (data self) ->
  <[size self := Some value]> l
  = map Some (vs ++ [value]) ++ replicate (capacity (data self) - S (size self)) None.
Proof.
  intros Hwf Hsl Hb Hh Hlt.
  destruct (vec_wf_block s self b Hwf Hb) as (l' & Hh' & Hl & _ & _ & Hraw).
  rewrite Hh in Hh'. injection Hh' as <-.
  destruct (slots_values s self vs Hwf Hsl) as [Hlen [[Hb0 _]|(b' & l' & Hb' & Hh' & Hv)]];
    [congruence|].
  rewrite Hb in Hb'. injection Hb' as <-. rewrite Hh in Hh'. injection Hh' as <-.
  apply shape_eq; rewrite ?length_insert, ?length_app; cbn [length]; [lia| |].
  - intros j w Hj. destruct (decide (j < length vs)).
    + rewrite list_lookup_insert_ne by lia. rewrite lookup_app_l in Hj by lia. now apply Hv.
    + rewrite lookup_app_r in Hj by lia.
      destruct (j - length vs) as [|m] eqn:Hm; cbn in Hj; [|rewrite ?lookup_nil in Hj; discriminate].
      injection Hj as <-. replace j with (size self) by lia.
      rewrite list_lookup_insert_eq by lia. reflexivity.
  - intros j Hj. rewrite list_lookup_insert_ne by lia. apply Hraw. lia.
Qed.

Lemma grow_n_gt n : n < (if n =? 0 then 1 else n * 2).
Proof. destruct (n =? 0) eqn:E; [apply Nat.eqb_eq in E|apply Nat.eqb_neq in E]; lia. Qed.

Lemma match_heap_length s self :
  length (match buffer (data self) with
          | Some ob => <[ob := mk_block true (replicate (capacity (data self)) None)]> (heap s)
          | None => heap s
          end) = length (heap s).
Proof. destruct (buffer (data self)); [apply length_insert|reflexivity]. Qed.

Lemma match_heap_old s self b (nl : list (option T)) :
  buffer (data self) = Some b -> b < length (heap s) ->
  (match buffer (data self) with
   | Some ob => <[ob := mk_block true (replicate (capacity (data self)) None)]> (heap s)
   | None => heap s
   end ++ [mk_block true nl]) !! b = Some (mk_block true (replicate (capacity (data self)) None)).
Proof.
  intros Hb Hbl. rewrite Hb. rewrite lookup_app_l by (rewrite length_insert; lia).
  apply list_lookup_insert_eq. exact Hbl.
Qed.

End InPlace.

Section Append.
Context {T : Type} (tr : traits T).
Implicit Types (s : state T) (l : list (option T)) (vs : list T).

(** An append that fits: the element is built in the first raw slot. *)
Lemma append_in_place_ok s this self vs k value s1 s' :
  objs s !! this = Some self -> vec_wf s self = true -> vec_slots s self = map Some vs ->
  size self < capacity (data self) ->
  construct_at tr (mk_ptr (buffer (data self)) (size self)) k value s = Ok tt s1 ->
  set_size this (S (size self)) s1 = Ok tt s' ->
  exists self', objs s' = <[this := self']> (objs s) /\ size self' = S (size self) /\
    vec_wf s' self' = true /\ vec_slots s' self' = map Some (vs ++ [value]).
Proof.
  intros Hself Hwf Hsl Hlt Hc H2.
  destruct (slots_values s self vs Hwf Hsl) as [Hlen _].
  destruct (buffer (data self)) as [b|] eqn:Hb.
  2:{ destruct (vec_wf_null s self Hwf Hb). lia. }
  destruct (vec_wf_block s self b Hwf Hb) as (l & Hh & Hl & _ & _ & Hraw).
  rewrite (construct_at_run tr s b l (size self) None k value Hh) in Hc by (apply Hraw; lia).
  destruct (throws _ _ _); [discriminate|]. injection Hc as <-.
  rewrite (set_size_run _ this self) in H2 by exact Hself. injection H2 as <-.
  exists (mk_vec (data self) (S (size self))). split; [reflexivity|]. split; [reflexivity|].
  match goal with
  | |- vec_wf ?st ?v = true /\ _ =>
      destruct (vec_wf_shape st v b (vs ++ [value]) (capacity (data self) - S (size self))) as [Hw Hs]
  end; [exact Hb|cbn [data]; rewrite length_app, Hlen; cbn [length]; lia
       |cbn [size]; rewrite length_app, Hlen; cbn [length]; lia| |split; assumption].
  cbn [heap]. rewrite list_lookup_insert_eq by (eapply lookup_lt_Some; eauto).
  erewrite in_place_slots by eauto. reflexivity.
Qed.

Ltac size_lookup Ho Ho2 :=
  rewrite ?Ho; cbn [objs]; rewrite list_lookup_insert_eq
    by (rewrite ?length_insert, ?Ho2; eapply lookup_lt_Some; eassumption); reflexivity.

(** After the old elements are destroyed: install the fresh block, release
    the buffer handed back (if any), set the size. *)
Ltac grow_tail s self vs value N Hself Hwf Hlen Ho2 Hh2 H2 S' :=
  rewrite (bind_ok _ _ _ _ _ (set_data_run _ _ self _ ltac:(rewrite Ho2; exact Hself))) in H2;
  match type of H2 with
  | (raw_dtor ?r ≫= _) ?st = _ =>
      let s4 := fresh "s" in let Hd4 := fresh "Hd" in let Ho4 := fresh "Ho" in
      let Hh4 := fresh "Hh" in
      destruct (raw_dtor_keeps st r (length (heap s))) as (s4 & Hd4 & Ho4 & Hh4);
      [ intros b Hb; cbn [buffer] in Hb;
        first
          [ discriminate
          | destruct (vec_wf_block s self b Hwf Hb) as (lb & Hlb & _);
            apply lookup_lt_Some in Hlb; split; [lia|];
            eexists; cbn [heap]; rewrite Hh2; apply match_heap_old; auto ]
      | rewrite (bind_ok _ _ _ _ _ Hd4) in H2;
        first [ erewrite set_size_run in H2 by (size_lookup Ho4 Ho2)
              | erewrite bind_ok in H2 by (eapply set_size_run; size_lookup Ho4 Ho2) ];
        injection H2; intros; subst S';
        exists (mk_vec (mk_raw (Some (length (heap s))) N) (S (size self)));
        split; [cbn [objs]; rewrite Ho4; cbn [objs]; rewrite Ho2; apply list_insert_insert_eq|];
        split; [reflexivity|];
        match goal with
        | |- vec_wf ?st ?v = true /\ _ =>
            destruct (vec_wf_shape st v (length (heap s)) (vs ++ [value]) (N - S (size self)))
              as [Hw Hs];
            [ reflexivity | cbn [data capacity]; rewrite length_app, Hlen; cbn [length]; lia
            | cbn [size]; rewrite length_app, Hlen; cbn [length]; lia
            | cbn [heap]; rewrite Hh4; cbn [heap]; rewrite Hh2;
              rewrite lookup_app_r by (rewrite match_heap_length; lia);
              rewrite match_heap_length, Nat.sub_diag; reflexivity
            | split; assumption ]
        end ]
  end.

Lemma push_back_ok_run op this value s self vs s' :
  objs s !! this = Some self -> vec_wf s self = true -> vec_slots s self = map Some vs ->
  push_back_op tr op this value s = Ok tt s' ->
  exists self', objs s' = <[this := self']> (objs s) /\ size self' = S (size self) /\
    vec_wf s' self' = true /\ vec_slots s' self' = map Some (vs ++ [value]).
Proof.
  intros Hself Hwf Hsl H. destruct (slots_values s self vs Hwf Hsl) as [Hlen _].
  pose proof (vec_wf_size s self Hwf) as Hsz.
  destruct op as [| |k]; cbn [push_back_op] in H.
  - unfold PushBack_copy in H. rewrite (bind_ok _ _ _ _ _ (get_obj_run _ _ _ Hself)) in H.
    destruct (size self =? capacity (data self)) eqn:Hg.
    + grow_alloc H.
      pose proof (grow_n_gt (size self)) as HN.
      set (N := if size self =? 0 then 1 else size self * 2) in *.
      apply bind_ok_inv in H as ([] & s1 & H1 & H2). apply catch_ok_inv in H1.
      unfold raw_plus in H1. cbn [capacity buffer] in H1.
      rewrite (proj2 (Nat.leb_le _ _)) in H1 by lia.
      rewrite (bind_ok _ _ _ _ _ (ret_run _ _)) in H1.
      apply bind_ok_inv in H1 as ([] & s0 & Hc & Ht).
      rewrite (grow_fresh_slots tr s self N _ (AVal value) _ eq_refl Hc) in Hc.
      destruct (grow_ok tr s self vs N _ value s0 s1 Hwf Hsl HN Hc Ht) as (s2 & Hd & Ho2 & Hh2).
      rewrite (bind_ok _ _ _ _ _ Hd) in H2. cbn [raw_swap] in H2.
      grow_tail s self vs value N Hself Hwf Hlen Ho2 Hh2 H2 s'.
    + apply Nat.eqb_neq in Hg. unfold raw_plus in H.
      rewrite (proj2 (Nat.leb_le _ _)) in H by lia.
      rewrite (bind_ok _ _ _ _ _ (ret_run _ _)) in H.
      apply bind_ok_inv in H as ([] & s1 & Hc & H2).
      eapply append_in_place_ok; eauto; lia.
  - unfold PushBack_move in H. rewrite (bind_ok _ _ _ _ _ (get_obj_run _ _ _ Hself)) in H.
    destruct (size self =? capacity (data self)) eqn:Hg.
    + grow_alloc H.
      pose proof (grow_n_gt (size self)) as HN.
      set (N := if size self =? 0 then 1 else size self * 2) in *.
      apply bind_ok_inv in H as ([] & s1 & H1 & H2). apply catch_ok_inv in H1.
      unfold raw_plus in H1. cbn [capacity buffer] in H1.
      rewrite (proj2 (Nat.leb_le _ _)) in H1 by lia.
      rewrite (bind_ok _ _ _ _ _ (ret_run _ _)) in H1.
      apply bind_ok_inv in H1 as ([] & s0 & Hc & Ht).
      rewrite (grow_fresh_slots tr s self N _ (AVal value) _ eq_refl Hc) in Hc.
      destruct (grow_ok tr s self vs N _ value s0 s1 Hwf Hsl HN Hc Ht) as (s2 & Hd & Ho2 & Hh2).
      rewrite (bind_ok _ _ _ _ _ Hd) in H2. cbn [raw_move_assign buffer capacity] in H2.
      grow_tail s self vs value N Hself Hwf Hlen Ho2 Hh2 H2 s'.
    + apply Nat.eqb_neq in Hg. unfold raw_plus in H.
      rewrite (proj2 (Nat.leb_le _ _)) in H by lia.
      rewrite (bind_ok _ _ _ _ _ (ret_run _ _)) in H.
      apply bind_ok_inv in H as ([] & s1 & Hc & H2).
      eapply append_in_place_ok; eauto; lia.
  - apply bind_ok_inv in H as (p & s'' & H & Hr). injection Hr as <-.
    unfold EmplaceBack in H. rewrite (bind_ok _ _ _ _ _ (get_obj_run _ _ _ Hself)) in H.
    destruct (size self =? capacity (data self)) eqn:Hg.
    + grow_alloc H.
      pose proof (grow_n_gt (size self)) as HN.
      set (N := if size self =? 0 then 1 else size self * 2) in *.
      apply bind_ok_inv in H as (e & s1 & H1 & H2). apply catch_ok_inv in H1.
      unfold raw_plus in H1. cbn [capacity buffer] in H1.
      rewrite (proj2 (Nat.leb_le _ _)) in H1 by lia.
      rewrite (bind_ok _ _ _ _ _ (ret_run _ _)) in H1.
      apply bind_ok_inv in H1 as ([] & s0 & Hc & H1).
      rewrite (grow_fresh_slots tr s self N _ (AVal value) _ eq_refl Hc) in Hc.
      apply bind_ok_inv in H1 as ([] & s1' & Ht & Hr). injection Hr as <- <-.
      destruct (grow_ok tr s self vs N _ value s0 s1' Hwf Hsl HN Hc Ht) as (s2 & Hd & Ho2 & Hh2).
      rewrite (bind_ok _ _ _ _ _ Hd) in H2. cbn [raw_move_assign buffer capacity] in H2.
      grow_tail s self vs value N Hself Hwf Hlen Ho2 Hh2 H2 s''.
    + apply Nat.eqb_neq in Hg. unfold raw_plus in H.
      rewrite (proj2 (Nat.leb_le _ _)) in H by lia.
      rewrite (bind_ok _ _ _ _ _ (ret_run _ _)) in H.
      apply bind_ok_inv in H as ([] & s1 & Hc & H2).
      apply bind_ok_inv in H2 as ([] & s2 & H2 & Hr). injection Hr; intros; subst s''.
      eapply append_in_place_ok; eauto; lia.
Qed.

End Append.

Section ReserveRun.
Context {T : Type} (tr : traits T).
Implicit Types (s : state T) (l : list (option T)) (vs : list T).

(** The block of a well-formed vector holding [vs]. *)
Lemma wf_block_shape s v vs b l :
  vec_wf s v = true -> vec_slots s v = map Some vs -> buffer (data v) = Some b ->
  heap s !! b = Some (mk_block true l) ->
  l = map Some vs ++ replicate (capacity (data v) - size v) None.
Proof.
  intros Hwf Hsl Hb Hh.
  destruct (vec_wf_block s v b Hwf Hb) as (l' & Hh' & Hl & Hsz & _ & Hraw).
  rewrite Hh in Hh'. injection Hh' as <-.
  destruct (slots_values s v vs Hwf Hsl) as [Hlen [[Hb0 _]|(b' & l' & Hb' & Hh' & Hv)]]; [congruence|].
  rewrite Hb in Hb'. injection Hb' as <-. rewrite Hh in Hh'. injection Hh' as <-.
  apply shape_eq; [lia|exact Hv|]. intros j Hj. apply Hraw. lia.
Qed.

Lemma inserts_fresh vs n :
  length vs <= n -> list_inserts 0 (map Some vs) (replicate n None) = map Some vs ++ replicate (n - length vs) (@None T).
Proof.
  intros Hn. replace n with (length vs + (n - length vs)) at 1 by lia.
  rewrite replicate_add. apply list_inserts_0_r. now rewrite length_map, length_replicate.
Qed.

(** A [Reserve(n)] that grows and returns installs the fresh block, which
    has [alloc_slots n] slots. *)
Lemma Reserve_grow_ok s this self n s' :
  objs s !! this = Some self -> capacity (data self) < n -> Reserve tr this n s = Ok tt s' ->
  objs s' !! this = Some (mk_vec (mk_raw (Some (length (heap s))) n) (size self)) /\
  blk_lens s' !! length (heap s) = Some (alloc_slots tr n).
Proof.
  intros Hself Hn H. unfold Reserve in H. rewrite (bind_ok _ _ _ _ _ (get_obj_run _ _ _ Hself)) in H.
  rewrite (proj2 (Nat.leb_gt _ _) Hn) in H.
  destruct (new_fails tr (length (heap s)) (alloc_bytes tr n)) eqn:Hf.
  { rewrite (bind_exn _ _ _ _ (raw_new_fail tr s n ltac:(lia) Hf)) in H. discriminate. }
  rewrite (bind_ok _ _ _ _ _ (raw_new_grow tr s n ltac:(lia) Hf)) in H.
  split.
  - walk H. assert (Hd : elem_op (raw_dtor (T := T) (data self))) by elem_op_tac.
    destruct (proj1 Hd _ _ _ H) as [Hod _]. rewrite Hod. obj_lookup_eqs.
  - match type of H with ?m _ = _ => assert (Hm : lens_op m) by lens_tac end.
    rewrite (proj1 Hm _ _ _ H). apply lens_alloc.
Qed.

(** [Reserve(n)] on a well-formed vector, when it does not grow or its
    fresh block has the [n] slots asked for. *)
Lemma Reserve_ok_run s this self vs n s' :
  objs s !! this = Some self -> vec_wf s self = true -> vec_slots s self = map Some vs ->
  n <= capacity (data self) \/ alloc_slots tr n = n ->
  Reserve tr this n s = Ok tt s' ->
  exists self', objs s' = <[this := self']> (objs s) /\ size self' = size self /\
    capacity (data self') = Nat.max (capacity (data self)) n /\
    vec_wf s' self' = true /\ vec_slots s' self' = map Some vs /\
    (capacity (data self) < n ->
       data self' = mk_raw (Some (length (heap s))) n /\
       forall b, buffer (data self) = Some b ->
         heap s' !! b = Some (mk_block false (replicate (capacity (data self)) None))).
Proof.
  intros Hself Hwf Hsl Hm H.
  destruct (slots_values s self vs Hwf Hsl) as [Hlen _].
  pose proof (vec_wf_size s self Hwf) as Hsz.
  unfold Reserve in H. rewrite (bind_ok _ _ _ _ _ (get_obj_run _ _ _ Hself)) in H.
  destruct (n <=? capacity (data self)) eqn:Hn.
  - apply Nat.leb_le in Hn. injection H as <-. exists self.
    rewrite list_insert_id by exact Hself. repeat split; auto; lia.
  - apply Nat.leb_gt in Hn. destruct Hm as [Hm|Hm]; [lia|].
    destruct (new_fails tr (length (heap s)) (alloc_bytes tr n)) eqn:Hf.
    { rewrite (bind_exn _ _ _ _ (raw_new_fail tr s n ltac:(lia) Hf)) in H. discriminate. }
    rewrite (bind_ok _ _ _ _ _ (raw_new_run tr s n ltac:(lia) Hf Hm)) in H.
    apply bind_ok_inv in H as ([] & s1 & H1 & H2). apply catch_ok_inv in H1.
    set (nb := length (heap s)) in *.
    assert (Hold : forall b, buffer (data self) = Some b -> heap (alloc_state s n) !! b = heap s !! b).
    { intros b Hb. destruct (vec_wf_block s self b Hwf Hb) as (l & Hh & _).
      apply lookup_alloc_old. eapply lookup_lt_Some; eauto. }
    destruct (vec_wf_heap_eq s (alloc_state s n) self Hold) as [Hwf0 Hsl0].
    destruct (transfer_destroy_ok tr (alloc_state s n) self vs nb (replicate n None) s1)
      as (s2 & Hd & Ho2 & Hh2);
      [congruence|congruence|apply lookup_alloc| |rewrite length_replicate; lia|exact H1|].
    { intros Hb. destruct (vec_wf_block s self _ Hwf Hb) as (l & Hh & _).
      apply lookup_lt_Some in Hh. unfold nb in *. lia. }
    rewrite (bind_ok _ _ _ _ _ Hd) in H2. cbn [raw_swap objs alloc_state] in H2, Ho2.
    rewrite (bind_ok _ _ _ _ _ (set_data_run _ _ self _ ltac:(rewrite Ho2; exact Hself))) in H2.
    assert (Hnb : forall h, nb <= length h ->
              (<[nb := mk_block true (list_inserts 0 (map Some vs) (replicate n None))]> (h ++ [mk_block true (replicate n None)])) !! nb
              = Some (mk_block true (map Some vs ++ replicate (n - size self) None))).
    { intros h Hh. rewrite list_lookup_insert_eq by (rewrite length_app; cbn; lia).
      rewrite inserts_fresh by lia. now rewrite Hlen. }
    exists (mk_vec (mk_raw (Some nb) n) (size self)).
    unfold raw_dtor in H2. cbn [alloc_state heap] in Hh2.
    destruct (buffer (data self)) as [ob|] eqn:Hb.
    + destruct (vec_wf_block s self ob Hwf Hb) as (l & Hh & _).
      assert (Hobl : ob < nb) by (eapply lookup_lt_Some; eauto).
      rewrite (Deallocate_run _ ob (replicate (capacity (data self)) None)) in H2.
      2:{ cbn [heap]. rewrite Hh2, list_lookup_insert_ne by lia.
          rewrite list_lookup_insert_eq by (rewrite length_app; lia). reflexivity. }
      injection H2 as <-. cbn [objs heap]. rewrite Ho2.
      split; [reflexivity|]. split; [reflexivity|]. split; [cbn; lia|].
      match goal with
      | |- vec_wf ?st ?v = true /\ _ =>
          destruct (vec_wf_shape st v nb vs (n - size self)) as [Hw Hs]
      end; [reflexivity|cbn; lia|cbn; lia| |].
      { cbn [heap]. rewrite list_lookup_insert_ne by lia. rewrite Hh2, insert_app_l by lia.
        apply Hnb. rewrite length_insert. lia. }
      split; [exact Hw|]. split; [exact Hs|]. intros _. split; [reflexivity|].
      intros b Hb'. injection Hb' as <-. apply list_lookup_insert_eq.
      rewrite Hh2, length_insert, length_insert, length_app. cbn. lia.
    + destruct (vec_wf_null s self Hwf Hb) as [Hc0 Hs0].
      injection H2 as <-. cbn [objs heap]. rewrite Ho2.
      split; [reflexivity|]. split; [reflexivity|]. split; [cbn; lia|].
      match goal with
      | |- vec_wf ?st ?v = true /\ _ =>
          destruct (vec_wf_shape st v nb vs (n - size self)) as [Hw Hs]
      end; [reflexivity|cbn; lia|cbn; lia| |].
      { cbn [heap]. rewrite Hh2. apply Hnb. lia. }
      split; [exact Hw|]. split; [exact Hs|]. intros _. split; [reflexivity|].
      intros b Hb'. discriminate.
Qed.

End ReserveRun.

Section ResizePop.
Context {T : Type} (tr : traits T).
Implicit Types (s : state T) (l : list (option T)) (vs : list T).

Lemma inserts_front {A} (k : list A) m (y : A) :
  length k <= m -> list_inserts 0 k (replicate m y) = k ++ replicate (m - length k) y.
Proof.
  intros Hm. replace m with (length k + (m - length k)) at 1 by lia.
  rewrite replicate_add. apply list_inserts_0_r. now rewrite length_replicate.
Qed.

Lemma Reserve_exn_run s this self n s' :
  objs s !! this = Some self -> vec_wf s self = true -> (copyable tr || nothrow_move tr) = true ->
  fits tr n = true ->
  Reserve tr this n s = Exn s' ->
  objs s' = objs s /\
  if new_fails tr (length (heap s)) (alloc_bytes tr n) then s' = s
  else heap s' = heap s ++ [mk_block false (replicate n None)].
Proof.
  intros Hself Hwf Hcm Hfit H.
  pose proof (vec_wf_size s self Hwf) as Hsz.
  unfold Reserve in H. rewrite (bind_ok _ _ _ _ _ (get_obj_run _ _ _ Hself)) in H.
  destruct (n <=? capacity (data self)) eqn:Hn; [discriminate|]. apply Nat.leb_gt in Hn.
  destruct (new_fails tr (length (heap s)) (alloc_bytes tr n)) eqn:Hf.
  { rewrite (bind_exn _ _ _ _ (raw_new_fail tr s n ltac:(lia) Hf)) in H.
    injection H as <-. split; reflexivity. }
  rewrite (bind_ok _ _ _ _ _ (raw_new_run tr s n ltac:(lia) Hf (fits_slots tr n Hfit))) in H.
  apply bind_exn_inv in H as [H|([] & s1 & _ & H)].
  - apply (grow_catch_exn s n _ (fun L => L = replicate n None)) in H as (Ho & L & Hh & ->);
      [auto|].
    intros s2 H2. unfold GetAddress in H2. cbn [buffer] in H2.
    destruct (buffer (data self)) as [ob|] eqn:Hb.
    2:{ destruct (vec_wf_null s self Hwf Hb) as [_ Hs0]. rewrite Hs0, transfer_0 in H2. discriminate. }
    destruct (vec_wf_block s self ob Hwf Hb) as (os & Hob & Hlen & _ & Hlive & _).
    destruct (live_values os (size self) Hlive) as (vs & Hvs & Hsrc).
    assert (Hobl : ob < length (heap s)) by (eapply lookup_lt_Some; eauto).
    rewrite <- Hvs in H2. unfold TransferDataSafely in H2.
    destruct (nothrow_move tr) eqn:Hnt.
    + cbn in H2. rewrite (uninitialized_move_n_run tr _ ob os 0 (length (heap s)) (replicate n None) 0 vs)
        in H2; [rewrite Hnt in H2; discriminate|lia|rewrite lookup_alloc_old; auto|apply lookup_alloc|exact Hsrc
               |rewrite length_replicate; lia].
    + rewrite orb_false_r in Hcm. rewrite Hcm in H2. cbn in H2.
      rewrite (uninitialized_copy_n_run tr _ ob os 0 (length (heap s)) (replicate n None) 0 vs)
        in H2; [|lia|rewrite lookup_alloc_old; auto|apply lookup_alloc|exact Hsrc
                |rewrite length_replicate; lia].
      destruct (first_throw tr _ (length vs)) as [k|] eqn:Hft; [|discriminate].
      destruct (first_throw_Some tr _ _ _ Hft) as (Hk & _ & _).
      injection H2 as <-. cbn [heap objs alloc_state]. split; [reflexivity|].
      eexists. split; [apply insert_last|]. apply inserts_raw. lia.
  - exfalso. eapply no_exn_elim; [exact H|]. no_exn_tac.
Qed.

(** [Resize(n)] with [n < size] cannot fail: it destroys the elements
    [[n, size)] in order and sets the size to [n]; the buffer is kept and the
    vector keeps its first [n] elements. *)
Theorem resize_shrinks s this self vs n :
  objs s !! this = Some self -> vec_wf s self = true -> vec_slots s self = map Some vs ->
  n < size self ->
  exists s', Resize tr this n s = Ok tt s' /\
    objs s' = <[this := mk_vec (data self) n]> (objs s) /\
    vec_wf s' (mk_vec (data self) n) = true /\ vec_slots s' (mk_vec (data self) n) = map Some (take n vs) /\
    log s' = log s ++ ev_destroys (ptr_add (vbegin self) n) (size self - n).
Proof.
  intros Hself Hwf Hsl Hn.
  destruct (slots_values s self vs Hwf Hsl) as [Hlen _].
  destruct (buffer (data self)) as [b|] eqn:Hb.
  2:{ destruct (vec_wf_null s self Hwf Hb). lia. }
  destruct (vec_wf_block s self b Hwf Hb) as (l & Hh & Hl & Hsz & Hlive & Hraw).
  pose proof (wf_block_shape s self vs b l Hwf Hsl Hb Hh) as Hshape.
  unfold Resize. rewrite (bind_ok _ _ _ _ _ (get_obj_run _ _ _ Hself)).
  rewrite (proj2 (Nat.ltb_lt _ _) Hn).
  unfold vbegin, GetAddress, ptr_add. rewrite Hb. cbn [pblk poff Nat.add].
  rewrite (bind_ok _ _ _ _ _ (destroy_n_run s b l n (size self - n) Hh
                                ltac:(intros j Hj; apply Hlive; lia))).
  erewrite set_size_run by obj_lookup.
  eexists. split; [reflexivity|]. cbn [heap objs log tick]. split; [reflexivity|].
  match goal with
  | |- vec_wf ?st ?v = true /\ _ =>
      destruct (vec_wf_shape st v b (take n vs) (capacity (data self) - n)) as [Hw Hs]
  end; [exact Hb|rewrite length_take; cbn; lia|rewrite length_take; cbn; lia| |auto].
  cbn [heap]. rewrite list_lookup_insert_eq by (eapply lookup_lt_Some; eauto). do 2 f_equal.
  apply shape_eq; rewrite ?length_inserts, ?length_take; [lia| |].
  - intros j w Hj. apply lookup_take_Some in Hj as [Hj Hjn].
    rewrite list_lookup_inserts_lt by lia. rewrite Hshape, lookup_app_l by (rewrite length_map; lia).
    now rewrite lookup_map_eq, Hj.
  - intros j Hj. destruct (decide (j < size self)).
    + rewrite list_lookup_inserts by (rewrite ?length_replicate; lia).
      apply lookup_replicate_2. lia.
    + rewrite list_lookup_inserts_ge by (rewrite length_replicate; lia). apply Hraw. lia.
Qed.

(** A successful [Resize(n)] with [size <= n] keeps the elements, appends
    [n - size] value-initialised ones, and leaves capacity [max(Capacity(), n)]. *)
Theorem resize_grows s this self vs n s' :
  objs s !! this = Some self -> vec_wf s self = true -> vec_slots s self = map Some vs ->
  size self <= n -> Resize tr this n s = Ok tt s' ->
  exists self', objs s' = <[this := self']> (objs s) /\ size self' = n /\
    capacity (data self') = Nat.max (capacity (data self)) n /\
    vec_wf s' self' = true /\
    vec_slots s' self' = map Some (vs ++ replicate (n - size self) (value_init tr)).
Proof.
  intros Hself Hwf Hsl Hn H.
  destruct (slots_values s self vs Hwf Hsl) as [Hlen _].
  assert (Hthis : this < length (objs s)) by (eapply lookup_lt_Some; eauto).
  unfold Resize in H. rewrite (bind_ok _ _ _ _ _ (get_obj_run _ _ _ Hself)) in H.
  rewrite (proj2 (Nat.ltb_ge _ _) Hn) in H.
  apply bind_ok_inv in H as ([] & s1 & HR & H2).
  assert (Hm : n <= capacity (data self) \/ alloc_slots tr n = n).
  { destruct (le_lt_dec n (capacity (data self))) as [Hc|Hc]; [left; exact Hc|right].
    pose proof (vec_wf_size s self Hwf).
    destruct (Reserve_grow_ok tr s this self n s1 Hself Hc HR) as [Ho1 Hl1].
    rewrite (bind_ok _ _ _ _ _ (get_obj_run _ _ _ Ho1)) in H2.
    apply bind_ok_inv in H2 as ([] & s3 & Hv & _).
    apply value_construct_has in Hv as [_ Hs].
    destruct (Hs (n - size self - 1) ltac:(cbn; lia)) as (b & c & Hb & Hc' & Hlt).
    cbn [pblk poff ptr_add vbegin GetAddress data buffer size] in Hb, Hlt. injection Hb as <-.
    rewrite Hl1 in Hc'. injection Hc' as <-.
    pose proof (alloc_slots_le tr n). lia. }
  destruct (Reserve_ok_run tr s this self vs n s1 Hself Hwf Hsl Hm HR)
    as (self1 & Ho1 & Hs1 & Hc1 & Hwf1 & Hsl1 & _).
  assert (Hget : objs s1 !! this = Some self1).
  { rewrite Ho1. now apply list_lookup_insert_eq. }
  rewrite (bind_ok _ _ _ _ _ (get_obj_run _ _ _ Hget)) in H2.
  apply bind_ok_inv in H2 as ([] & s3 & Hv & H3).
  rewrite Hs1 in Hv.
  destruct (decide (n = size self)) as [Heq|Hne].
  - rewrite Heq, Nat.sub_diag in Hv. injection Hv as <-.
    rewrite (set_size_run _ this self1) in H3 by exact Hget. injection H3 as <-.
    exists self1. cbn [objs heap]. rewrite Ho1, list_insert_insert_eq.
    rewrite Heq, Nat.sub_diag, app_nil_r. rewrite <- Hs1. destruct self1 as [d1 z1]. cbn [data size].
    cbn in Hs1. subst z1. repeat split; auto. rewrite <- Heq. exact Hc1.
  - destruct (buffer (data self1)) as [b1|] eqn:Hb1.
    2:{ destruct (vec_wf_null s1 self1 Hwf1 Hb1). lia. }
    destruct (vec_wf_block s1 self1 b1 Hwf1 Hb1) as (l1 & Hh1 & Hl1 & _).
    pose proof (wf_block_shape s1 self1 vs b1 l1 Hwf1 Hsl1 Hb1 Hh1) as Hshape.
    unfold vbegin, GetAddress, ptr_add in Hv. rewrite Hb1 in Hv. cbn [pblk poff Nat.add] in Hv.
    rewrite (uninitialized_value_construct_n_run tr s1 b1 l1 (size self) (n - size self) Hh1)
      in Hv by lia.
    destruct (first_throw _ _ _); [discriminate|]. injection Hv as <-.
    rewrite (set_size_run _ this self1) in H3 by exact Hget. injection H3 as <-.
    exists (mk_vec (data self1) n). cbn [objs heap]. rewrite Ho1, list_insert_insert_eq.
    split; [reflexivity|]. split; [reflexivity|]. split; [exact Hc1|].
    match goal with
    | |- vec_wf ?st ?v = true /\ _ =>
        destruct (vec_wf_shape st v b1 (vs ++ replicate (n - size self) (value_init tr))
                    (capacity (data self1) - n)) as [Hw Hs]
    end; [exact Hb1|rewrite length_app, length_replicate; cbn; lia
         |rewrite length_app, length_replicate; cbn; lia| |auto].
    cbn [heap]. rewrite list_lookup_insert_eq by (eapply lookup_lt_Some; eauto). do 2 f_equal.
    rewrite Hshape, Hs1, <- Hlen, map_app, map_Some_replicate.
    rewrite <- (Nat.add_0_r (length vs)) at 1. rewrite <- (length_map Some vs) at 1.
    rewrite list_inserts_app_r, inserts_front by (rewrite length_replicate; lia).
    rewrite length_replicate, <- app_assoc.
    replace (capacity (data self1) - length vs - (n - length vs)) with (capacity (data self1) - n) by lia.
    reflexivity.
Qed.

Lemma PopBack_ok_run s this self vs v :
  objs s !! this = Some self -> vec_wf s self = true -> vec_slots s self = map Some (vs ++ [v]) ->
  exists s', PopBack this s = Ok tt s' /\
    objs s' = <[this := mk_vec (data self) (size self - 1)]> (objs s) /\
    vec_wf s' (mk_vec (data self) (size self - 1)) = true /\
    vec_slots s' (mk_vec (data self) (size self - 1)) = map Some vs.
Proof.
  intros Hself Hwf Hsl.
  destruct (slots_values s self _ Hwf Hsl) as [Hlen _]. rewrite length_app in Hlen. cbn in Hlen.
  destruct (buffer (data self)) as [b|] eqn:Hb.
  2:{ destruct (vec_wf_null s self Hwf Hb). lia. }
  destruct (vec_wf_block s self b Hwf Hb) as (l & Hh & Hl & Hsz & _).
  pose proof (wf_block_shape s self _ b l Hwf Hsl Hb Hh) as Hshape.
  assert (Hx : l !! (size self - 1) = Some (Some v)).
  { rewrite Hshape, lookup_app_l by (rewrite length_map, length_app; cbn; lia).
    rewrite lookup_map_eq, lookup_app_r by lia. replace (size self - 1 - length vs) with 0 by lia.
    reflexivity. }
  unfold PopBack. rewrite (bind_ok _ _ _ _ _ (get_obj_run _ _ _ Hself)).
  rewrite (proj2 (Nat.eqb_neq _ _)) by lia.
  unfold GetAddress, ptr_add. rewrite Hb. cbn [pblk poff Nat.add].
  rewrite (bind_ok _ _ _ _ _ (destroy_at_run s b l _ v Hh Hx)).
  erewrite set_size_run by obj_lookup.
  eexists. split; [reflexivity|]. cbn [heap objs]. split; [reflexivity|].
  match goal with
  | |- vec_wf ?st ?v = true /\ _ =>
      destruct (vec_wf_shape st v b vs (capacity (data self) - length vs)) as [Hw Hs]
  end; [exact Hb|cbn; lia|cbn; lia| |auto].
  cbn [heap]. rewrite list_lookup_insert_eq by (eapply lookup_lt_Some; eauto). do 2 f_equal.
  rewrite Hshape, map_app, <- app_assoc.
  replace (size self - 1) with (length (map Some vs) + 0) by (rewrite length_map; lia).
  rewrite insert_app_r. f_equal. cbn [map app].
  replace (capacity (data self) - length vs) with (S (capacity (data self) - size self)) by lia.
  reflexivity.
Qed.

(** A successful [PushBack]/[EmplaceBack] followed by [PopBack] gives a
    well-formed vector with the original elements and size. *)
Theorem push_pop_roundtrip op this value s self vs s1 :
  objs s !! this = Some self -> vec_wf s self = true -> vec_slots s self = map Some vs ->
  push_back_op tr op this value s = Ok tt s1 ->
  exists s2, PopBack this s1 = Ok tt s2 /\
    exists self2, objs s2 = <[this := self2]> (objs s) /\ size self2 = size self /\
      vec_wf s2 self2 = true /\ vec_slots s2 self2 = map Some vs.
Proof.
  intros Hself Hwf Hsl H.
  assert (Hthis : this < length (objs s)) by (eapply lookup_lt_Some; eauto).
  destruct (push_back_ok_run tr op this value s self vs s1 Hself Hwf Hsl H)
    as (self' & Ho & Hs & Hwf' & Hsl').
  assert (Hget : objs s1 !! this = Some self') by (rewrite Ho; now apply list_lookup_insert_eq).
  destruct (PopBack_ok_run s1 this self' vs value Hget Hwf' Hsl') as (s2 & Hp & Ho2 & Hwf2 & Hsl2).
  exists s2. split; [exact Hp|]. exists (mk_vec (data self') (size self' - 1)).
  rewrite Ho2, Ho, list_insert_insert_eq. cbn [size].
  split; [reflexivity|]. split; [rewrite Hs; lia|]. split; [exact Hwf2|exact Hsl2].
Qed.

Lemma value_construct_0 p s : uninitialized_value_construct_n tr p 0 s = Ok tt s.
Proof. reflexivity. Qed.

(** A [Resize(n)] that throws, for an element type that is copyable or
    nothrow-movable and an [n] whose byte count [n * sizeof(T)] fits in
    [size_t], leaves the vector well formed with its original elements and
    size (its capacity may have grown). *)
Theorem resize_exn_keeps s this self vs n s' :
  objs s !! this = Some self -> vec_wf s self = true -> vec_slots s self = map Some vs ->
  (copyable tr || nothrow_move tr) = true -> fits tr n = true ->
  Resize tr this n s = Exn s' ->
  exists self', objs s' = <[this := self']> (objs s) /\ size self' = size self /\
    vec_wf s' self' = true /\ vec_slots s' self' = map Some vs.
Proof.
  intros Hself Hwf Hsl Hcm Hfit H.
  destruct (slots_values s self vs Hwf Hsl) as [Hlen _].
  unfold Resize in H. rewrite (bind_ok _ _ _ _ _ (get_obj_run _ _ _ Hself)) in H.
  destruct (n <? size self) eqn:Hn.
  { exfalso. eapply no_exn_elim; [exact H|]. no_exn_tac. }
  apply Nat.ltb_ge in Hn.
  apply bind_exn_inv in H as [H|([] & s1 & HR & H2)].
  - destruct (Reserve_exn_run s this self n s' Hself Hwf Hcm Hfit H) as [Ho Hh].
    exists self. rewrite Ho, list_insert_id by exact Hself. split; [reflexivity|]. split; [reflexivity|].
    destruct (new_fails _ _ _); [subst s'; auto|].
    destruct (vec_wf_heap_eq s s' self) as [-> ->]; [|auto].
    intros b Hb. destruct (vec_wf_block s self b Hwf Hb) as (l & Hl & _).
    rewrite Hh, lookup_app_l; [reflexivity|]. eapply lookup_lt_Some; eauto.
  - destruct (Reserve_ok_run tr s this self vs n s1 Hself Hwf Hsl (or_intror (fits_slots tr n Hfit)) HR)
      as (self1 & Ho1 & Hs1 & Hc1 & Hwf1 & Hsl1 & _).
    assert (Hget : objs s1 !! this = Some self1).
    { rewrite Ho1. apply list_lookup_insert_eq. eapply lookup_lt_Some; eauto. }
    rewrite (bind_ok _ _ _ _ _ (get_obj_run _ _ _ Hget)) in H2. rewrite Hs1 in H2.
    apply bind_exn_inv in H2 as [Hv|([] & s3 & Hv & H3)].
    2:{ exfalso. eapply no_exn_elim; [exact H3|]. no_exn_tac. }
    destruct (decide (n = size self)) as [Heq|Hne].
    { rewrite Heq, Nat.sub_diag, value_construct_0 in Hv. discriminate. }
    destruct (buffer (data self1)) as [b1|] eqn:Hb1.
    2:{ destruct (vec_wf_null s1 self1 Hwf1 Hb1). lia. }
    destruct (vec_wf_block s1 self1 b1 Hwf1 Hb1) as (l1 & Hh1 & Hl1 & _).
    pose proof (wf_block_shape s1 self1 vs b1 l1 Hwf1 Hsl1 Hb1 Hh1) as Hshape.
    unfold vbegin, GetAddress, ptr_add in Hv. rewrite Hb1 in Hv. cbn [pblk poff Nat.add] in Hv.
    rewrite (uninitialized_value_construct_n_run tr s1 b1 l1 (size self) (n - size self) Hh1)
      in Hv by lia.
    destruct (first_throw _ _ _) as [k|] eqn:Hft; [|discriminate].
    destruct (first_throw_Some tr _ _ _ Hft) as (Hk & _ & _).
    injection Hv as <-. exists self1. cbn [objs heap]. rewrite Ho1.
    split; [reflexivity|]. split; [exact Hs1|].
    destruct (vec_wf_shape (mk_state (<[b1:=mk_block true (list_inserts (size self) (replicate k None) l1)]> (heap s1))
                 (objs s1) (log s1 ++ ev_constructs (mk_ptr (Some b1) (size self)) ValueC k
                   ++ ev_destroys (mk_ptr (Some b1) (size self)) k) (tick s1 + S k))
                 self1 b1 vs (capacity (data self1) - size self)) as [Hw Hs];
      [exact Hb1|lia|lia| |auto].
    cbn [heap]. rewrite list_lookup_insert_eq by (eapply lookup_lt_Some; eauto). do 2 f_equal.
    rewrite Hshape, Hs1, <- Hlen.
    rewrite <- (Nat.add_0_r (length vs)) at 1. rewrite <- (length_map Some vs) at 1.
    rewrite list_inserts_app_r, inserts_raw by lia. reflexivity.
Qed.

End ResizePop.

Section Public.
Context {T : Type} (tr : traits T).
Implicit Types (s : state T) (vs : list T).

(** The element at index [i] of a well-formed vector is read at
    [begin() + i]. *)
Lemma read_slot s self vs i v :
  vec_wf s self = true -> vec_slots s self = map Some vs -> vs !! i = Some v ->
  read_at (ptr_add (vbegin self) i) s = Ok v s.
Proof.
  intros Hwf Hsl Hv. destruct (slots_values s self vs Hwf Hsl) as [Hlen Hcase].
  assert (Hi : i < size self) by (rewrite <- Hlen; eapply lookup_lt_Some; eauto).
  destruct Hcase as [[_ Hs0]|(b & l & Hb & Hh & Hsrc)]; [lia|].
  unfold vbegin, GetAddress, ptr_add. rewrite Hb. cbn [pblk poff Nat.add].
  apply (read_at_run s b l); auto.
Qed.

(** [Vector(size_t n)], when [n * sizeof(T)] fits in [size_t]: for [n = 0]
    nothing is allocated; otherwise [operator new] either throws
    [std::bad_alloc], and nothing changes, or allocates a block of [n] slots
    in which [n] value initialisations run in order; if the [k]-th throws,
    the [k] elements already built are destroyed, the block is released and
    the exception propagates. *)
Theorem vec_sized_run s n :
  fits tr n = true ->
  vec_sized tr n s =
  if n =? 0 then Ok (mk_vec (mk_raw None 0) 0) s else
  if new_fails tr (length (heap s)) (alloc_bytes tr n) then Exn s else
  match first_throw tr (tick s) n with
  | None =>
      Ok (mk_vec (mk_raw (Some (length (heap s))) n) n)
         (mk_state (heap s ++ [mk_block true (replicate n (Some (value_init tr)))]) (objs s)
                   (log s ++ [EAlloc (length (heap s)) n]
                          ++ ev_constructs (mk_ptr (Some (length (heap s))) 0) ValueC n)
                   (tick s + n))
  | Some k =>
      Exn (mk_state (heap s ++ [mk_block false (replicate n None)]) (objs s)
                    (log s ++ [EAlloc (length (heap s)) n]
                           ++ ev_constructs (mk_ptr (Some (length (heap s))) 0) ValueC k
                           ++ ev_destroys (mk_ptr (Some (length (heap s))) 0) k
                           ++ [EDealloc (length (heap s))])
                    (tick s + S k))
  end.
Proof. apply vec_sized_outcome. Qed.

(** A successful [PushBack(const T&)], [PushBack(T&&)] or [EmplaceBack] on
    a well-formed vector appends the value: the vector stays well formed,
    its size grows by one and its elements are the old ones followed by the
    value, whether or not the buffer had to grow. *)
Theorem push_back_appends op this value s self vs s' :
  objs s !! this = Some self -> vec_wf s self = true -> vec_slots s self = map Some vs ->
  push_back_op tr op this value s = Ok tt s' ->
  exists self', objs s' = <[this := self']> (objs s) /\ size self' = S (size self) /\
    vec_wf s' self' = true /\ vec_slots s' self' = map Some (vs ++ [value]).
Proof. apply push_back_ok_run. Qed.

(** A successful [Reserve(n)], for an [n] whose byte count
    [n * sizeof(T)] fits in [size_t], keeps the elements and the size,
    leaves capacity [max(Capacity(), n)], and when it reallocates, the
    vector takes the fresh block of [n] slots and its old block is left dead
    and raw. *)
Theorem reserve_ok s this self vs n s' :
  objs s !! this = Some self -> vec_wf s self = true -> vec_slots s self = map Some vs ->
  fits tr n = true ->
  Reserve tr this n s = Ok tt s' ->
  exists self', objs s' = <[this := self']> (objs s) /\ size self' = size self /\
    capacity (data self') = Nat.max (capacity (data self)) n /\
    vec_wf s' self' = true /\ vec_slots s' self' = map Some vs /\
    (capacity (data self) < n ->
       data self' = mk_raw (Some (length (heap s))) n /\
       forall b, buffer (data self) = Some b ->
         heap s' !! b = Some (mk_block false (replicate (capacity (data self)) None))).
Proof.
  intros Hself Hwf Hsl Hfit. exact (Reserve_ok_run tr s this self vs n s' Hself Hwf Hsl (or_intror (fits_slots tr n Hfit))).
Qed.

(** A [Reserve(n)] that throws, for an element type that is copyable or
    nothrow-movable and an [n] whose byte count [n * sizeof(T)] fits in
    [size_t], has the strong guarantee: when [operator new] threw
    [std::bad_alloc], nothing changed; otherwise no object changes, the old
    block is untouched, and the fresh block of [n] slots is released with no
    element left in it. *)
Theorem reserve_exn_strong s this self n s' :
  objs s !! this = Some self -> vec_wf s self = true -> (copyable tr || nothrow_move tr) = true ->
  fits tr n = true ->
  Reserve tr this n s = Exn s' ->
  objs s' = objs s /\
  if new_fails tr (length (heap s)) (alloc_bytes tr n) then s' = s
  else heap s' = heap s ++ [mk_block false (replicate n None)].
Proof. apply Reserve_exn_run. Qed.

(** [PopBack] on a well-formed vector holding [vs ++ [v]] cannot fail: it
    destroys the last element and the vector, one shorter on the same
    buffer, is well formed and holds [vs]. *)
Theorem pop_back_removes s this self vs v :
  objs s !! this = Some self -> vec_wf s self = true -> vec_slots s self = map Some (vs ++ [v]) ->
  exists s', PopBack this s = Ok tt s' /\
    objs s' = <[this := mk_vec (data self) (size self - 1)]> (objs s) /\
    vec_wf s' (mk_vec (data self) (size self - 1)) = true /\
    vec_slots s' (mk_vec (data self) (size self - 1)) = map Some vs.
Proof. apply PopBack_ok_run. Qed.

Lemma emplace_end_run this k value s self vs p s' :
  objs s !! this = Some self -> vec_wf s self = true -> vec_slots s self = map Some vs ->
  Emplace tr this (size self) k (AVal value) s = Ok p s' ->
  exists self', objs s' = <[this := self']> (objs s) /\ size self' = S (size self) /\
    vec_wf s' self' = true /\ vec_slots s' self' = map Some (vs ++ [value]) /\
    p = ptr_add (vbegin self') (size self) /\ read_at p s' = Ok value s'.
Proof.
  intros Hself Hwf Hsl H.
  destruct (slots_values s self vs Hwf Hsl) as [Hlen _].
  unfold Emplace in H. rewrite (bind_ok _ _ _ _ _ (get_obj_run _ _ _ Hself)) in H.
  rewrite Nat.ltb_irrefl, Nat.eqb_refl in H.
  apply bind_ok_inv in H as (q & s1 & HE & H).
  assert (Hp : push_back_op tr (EmplaceBackK k) this value s = Ok tt s1).
  { cbn [push_back_op]. now rewrite (bind_ok _ _ _ _ _ HE). }
  destruct (push_back_ok_run tr (EmplaceBackK k) this value s self vs s1 Hself Hwf Hsl Hp)
    as (self' & Ho & Hs & Hwf' & Hsl').
  assert (Hget : objs s1 !! this = Some self').
  { rewrite Ho. apply list_lookup_insert_eq. eapply lookup_lt_Some; eauto. }
  rewrite (bind_ok _ _ _ _ _ (get_obj_run _ _ _ Hget)) in H. injection H as <- <-.
  exists self'. repeat split; auto.
  apply (read_slot s1 self' (vs ++ [value])); auto.
  rewrite lookup_app_r by lia. rewrite Hlen, Nat.sub_diag. reflexivity.
Qed.

(** A successful [Emplace(end(), args...)], with arguments given as a value
    that is not an element of the vector, appends the value as
    [EmplaceBack] does and returns an iterator to the new last element. *)
Theorem emplace_at_end_appends this k value s self vs p s' :
  objs s !! this = Some self -> vec_wf s self = true -> vec_slots s self = map Some vs ->
  Emplace tr this (size self) k (AVal value) s = Ok p s' ->
  exists self', objs s' = <[this := self']> (objs s) /\ size self' = S (size self) /\
    vec_wf s' self' = true /\ vec_slots s' self' = map Some (vs ++ [value]) /\
    p = ptr_add (vbegin self') (size self) /\ read_at p s' = Ok value s'.
Proof. exact (emplace_end_run this k value s self vs p s'). Qed.

End Public.

Section MoveBackward.
Context {T : Type} (tr : traits T).
Implicit Types (s : state T) (l : list (option T)) (ws : list T).

(** A loop that returns: an invariant kept by every iteration that returns
    holds at its end. *)
Lemma for_ok_inv (body : nat -> M T unit) (P : nat -> state T -> Prop) j n s s' :
  P 0 s ->
  (forall i st st', i < n -> P i st -> body (j + i) st = Ok tt st' -> P (S i) st') ->
  for_ j n body s = Ok tt s' -> P n s'.
Proof.
  revert j P s. induction n as [|n IH]; intros j P s H0 Hs H; cbn [for_] in H.
  - rewrite ret_run in H. injection H as <-. exact H0.
  - apply bind_ok_inv in H as ([] & s1 & H1 & H2).
    apply (IH (S j) (fun i => P (S i)) s1); auto.
    + apply (Hs 0 s s1); [lia|exact H0|now rewrite Nat.add_0_r].
    + intros i st st' Hi HP Hb. apply (Hs (S i) st st'); [lia|exact HP|].
      now replace (j + S i) with (S j + i) by lia.
Qed.

(** [std::move_backward] of [ws], at slots [[a, a + length ws)], one slot to
    the right inside one block whose slot [a + length ws] holds an object:
    when it returns, slots [[a + 1, a + 1 + length ws)] hold [ws] and slot
    [a] still holds an object. *)
Lemma move_backward_ok s s' b l a ws x0 :
  heap s !! b = Some (mk_block true l) ->
  l !! (a + length ws) = Some (Some x0) ->
  (forall j w, ws !! j = Some w -> l !! (a + j) = Some (Some w)) ->
  move_backward tr (mk_ptr (Some b) a) (mk_ptr (Some b) (a + length ws))
                (mk_ptr (Some b) (S (a + length ws))) s = Ok tt s' ->
  objs s' = objs s /\
  exists y, heap s' = <[b := mk_block true (list_inserts a (Some y :: map Some ws) l)]> (heap s).
Proof.
  intros Hb Hx0 Hws H.
  assert (Hbl : b < length (heap s)) by (eapply lookup_lt_Some; eauto).
  set (m := length ws) in *.
  unfold move_backward in H; cbn [poff] in H.
  rewrite (proj2 (Nat.ltb_ge _ _)) in H by lia. replace (a + m - a) with m in H by lia.
  apply (for_ok_inv _ (fun i st => objs st = objs s /\ exists y,
           heap st = <[b := mk_block true (list_inserts (a + m - i) (Some y :: map Some (drop (m - i) ws)) l)]>
                       (heap s)) 0 m s s') in H.
  - destruct H as [Ho (y & Hh)]. rewrite Nat.sub_diag, drop_0 in Hh.
    replace (a + m - m) with a in Hh by lia. eauto.
  - split; [reflexivity|]. exists x0. rewrite Nat.sub_0_r, drop_ge by lia. cbn [map].
    rewrite (inserts_id (a + m) [Some x0] l).
    + now rewrite list_insert_id by exact Hb.
    + intros [|j] x Hj; cbn in Hj; [injection Hj as <-; now rewrite Nat.add_0_r|].
      rewrite ?lookup_nil in Hj. discriminate.
  - intros i st st' Hi [Ho (y & Hh)] Hbody. cbn [Nat.add] in Hbody.
    unfold ptr_sub in Hbody; cbn [pblk poff] in Hbody.
    set (c := a + m - S i).
    replace (a + m - S i) with c in Hbody by reflexivity.
    replace (S (a + m) - S i) with (S c) in Hbody by (unfold c; lia).
    destruct (lookup_lt_is_Some_2 ws (m - S i)) as [w Hw]; [unfold m; lia|].
    assert (Hlc : l !! c = Some (Some w)).
    { unfold c. replace (a + m - S i) with (a + (m - S i)) by lia. now apply Hws. }
    set (L := list_inserts (S c) (Some y :: map Some (drop (m - i) ws)) l).
    assert (HL : heap st !! b = Some (mk_block true L)).
    { rewrite Hh. unfold L. replace (a + m - i) with (S c) by (unfold c; lia).
      now apply list_lookup_insert_eq. }
    assert (Hcl : S c < length l).
    { assert (a + m < length l) by (eapply lookup_lt_Some; eauto). unfold c; lia. }
    assert (HLc : L !! c = Some (Some w)).
    { unfold L. rewrite list_lookup_inserts_lt by lia. exact Hlc. }
    assert (HLSc : L !! S c = Some (Some y)).
    { unfold L. cbn [list_inserts]. apply list_lookup_insert_eq. rewrite length_inserts. lia. }
    rewrite (bind_ok _ _ _ _ _ (read_at_run st b L c w HL HLc)) in Hbody.
    apply bind_ok_inv in Hbody as ([] & st1 & Ha & Hl).
    rewrite (assign_at_run tr st b L (S c) y MoveA w HL HLSc) in Ha.
    destruct (throws _ _ _); [discriminate|]. injection Ha as <-.
    unfold leave_moved_from in Hl.
    rewrite (put_slot_run _ b (<[S c := Some w]> L)) in Hl
      by (cbn [heap]; apply list_lookup_insert_eq; eapply lookup_lt_Some; eauto).
    injection Hl as <-. cbn [heap objs]. split; [exact Ho|].
    exists (moved_from tr w). rewrite Hh, !list_insert_insert_eq. do 2 f_equal.
    replace (a + m - S i) with c by reflexivity.
    rewrite (drop_S ws w (m - S i) Hw). replace (S (m - S i)) with (m - i) by lia.
    unfold L. cbn [list_inserts map]. rewrite list_insert_insert_eq. reflexivity.
Qed.

Lemma make_temp_ok k v t st st' :
  make_temp tr k v st = Ok t st' -> t = v /\ heap st' = heap st /\ objs st' = objs st.
Proof.
  unfold make_temp. intros H. apply bind_ok_inv in H as ([] & st1 & H1 & H).
  rewrite may_throw_run in H1. destruct (throws _ _ _); [discriminate|]. injection H1 as <-.
  cbn in H. injection H as <- <-. auto.
Qed.

End MoveBackward.

Section EmplaceInPlace.
Context {T : Type} (tr : traits T).
Implicit Types (s : state T) (vs : list T).

Lemma emplace_in_place_run s this self vs offset k value p s' :
  objs s !! this = Some self -> vec_wf s self = true -> vec_slots s self = map Some vs ->
  offset < size self -> size self < capacity (data self) ->
  Emplace tr this offset k (AVal value) s = Ok p s' ->
  objs s' = <[this := mk_vec (data self) (S (size self))]> (objs s) /\
  vec_wf s' (mk_vec (data self) (S (size self))) = true /\
  vec_slots s' (mk_vec (data self) (S (size self))) = map Some (take offset vs ++ value :: drop offset vs) /\
  p = ptr_add (vbegin self) offset /\ read_at p s' = Ok value s'.
Proof.
  intros Hself Hwf Hsl Hoff Hcap H.
  destruct (slots_values s self vs Hwf Hsl) as [Hlen _].
  assert (Hthis : this < length (objs s)) by (eapply lookup_lt_Some; eauto).
  destruct (buffer (data self)) as [b|] eqn:Hb.
  2:{ destruct (vec_wf_null s self Hwf Hb). lia. }
  destruct (vec_wf_block s self b Hwf Hb) as (l & Hh & Hl & _).
  assert (Hbl : b < length (heap s)) by (eapply lookup_lt_Some; eauto).
  pose proof (wf_block_shape s self vs b l Hwf Hsl Hb Hh) as Hshape.
  destruct vs as [|vl vs0 _] using rev_ind; [cbn in Hlen; lia|].
  rewrite length_app in Hlen; cbn [length] in Hlen.
  set (n := size self) in *. set (cap := capacity (data self)) in *.
  set (R := replicate (cap - S n) (@None T)).
  assert (Hl0 : l = map Some vs0 ++ [Some vl] ++ [None] ++ R).
  { rewrite Hshape, map_app, <- app_assoc. cbn [map app]. f_equal. f_equal.
    unfold R. replace (cap - n) with (S (cap - S n)) by lia. reflexivity. }
  unfold Emplace in H. rewrite (bind_ok _ _ _ _ _ (get_obj_run _ _ _ Hself)) in H.
  fold n cap in H.
  rewrite (proj2 (Nat.ltb_ge n offset)) in H by lia.
  rewrite (proj2 (Nat.eqb_neq offset n)) in H by lia.
  rewrite (proj2 (Nat.eqb_neq n cap)) in H by lia.
  unfold vend, vbegin, GetAddress, ptr_sub, ptr_add in H. rewrite Hb in H. cbn [pblk poff Nat.add] in H.
  fold n in H.
  (* last <- *(end() - 1) *)
  assert (Hvl : l !! (n - 1) = Some (Some vl)).
  { rewrite Hl0, app_assoc, lookup_app_l by (rewrite length_app, length_map; cbn; lia).
    rewrite lookup_app_r by (rewrite length_map; lia). rewrite length_map.
    replace (n - 1 - length vs0) with 0 by lia. reflexivity. }
  rewrite (bind_ok _ _ _ _ _ (read_at_run s b l (n - 1) vl Hh Hvl)) in H.
  (* new (end()) T(std::move(last)) *)
  apply bind_ok_inv in H as ([] & s1 & H1 & H).
  assert (Hn : l !! n = Some None).
  { rewrite Hl0, !app_assoc, lookup_app_l by (rewrite !length_app, length_map; cbn; lia).
    rewrite lookup_app_r by (rewrite length_app, length_map; cbn; lia).
    rewrite length_app, length_map. cbn [length]. replace (n - (length vs0 + 1)) with 0 by lia.
    reflexivity. }
  rewrite (construct_at_run tr s b l n None MoveC vl Hh Hn) in H1.
  destruct (throws _ _ _); [discriminate|]. injection H1 as <-.
  (* the moved-from last element *)
  apply bind_ok_inv in H as ([] & s2 & H2 & H).
  unfold leave_moved_from in H2.
  rewrite (put_slot_run _ b (<[n := Some vl]> l)) in H2
    by (cbn [heap]; now apply list_lookup_insert_eq).
  injection H2 as Hs2.
  set (l2 := <[n - 1 := Some (moved_from tr vl)]> (<[n := Some vl]> l)).
  assert (Hb2 : heap s2 !! b = Some (mk_block true l2)).
  { rewrite <- Hs2. cbn [heap]. apply list_lookup_insert_eq. now rewrite length_insert. }
  assert (Ho2 : objs s2 = objs s) by (rewrite <- Hs2; reflexivity).
  assert (Hbl2 : b < length (heap s2)) by (eapply lookup_lt_Some; eauto).
  clear Hs2.
  assert (Hl2 : l2 = map Some vs0 ++ [Some (moved_from tr vl); Some vl] ++ R).
  { unfold l2. rewrite Hl0.
    assert (E1 : <[n := Some vl]> (map Some vs0 ++ [Some vl] ++ [None] ++ R)
                 = map Some vs0 ++ [Some vl] ++ [Some vl] ++ R).
    { replace n with (length (map Some vs0 ++ [Some vl]) + 0)
        by (rewrite length_app, length_map; cbn; lia).
      rewrite app_assoc, insert_app_r, <- app_assoc. reflexivity. }
    rewrite E1. replace (n - 1) with (length (map Some vs0) + 0) by (rewrite length_map; lia).
    rewrite insert_app_r. reflexivity. }
  (* std::move_backward(begin() + offset, end() - 1, end()) *)
  apply bind_ok_inv in H as ([] & s3 & H3 & H).
  set (ws := drop offset vs0).
  assert (Hm : offset + length ws = n - 1) by (unfold ws; rewrite length_drop; lia).
  destruct (move_backward_ok tr s2 s3 b l2 offset ws (moved_from tr vl) Hb2) as [Ho3 (y & Hh3)].
  { rewrite Hm, Hl2, lookup_app_r by (rewrite length_map; lia).
    rewrite length_map. replace (n - 1 - length vs0) with 0 by lia. reflexivity. }
  { intros j w Hj. rewrite Hl2, lookup_app_l by (rewrite length_map; unfold ws in Hj;
      apply lookup_lt_Some in Hj; rewrite length_drop in Hj; lia).
    rewrite lookup_map_eq. unfold ws in Hj. rewrite lookup_drop in Hj. now rewrite Hj. }
  { rewrite Hm. replace (S (n - 1)) with n by lia. exact H3. }
  set (l3 := list_inserts offset (Some y :: map Some ws) l2) in Hh3.
  (* T(args...) *)
  apply bind_ok_inv in H as (tmp & s4 & H4 & H).
  destruct (make_temp_ok tr k value tmp s3 s4 H4) as (-> & Hh4 & Ho4).
  unfold raw_index in H. fold cap in H. rewrite (proj2 (Nat.ltb_lt offset cap)) in H by lia.
  rewrite Hb in H. rewrite (bind_ok _ _ _ _ _ (ret_run _ s4)) in H.
  (* data_[offset] = std::move(tmp) *)
  apply bind_ok_inv in H as ([] & s5 & H5 & H). apply catch_ok_inv in H5.
  assert (Hb4 : heap s4 !! b = Some (mk_block true l3)).
  { rewrite Hh4, Hh3. now apply list_lookup_insert_eq. }
  assert (Hl3o : l3 !! offset = Some (Some y)).
  { unfold l3. cbn [list_inserts]. apply list_lookup_insert_eq.
    rewrite length_inserts, Hl2, !length_app, length_map. cbn. lia. }
  rewrite (assign_at_run tr s4 b l3 offset y MoveA value Hb4 Hl3o) in H5.
  destruct (throws _ _ _); [discriminate|]. injection H5 as <-.
  (* the temporary's destruction, ++size_, return begin() + offset *)
  apply bind_ok_inv in H as ([] & s6 & H6 & H). unfold destroy_temp, emit in H6.
  injection H6 as <-. cbn [heap objs log tick] in H.
  assert (Ho6 : objs s4 !! this = Some self) by (rewrite Ho4, Ho3, Ho2; exact Hself).
  erewrite bind_ok in H by (apply set_size_run; cbn [objs]; exact Ho6).
  rewrite ret_run in H. injection H as <- <-. cbn [heap objs].
  set (vs' := take offset (vs0 ++ [vl]) ++ value :: drop offset (vs0 ++ [vl])).
  assert (Hslots : <[offset := Some value]> l3 = map Some vs' ++ replicate (cap - S n) None).
  { unfold l3, vs'. rewrite Hl2.
    rewrite take_app_le, drop_app_le by lia. fold ws. fold R.
    rewrite <- (take_drop offset vs0) at 1. fold ws.
    set (P := take offset vs0). rewrite map_app, <- app_assoc.
    assert (Hpl : offset = length (map Some P) + 0) by (unfold P; rewrite length_map, length_take; lia).
    rewrite Hpl, list_inserts_app_r.
    assert (E2 : map Some ws ++ [Some (moved_from tr vl); Some vl] ++ R
                 = (map Some ws ++ [Some (moved_from tr vl)]) ++ [Some vl] ++ R)
      by (rewrite <- app_assoc; reflexivity).
    rewrite E2, list_inserts_0_r by (cbn [length]; rewrite length_app, length_map; cbn; lia).
    rewrite insert_app_r. rewrite !map_app. simpl. rewrite !map_app. simpl.
    rewrite <- !app_assoc. simpl. rewrite <- !app_assoc. reflexivity. }
  split; [rewrite Ho4, Ho3, Ho2; reflexivity|].
  destruct (vec_wf_shape (mk_state (<[b := mk_block true (<[offset := Some value]> l3)]> (heap s4))
              (<[this := mk_vec (data self) (S n)]> (objs s4))
              ((log s4 ++ [EAssign (mk_ptr (Some b) offset) MoveA]) ++ [ETempDestroy])
              (tick_step (assign_nothrow tr MoveA) (tick s4)))
              (mk_vec (data self) (S n)) b vs' (cap - S n)) as [Hw Hs];
    [exact Hb|cbn; unfold vs'; rewrite length_app, length_take, length_app; cbn [length];
       rewrite length_drop, length_app; cbn [length]; fold cap; lia
    |unfold vs'; rewrite length_app, length_take, length_app; cbn [length];
       rewrite length_drop, length_app; cbn [length]; cbn [size]; lia
    |cbn [heap]; rewrite list_lookup_insert_eq by (rewrite Hh4, Hh3, !length_insert; exact Hbl2);
       now rewrite Hslots|].
  split; [exact Hw|]. split; [exact Hs|].
  split; [unfold vbegin, GetAddress, ptr_add; rewrite Hb; reflexivity|].
  assert (Hp : mk_ptr (Some b) offset = ptr_add (vbegin (mk_vec (data self) (S n))) offset)
    by (unfold vbegin, GetAddress, ptr_add; cbn [data]; rewrite Hb; reflexivity).
  rewrite Hp at 1.
  apply (read_slot (mk_state (<[b := mk_block true (<[offset := Some value]> l3)]> (heap s4))
              (<[this := mk_vec (data self) (S n)]> (objs s4))
              ((log s4 ++ [EAssign (mk_ptr (Some b) offset) MoveA]) ++ [ETempDestroy])
              (tick_step (assign_nothrow tr MoveA) (tick s4))) (mk_vec (data self) (S n)) vs'); auto.
  unfold vs'. rewrite lookup_app_r; rewrite length_take, length_app; cbn [length]; [|lia].
  replace (offset - Nat.min offset (length vs0 + 1)) with 0 by lia. reflexivity.
Qed.

(** A successful [Emplace] at an interior position of a vector with spare
    capacity, its argument a value that is not an element of the vector
    (no reference into the vector, which the shifting would overwrite),
    inserts the value there: the elements before it stay, the value
    follows, then the rest, one slot further; the size grows by one and the
    returned iterator points at the new element. *)
Theorem emplace_in_place_inserts s this self vs offset k value p s' :
  objs s !! this = Some self -> vec_wf s self = true -> vec_slots s self = map Some vs ->
  offset < size self -> size self < capacity (data self) ->
  Emplace tr this offset k (AVal value) s = Ok p s' ->
  objs s' = <[this := mk_vec (data self) (S (size self))]> (objs s) /\
  vec_wf s' (mk_vec (data self) (S (size self))) = true /\
  vec_slots s' (mk_vec (data self) (S (size self))) = map Some (take offset vs ++ value :: drop offset vs) /\
  p = ptr_add (vbegin self) offset /\ read_at p s' = Ok value s'.
Proof. exact (emplace_in_place_run s this self vs offset k value p s'). Qed.

End EmplaceInPlace.

Section TransferRun.
Context {T : Type} (tr : traits T).
Implicit Types (s : state T) (l : list (option T)) (ws : list T).

(** A transfer that returns: the elements are built at [c] in block [nb];
    the source block keeps its length, its slots outside the range, and a
    live object in every slot of the range. *)
Lemma transfer_ok s ob os a nb ns c ws cnt s' :
  length ws = cnt -> ob <> nb -> heap s !! ob = Some (mk_block true os) -> heap s !! nb = Some (mk_block true ns) ->
  (forall j v, ws !! j = Some v -> os !! (a + j) = Some (Some v)) ->
  c + length ws <= length ns ->
  TransferDataSafely tr (mk_ptr (Some ob) a) cnt (mk_ptr (Some nb) c) s = Ok tt s' ->
  objs s' = objs s /\
  exists os', heap s' = <[nb := mk_block true (list_inserts c (map Some ws) ns)]>
                          (<[ob := mk_block true os']> (heap s)) /\
    length os' = length os /\
    (forall j, j < a \/ a + length ws <= j -> os' !! j = os !! j) /\
    (forall j, a <= j < a + length ws -> exists y, os' !! j = Some (Some y)).
Proof.
  intros <- Hne Hob Hnb Hv Hc H.
  assert (Hin : forall j, a <= j < a + length ws -> exists y, os !! j = Some (Some y)).
  { intros j Hj. destruct (lookup_lt_is_Some_2 ws (j - a)) as [w Hw]; [lia|].
    exists w. replace j with (a + (j - a)) by lia. exact (Hv _ _ Hw). }
  assert (Hlen : forall j, a <= j < a + length ws -> j < length os).
  { intros j Hj. destruct (Hin j Hj) as [y Hy]. eapply lookup_lt_Some; eauto. }
  unfold TransferDataSafely in H. destruct (nothrow_move tr || negb (copyable tr)).
  - rewrite (uninitialized_move_n_run tr s ob os a nb ns c ws Hne Hob Hnb Hv Hc) in H.
    destruct (if nothrow_move tr then None else _); [discriminate|]. injection H as <-.
    split; [reflexivity|].
    exists (list_inserts a (map (fun v => Some (moved_from tr v)) ws) os). split; [reflexivity|].
    split; [apply length_inserts|]. split.
    + intros j [Hj|Hj].
      * apply list_lookup_inserts_lt. exact Hj.
      * apply list_lookup_inserts_ge. rewrite length_map. exact Hj.
    + intros j Hj. rewrite list_lookup_inserts by (rewrite ?length_map; auto).
      destruct (lookup_lt_is_Some_2 ws (j - a)) as [w Hw]; [lia|].
      exists (moved_from tr w). rewrite lookup_map_eq, Hw. reflexivity.
  - rewrite (uninitialized_copy_n_run tr s ob os a nb ns c ws Hne Hob Hnb Hv Hc) in H.
    destruct (first_throw _ _ _); [discriminate|]. injection H as <-.
    split; [reflexivity|]. exists os. split.
    + cbn [heap]. rewrite (list_insert_id (heap s) ob _ Hob). reflexivity.
    + split; [reflexivity|]. split; [reflexivity|]. exact Hin.
Qed.

(** The new buffer of a grown [Emplace]: the prefix, the new element, the
    suffix, then raw slots. *)
Lemma grown_insert_slots vs o (value : T) N :
  o < length vs -> length vs < N ->
  list_inserts (o + 1) (map Some (drop o vs))
    (list_inserts 0 (map Some (take o vs)) (<[o := Some value]> (replicate N None)))
  = map Some (take o vs ++ value :: drop o vs) ++ replicate (N - S (length vs)) None.
Proof.
  intros Ho HN.
  set (X := replicate (length vs - o) (@None T) ++ replicate (N - S (length vs)) None).
  assert (HR : replicate N (@None T) = replicate o None ++ None :: X).
  { unfold X. rewrite <- replicate_add. rewrite <- replicate_S. rewrite <- replicate_add.
    f_equal. lia. }
  rewrite HR.
  pose proof (insert_app_r (replicate o (@None T)) (None :: X) 0 (Some value)) as E1.
  rewrite length_replicate, Nat.add_0_r in E1. rewrite E1. cbn [list_insert insert].
  rewrite list_inserts_0_r by (rewrite length_map, length_replicate, length_take; lia).
  replace (map Some (take o vs) ++ Some value :: X) with ((map Some (take o vs) ++ [Some value]) ++ X)
    by (rewrite <- app_assoc; reflexivity).
  replace (o + 1) with (length (map Some (take o vs) ++ [Some value]) + 0)
    by (rewrite length_app, length_map, length_take; cbn; lia).
  rewrite list_inserts_app_r. unfold X.
  rewrite list_inserts_0_r by (rewrite length_map, length_replicate, length_drop; lia).
  rewrite map_app. cbn [map]. rewrite <- !app_assoc. reflexivity.
Qed.

End TransferRun.

Section EmplaceGrown.
Context {T : Type} (tr : traits T).
Implicit Types (s : state T) (vs : list T).

Lemma emplace_grown_run s this self vs offset k value p s' :
  objs s !! this = Some self -> vec_wf s self = true -> vec_slots s self = map Some vs ->
  offset < size self -> size self = capacity (data self) ->
  Emplace tr this offset k (AVal value) s = Ok p s' ->
  let self' := mk_vec (mk_raw (Some (length (heap s))) (2 * size self)) (S (size self)) in
  objs s' = <[this := self']> (objs s) /\
  vec_wf s' self' = true /\
  vec_slots s' self' = map Some (take offset vs ++ value :: drop offset vs) /\
  p = ptr_add (vbegin self') offset /\ read_at p s' = Ok value s'.
Proof.
  intros Hself Hwf Hsl Hoff Hfull H self'.
  destruct (slots_values s self vs Hwf Hsl) as [Hlen [[Hb0 Hs0]|(ob & l & Hb & Hh & Hv)]]; [lia|].
  assert (Hobl : ob < length (heap s)) by (eapply lookup_lt_Some; eauto).
  remember (length (heap s)) as nb eqn:Enb.
  remember (size self) as n eqn:En.
  unfold Emplace in H. rewrite (bind_ok _ _ _ _ _ (get_obj_run _ _ _ Hself)) in H.
  rewrite <- En in H.
  replace (n <? offset) with false in H by (symmetry; apply Nat.ltb_ge; lia).
  replace (offset =? n) with false in H by (symmetry; apply Nat.eqb_neq; lia).
  rewrite <- Hfull, Nat.eqb_refl in H.
  grow_alloc H.
  replace (if n =? 0 then 1 else n * 2) with (2 * n) in H
    by (destruct (Nat.eqb_spec n 0); lia).
  rewrite <- Enb in H.
  apply bind_ok_inv in H as ([] & s2 & H1 & H2). apply catch_ok_inv in H1.
  unfold raw_plus in H1. cbn [capacity buffer] in H1.
  replace (offset <=? 2 * n) with true in H1 by (symmetry; apply Nat.leb_le; lia).
  rewrite (bind_ok _ _ _ _ _ (ret_run _ _)) in H1.
  (* new (new_data + offset) T(args...) *)
  apply bind_ok_inv in H1 as ([] & s0 & Hc & H1).
  (* the suffix is moved up to slot [n] of the new block, which therefore
     has its [2 * n] slots *)
  assert (Hslots : alloc_slots tr (2 * n) = 2 * n).
  { pose proof (construct_arg_has tr _ _ _ _ _ Hc) as [_ HL0].
    pose proof H1 as H1'. apply bind_ok_inv in H1' as ([] & s1' & HT1' & HT2').
    apply catch_ok_inv in HT1', HT2'.
    apply transfer_has in HT1' as [HL1 _]. apply transfer_has in HT2' as [_ Hs2].
    specialize (Hs2 (n - offset - 1) ltac:(lia)).
    unfold ptr_add, GetAddress in Hs2. cbn [pblk poff buffer] in Hs2. rewrite Enb in Hs2.
    apply (has_slot_fresh s (2 * n) (alloc_slots tr (2 * n)) s1') in Hs2;
      [|rewrite HL1; exact HL0].
    apply (grow_slots tr (2 * n) n); lia. }
  rewrite Hslots in Hc. change (alloc_state_sl s (2 * n) (2 * n)) with (alloc_state s (2 * n)) in Hc.
  cbn [construct_arg] in Hc.
  assert (Hnb0 : heap (alloc_state s (2 * n)) !! nb = Some (mk_block true (replicate (2 * n) None)))
    by (subst nb; apply lookup_alloc).
  rewrite (construct_at_run tr _ nb _ offset None k value Hnb0) in Hc
    by (apply lookup_replicate_2; lia).
  destruct (throws _ _ _); [discriminate|]. injection Hc as Hs0.
  set (ns0 := <[offset := Some value]> (replicate (2 * n) (@None T))) in *.
  assert (Hh0 : heap s0 = <[nb := mk_block true ns0]> (heap (alloc_state s (2 * n))))
    by (rewrite <- Hs0; reflexivity).
  assert (Ho0 : objs s0 = objs s) by (rewrite <- Hs0; reflexivity).
  clear Hs0.
  (* the prefix *)
  apply bind_ok_inv in H1 as ([] & s1 & HT1 & HT2). apply catch_ok_inv in HT1.
  apply catch_ok_inv in HT2.
  unfold vbegin, GetAddress in HT1, HT2. rewrite Hb in HT1, HT2. cbn [buffer] in HT1, HT2.
  assert (Hnbl : nb < length (heap (alloc_state s (2 * n)))) by (eapply lookup_lt_Some; exact Hnb0).
  assert (Hob0 : heap s0 !! ob = Some (mk_block true l)).
  { rewrite Hh0. rewrite list_lookup_insert_ne by lia. subst nb. rewrite lookup_alloc_old by lia.
    exact Hh. }
  assert (Hnb1 : heap s0 !! nb = Some (mk_block true ns0)).
  { rewrite Hh0. apply list_lookup_insert_eq. exact Hnbl. }
  destruct (transfer_ok tr s0 ob l 0 nb ns0 0 (take offset vs) offset s1
              ltac:(rewrite length_take; lia) ltac:(lia) Hob0 Hnb1) as (Ho1 & os1 & Hh1 & Hl1 & Hout1 & Hin1).
  { intros j v Hj. rewrite lookup_take_Some in Hj. destruct Hj as [Hj _]. exact (Hv j v Hj). }
  { unfold ns0. rewrite length_insert, length_replicate, length_take. lia. }
  { exact HT1. }
  set (ns1 := list_inserts 0 (map Some (take offset vs)) ns0) in *.
  (* the suffix *)
  unfold ptr_add in HT2. cbn [pblk poff] in HT2. rewrite !Nat.add_0_l in HT2.
  assert (Hl0 : ob < length (heap s0)) by (eapply lookup_lt_Some; exact Hob0).
  assert (Hob1 : heap s1 !! ob = Some (mk_block true os1)).
  { rewrite Hh1, list_lookup_insert_ne by lia. apply list_lookup_insert_eq. exact Hl0. }
  assert (Hnb2 : heap s1 !! nb = Some (mk_block true ns1)).
  { rewrite Hh1. apply list_lookup_insert_eq. rewrite length_insert.
    eapply lookup_lt_Some; exact Hnb1. }
  destruct (transfer_ok tr s1 ob os1 offset nb ns1 (offset + 1) (drop offset vs) (n - offset) s2
              ltac:(rewrite length_drop; lia) ltac:(lia) Hob1 Hnb2) as (Ho2 & os2 & Hh2 & Hl2 & Hout2 & Hin2).
  { intros j v Hj. rewrite Hout1 by (rewrite length_take; lia). rewrite lookup_drop in Hj.
    exact (Hv _ _ Hj). }
  { unfold ns1, ns0. rewrite length_inserts, length_insert, length_replicate, length_drop. lia. }
  { exact HT2. }
  (* std::destroy_n(data_.GetAddress(), size_) *)
  assert (Hob2 : heap s2 !! ob = Some (mk_block true os2)).
  { rewrite Hh2, list_lookup_insert_ne by lia. apply list_lookup_insert_eq.
    eapply lookup_lt_Some; exact Hob1. }
  assert (Hall : forall j, j < n -> exists x, os2 !! (0 + j) = Some (Some x)).
  { intros j Hj. rewrite Nat.add_0_l. destruct (Nat.lt_ge_cases j offset) as [Hj'|Hj'].
    - rewrite Hout2 by lia. apply Hin1. rewrite length_take. lia.
    - apply Hin2. rewrite length_drop. lia. }
  unfold GetAddress in H2. rewrite Hb in H2.
  rewrite (bind_ok _ _ _ _ _ (destroy_n_run s2 ob os2 0 n Hob2 Hall)) in H2.
  cbn [raw_move_assign] in H2.
  assert (Hthis : objs s2 !! this = Some self) by (rewrite Ho2, Ho1, Ho0; exact Hself).
  erewrite bind_ok in H2 by (apply set_data_run; cbn [objs]; exact Hthis).
  unfold raw_dtor in H2. cbn [buffer Deallocate] in H2.
  rewrite (bind_ok _ _ _ _ _ (ret_run _ _)) in H2.
  assert (Hthl : this < length (objs s2)) by (eapply lookup_lt_Some; exact Hthis).
  erewrite bind_ok in H2 by (apply set_size_run; cbn [objs]; apply list_lookup_insert_eq; exact Hthl).
  erewrite bind_ok in H2
    by (apply get_obj_run; cbn [objs]; apply list_lookup_insert_eq; rewrite length_insert; exact Hthl).
  rewrite ret_run in H2. injection H2 as <- <-.
  replace (n + (n + 0)) with (2 * n) by lia. rewrite list_insert_insert_eq.
  change (mk_vec (mk_raw (Some nb) (2 * n)) (S n)) with self'.
  match goal with |- _ /\ _ /\ _ /\ _ /\ read_at _ ?st = _ => set (sf := st) end.
  set (vs' := take offset vs ++ value :: drop offset vs).
  assert (Hlen' : length vs' = S n)
    by (unfold vs'; rewrite length_app, length_take, length_cons, length_drop; lia).
  assert (Hhf : heap sf !! nb = Some (mk_block true (map Some vs' ++ replicate (2 * n - S n) None))).
  { unfold sf. cbn [heap]. rewrite list_lookup_insert_ne by lia. rewrite Hh2.
    rewrite list_lookup_insert_eq by (rewrite length_insert; eapply lookup_lt_Some; exact Hnb2).
    unfold ns1, ns0, vs'. rewrite grown_insert_slots by lia. rewrite Hlen. reflexivity. }
  destruct (vec_wf_shape sf self' nb vs' (2 * n - S n) eq_refl ltac:(cbn; lia) ltac:(cbn; lia) Hhf)
    as [Hwf' Hsl'].
  split; [unfold sf; cbn [objs]; rewrite Ho2, Ho1, Ho0; reflexivity|].
  split; [exact Hwf'|]. split; [exact Hsl'|]. split; [reflexivity|].
  apply (read_slot sf self' vs' offset value Hwf' Hsl').
  unfold vs'. rewrite lookup_app_r by (rewrite length_take; lia).
  rewrite length_take, Nat.min_l, Nat.sub_diag by lia. reflexivity.
Qed.

(** A successful [Emplace] at an interior position of a full vector, its
    argument a value that is not an element of the vector, moves
    it to a fresh buffer of twice the size: the elements before the position,
    the value, then the rest; the size grows by one and the returned iterator
    points at the new element. *)
Theorem emplace_growth_inserts s this self vs offset k value p s' :
  objs s !! this = Some self -> vec_wf s self = true -> vec_slots s self = map Some vs ->
  offset < size self -> size self = capacity (data self) ->
  Emplace tr this offset k (AVal value) s = Ok p s' ->
  let self' := mk_vec (mk_raw (Some (length (heap s))) (2 * size self)) (S (size self)) in
  objs s' = <[this := self']> (objs s) /\
  vec_wf s' self' = true /\
  vec_slots s' self' = map Some (take offset vs ++ value :: drop offset vs) /\
  p = ptr_add (vbegin self') offset /\ read_at p s' = Ok value s'.
Proof. exact (emplace_grown_run s this self vs offset k value p s'). Qed.

End EmplaceGrown.

Section EraseRun.
Context {T : Type} (tr : traits T).
Implicit Types (s : state T) (l : list (option T)) (vs : list T).

(** An [Erase] that returns: the vector keeps its buffer, holds [vs]
    without its element at [offset], and the iterator points at [offset]. *)
Lemma erase_ok_run s this self vs offset q s' :
  objs s !! this = Some self -> vec_wf s self = true -> vec_slots s self = map Some vs ->
  offset < size self -> Erase tr this offset s = Ok q s' ->
  objs s' = <[this := mk_vec (data self) (size self - 1)]> (objs s) /\
  vec_wf s' (mk_vec (data self) (size self - 1)) = true /\
  vec_slots s' (mk_vec (data self) (size self - 1)) = map Some (delete offset vs) /\
  q = ptr_add (vbegin self) offset.
Proof.
  intros Hself Hwf Hsl Hp H.
  pose proof (vec_wf_size s self Hwf) as Hcap.
  destruct (slots_values s self vs Hwf Hsl) as [Hlen [[_ Hs0]|(b & l & Hbuf & Hb & Hsrc)]]; [lia|].
  pose proof (wf_block_shape s self vs b l Hwf Hsl Hbuf Hb) as Hl.
  destruct (lookup_lt_is_Some_2 vs offset ltac:(lia)) as [x0 Hx0].
  set (ws := drop (S offset) vs).
  assert (Hws_len : length ws = size self - S offset) by (unfold ws; rewrite length_drop; lia).
  assert (Hws : forall j w, ws !! j = Some w -> l !! (S offset + j) = Some (Some w)).
  { intros j w Hj. unfold ws in Hj. rewrite lookup_drop in Hj. auto. }
  pose proof (std_move_run tr s b l offset x0 ws Hb (Hsrc offset x0 Hx0) Hws) as Hm.
  rewrite Hws_len in Hm.
  assert (Hptrs : std_move tr (ptr_add (vbegin self) (offset + 1)) (vend self) (ptr_add (vbegin self) offset)
                = std_move tr (mk_ptr (Some b) (S offset)) (mk_ptr (Some b) (S offset + (size self - S offset)))
                              (mk_ptr (Some b) offset)).
  { unfold vbegin, vend, GetAddress, ptr_add. rewrite Hbuf. cbn [pblk poff].
    replace (0 + (offset + 1)) with (S offset) by lia. replace (0 + offset) with offset by lia.
    now replace (0 + size self) with (S offset + (size self - S offset)) by lia. }
  unfold Erase in H. rewrite (bind_ok _ _ _ _ _ (get_obj_run s this self Hself)), Hptrs in H.
  destruct (if nothrow_move_assign tr then None else _).
  - destruct Hm as [s1 Hm]. rewrite (bind_exn _ _ _ _ Hm) in H. discriminate.
  - destruct Hm as [y Hm]. rewrite (bind_ok _ _ _ _ _ Hm) in H.
    set (A := map Some (take offset vs ++ ws)).
    set (R := replicate (capacity (data self) - size self) (@None T)).
    assert (HA : length A = size self - 1)
      by (unfold A; rewrite length_map, length_app, length_take; lia).
    assert (HL : list_inserts offset (map Some ws ++ [Some y]) l = (A ++ [Some y]) ++ R).
    { rewrite Hl. fold R. rewrite <- (take_drop offset vs) at 1.
      rewrite (drop_S vs x0 offset Hx0). fold ws.
      rewrite map_app, <- app_assoc. cbn [map].
      replace offset with (length (map Some (take offset vs)) + 0) at 1
        by (rewrite length_map, length_take; lia).
      rewrite list_inserts_app_r.
      change (Some x0 :: map Some ws ++ R) with ((Some x0 :: map Some ws) ++ R).
      rewrite list_inserts_0_r by (rewrite length_app, length_map; cbn [length]; rewrite length_map; lia).
      unfold A. rewrite map_app, <- !app_assoc. reflexivity. }
    assert (Hlast : list_inserts offset (map Some ws ++ [Some y]) l !! (size self - 1) = Some (Some y)).
    { rewrite HL, lookup_app_l by (rewrite length_app, HA; cbn [length]; lia).
      rewrite lookup_app_r by lia. rewrite HA, Nat.sub_diag. reflexivity. }
    assert (Hbl : b < length (heap s)) by (eapply lookup_lt_Some; exact Hb).
    unfold vend, GetAddress, ptr_sub, ptr_add in H. rewrite Hbuf in H. cbn [pblk poff Nat.add] in H.
    erewrite bind_ok in H
      by (apply (destroy_at_run _ b (list_inserts offset (map Some ws ++ [Some y]) l) (size self - 1) y); [cbn [heap]; apply list_lookup_insert_eq; exact Hbl | exact Hlast]).
    erewrite bind_ok in H by (apply (set_size_run _ this self); exact Hself).
    rewrite ret_run in H. injection H as <- <-.
    split; [reflexivity|].
    assert (Hdel : map Some (delete offset vs) = A) by (unfold A; rewrite delete_take_drop; reflexivity).
    assert (Hfin : <[size self - 1 := None]> (list_inserts offset (map Some ws ++ [Some y]) l)
                   = map Some (delete offset vs) ++ replicate (capacity (data self) - (size self - 1)) None).
    { replace (capacity (data self) - (size self - 1))
        with (S (capacity (data self) - size self)) by lia.
      rewrite HL, insert_app_l by (rewrite length_app, HA; cbn [length]; lia).
      rewrite <- HA, <- (Nat.add_0_r (length A)), insert_app_r. cbn [list_insert insert].
      rewrite Hdel, <- app_assoc. reflexivity. }
    match goal with |- vec_wf ?st _ = true /\ _ =>
      destruct (vec_wf_shape st (mk_vec (data self) (size self - 1)) b (delete offset vs)
                  (capacity (data self) - (size self - 1)) Hbuf)
        as [Hwf' Hsl'] end.
    + cbn [data]. rewrite length_delete by (rewrite Hx0; eauto). lia.
    + cbn [size]. rewrite length_delete by (rewrite Hx0; eauto). lia.
    + cbn [heap]. rewrite list_insert_insert_eq. rewrite Hfin.
      apply list_lookup_insert_eq. exact Hbl.
    + split; [exact Hwf'|]. split; [exact Hsl'|].
      unfold vbegin, GetAddress, ptr_add. rewrite Hbuf. reflexivity.
Qed.

End EraseRun.

Section EmplaceErase.
Context {T : Type} (tr : traits T).
Implicit Types (s : state T) (vs : list T).

(** Any [Emplace] that returns, at a position in [[0, size_]]. *)
Lemma emplace_ok_shape s this self vs offset k value p s1 :
  objs s !! this = Some self -> vec_wf s self = true -> vec_slots s self = map Some vs ->
  offset <= size self -> Emplace tr this offset k (AVal value) s = Ok p s1 ->
  exists self1, objs s1 = <[this := self1]> (objs s) /\ size self1 = S (size self) /\
    vec_wf s1 self1 = true /\ vec_slots s1 self1 = map Some (take offset vs ++ value :: drop offset vs) /\
    p = ptr_add (vbegin self1) offset.
Proof.
  intros Hself Hwf Hsl Hoff H.
  destruct (slots_values s self vs Hwf Hsl) as [Hlen _].
  pose proof (vec_wf_size s self Hwf) as Hcap.
  destruct (Nat.eq_dec offset (size self)) as [->|Hne].
  - destruct (emplace_end_run tr this k value s self vs p s1 Hself Hwf Hsl H)
      as (self1 & Ho & Hs & Hw & Hv & Hp & _).
    exists self1. rewrite take_ge, drop_ge by lia. auto.
  - destruct (Nat.eq_dec (size self) (capacity (data self))) as [Hfull|Hsp].
    + pose proof (emplace_grown_run tr s this self vs offset k value p s1 Hself Hwf Hsl
                    ltac:(lia) Hfull H) as Hg.
      cbv zeta in Hg. destruct Hg as (Ho & Hw & Hv & Hp & _).
      eexists. split; [exact Ho|]. split; [reflexivity|]. auto.
    + destruct (emplace_in_place_run tr s this self vs offset k value p s1 Hself Hwf Hsl
                  ltac:(lia) ltac:(lia) H) as (Ho & Hw & Hv & Hp & _).
      eexists. split; [exact Ho|]. split; [reflexivity|]. auto.
Qed.

(** [Insert]/[Emplace] of a value that is not an element of the vector, at
    a position in [[0, size_]], followed by [Erase] at the same position gives back the original elements and size, and both
    return the same iterator, whether or not the insertion grew the buffer. *)
Theorem insert_erase_roundtrip s this self vs offset k value p s1 q s2 :
  objs s !! this = Some self -> vec_wf s self = true -> vec_slots s self = map Some vs ->
  offset <= size self ->
  Emplace tr this offset k (AVal value) s = Ok p s1 -> Erase tr this offset s1 = Ok q s2 ->
  q = p /\
  exists self2, objs s2 = <[this := self2]> (objs s) /\ size self2 = size self /\
    vec_wf s2 self2 = true /\ vec_slots s2 self2 = map Some vs.
Proof.
  intros Hself Hwf Hsl Hoff HE HR.
  destruct (slots_values s self vs Hwf Hsl) as [Hlen _].
  destruct (emplace_ok_shape s this self vs offset k value p s1 Hself Hwf Hsl Hoff HE)
    as (self1 & Ho1 & Hs1 & Hw1 & Hv1 & Hp1).
  assert (Hget : objs s1 !! this = Some self1).
  { rewrite Ho1. apply list_lookup_insert_eq. eapply lookup_lt_Some; eauto. }
  destruct (erase_ok_run tr s1 this self1 _ offset q s2 Hget Hw1 Hv1 ltac:(lia) HR)
    as (Ho2 & Hw2 & Hv2 & Hq).
  split; [congruence|].
  exists (mk_vec (data self1) (size self1 - 1)).
  split; [rewrite Ho2, Ho1, list_insert_insert_eq; reflexivity|].
  split; [cbn [size]; lia|]. split; [exact Hw2|].
  rewrite Hv2. f_equal.
  replace offset with (length (take offset vs)) at 1 by (rewrite length_take; lia).
  rewrite delete_middle, take_drop. reflexivity.
Qed.

End EmplaceErase.

Section Edges.
Context {T : Type} (tr : traits T).
Implicit Types (s : state T).

(** Move-assigning a vector to itself ([v = std::move(v)]) changes nothing:
    each [std::exchange] first empties the field and then writes the old
    value back. *)
Theorem move_assign_self s this v :
  objs s !! this = Some v -> @move_assign T this this s = Ok tt s.
Proof.
  intros Hv. assert (Hl : this < length (objs s)) by (eapply lookup_lt_Some; eauto).
  unfold move_assign. do 10 obj_step.
  erewrite set_size_run by obj_lookup. cbn [heap objs log tick data size buffer capacity].
  rewrite !list_insert_insert_eq. destruct v as [[bf cp] sz]. cbn [buffer capacity size data].
  rewrite list_insert_id by exact Hv. now rewrite state_eta.
Qed.

(** [Resize] to the current size changes nothing: no allocation, no element
    constructed or destroyed. *)
Theorem resize_same_size s this self :
  objs s !! this = Some self -> vec_wf s self = true -> Resize tr this (size self) s = Ok tt s.
Proof.
  intros Hself Hwf. pose proof (vec_wf_size s self Hwf) as Hcap.
  unfold Resize. rewrite (bind_ok _ _ _ _ _ (get_obj_run _ _ _ Hself)), Nat.ltb_irrefl.
  assert (HR : Reserve tr this (size self) s = Ok tt s).
  { unfold Reserve. rewrite (bind_ok _ _ _ _ _ (get_obj_run _ _ _ Hself)).
    rewrite (proj2 (Nat.leb_le _ _) Hcap). apply ret_run. }
  rewrite (bind_ok _ _ _ _ _ HR), (bind_ok _ _ _ _ _ (get_obj_run _ _ _ Hself)), Nat.sub_diag.
  rewrite (bind_ok _ _ _ _ _ (value_construct_0 tr _ _)).
  rewrite (set_size_run _ _ _ _ Hself). destruct self as [d n]. cbn [data].
  rewrite list_insert_id by exact Hself. now rewrite state_eta.
Qed.

(** [Erase] of the last element has the same effect as [PopBack], and
    returns an iterator to the slot it emptied. *)
Theorem erase_last_is_pop_back s this self :
  objs s !! this = Some self -> 0 < size self ->
  Erase tr this (size self - 1) s = (PopBack this;; mret (ptr_add (vbegin self) (size self - 1))) s.
Proof.
  intros Hself Hpos.
  unfold Erase. rewrite (bind_ok _ _ _ _ _ (get_obj_run _ _ _ Hself)).
  unfold PopBack. rewrite bind_assoc, (bind_ok _ _ _ _ _ (get_obj_run _ _ _ Hself)).
  rewrite (proj2 (Nat.eqb_neq _ _)) by lia.
  unfold std_move, vbegin, vend, GetAddress, ptr_add, ptr_sub. cbn [pblk poff].
  replace (0 + (size self - 1 + 1)) with (0 + size self) by lia.
  rewrite Nat.ltb_irrefl, Nat.sub_diag. cbn [for_].
  rewrite (bind_ok _ _ _ _ _ (ret_run _ _)).
  replace (0 + size self - 1) with (0 + (size self - 1)) by lia.
  rewrite bind_assoc. reflexivity.
Qed.

(** Destroying the moved-from source of [Vector(Vector&&)] does nothing: no
    element is destroyed and no block is released, so the buffer, now owned by
    the new vector, is not freed twice. *)
Theorem moved_from_dtor_noop s other o :
  objs s !! other = Some o ->
  (v ← vec_move other; vec_dtor other;; mret v) s = @vec_move T other s.
Proof.
  intros Ho. assert (Hl : other < length (objs s)) by (eapply lookup_lt_Some; eauto).
  assert (Hm : vec_move other s =
                Ok (mk_vec (mk_raw (buffer (data o)) (capacity (data o))) (size o))
                   (mk_state (heap s) (<[other := mk_vec (mk_raw None 0) 0]> (objs s)) (log s) (tick s))).
  { unfold vec_move. do 3 obj_step. rewrite ret_run, list_insert_insert_eq. reflexivity. }
  rewrite Hm, (bind_ok _ _ _ _ _ Hm).
  unfold vec_dtor. rewrite bind_assoc. obj_step.
  cbn [vbegin GetAddress]. rewrite bind_assoc, (bind_ok _ _ _ _ _ (destroy_n_0 _ _)).
  unfold raw_dtor. cbn [buffer Deallocate]. rewrite (bind_ok _ _ _ _ _ (ret_run _ _)).
  apply ret_run.
Qed.

End Edges.

Section AppendExn.
Context {T : Type} (tr : traits T).
Implicit Types (s : state T) (l : list (option T)).

Lemma construct_then_exn {A} s b l i x k v (Rest : M T A) s' :
  heap s !! b = Some (mk_block true l) -> l !! i = Some x -> no_exn Rest ->
  (construct_at tr (mk_ptr (Some b) i) k v;; Rest) s = Exn s' ->
  heap s' = heap s /\ objs s' = objs s /\ log s' = log s.
Proof.
  intros Hb Hi HR H. apply bind_exn_inv in H as [H | (u & s1 & _ & H2)].
  - rewrite (construct_at_run tr _ _ _ _ x _ _ Hb Hi) in H.
    destruct (throws _ _ _); [|discriminate]. injection H as <-. auto.
  - exfalso. eapply no_exn_elim; eauto.
Qed.

(** Appending to a vector with spare capacity gives the strong guarantee:
    when the constructor of the new element throws, the heap, the object
    store and the log are as they were before the call. *)
Theorem push_in_place_exn_strong op this value s self s' :
  objs s !! this = Some self -> vec_wf s self = true -> size self < capacity (data self) ->
  push_back_op tr op this value s = Exn s' ->
  heap s' = heap s /\ objs s' = objs s /\ log s' = log s.
Proof.
  intros Hself Hwf Hlt H.
  destruct (buffer (data self)) as [b|] eqn:Hbuf.
  2:{ destruct (vec_wf_null s self Hwf Hbuf). lia. }
  destruct (vec_wf_block s self b Hwf Hbuf) as (l & Hb & Hlen & _ & _ & Hraw).
  assert (Hi : l !! size self = Some None) by (apply Hraw; lia).
  assert (Hg : (size self =? capacity (data self)) = false) by (apply Nat.eqb_neq; lia).
  assert (Hp : @raw_plus T (data self) (size self) s = Ok (mk_ptr (Some b) (size self)) s).
  { unfold raw_plus. rewrite (proj2 (Nat.leb_le _ _)) by lia. now rewrite Hbuf. }
  destruct op as [| |k]; cbn [push_back_op] in H.
  - unfold PushBack_copy in H.
    rewrite (bind_ok _ _ _ _ _ (get_obj_run _ _ _ Hself)), Hg, (bind_ok _ _ _ _ _ Hp) in H.
    eapply construct_then_exn; eauto. no_exn_tac.
  - unfold PushBack_move in H.
    rewrite (bind_ok _ _ _ _ _ (get_obj_run _ _ _ Hself)), Hg, (bind_ok _ _ _ _ _ Hp) in H.
    eapply construct_then_exn; eauto. no_exn_tac.
  - apply bind_exn_inv in H as [H | (? & ? & _ & H)]; [|rewrite ret_run in H; discriminate].
    unfold EmplaceBack in H.
    rewrite (bind_ok _ _ _ _ _ (get_obj_run _ _ _ Hself)), Hg, (bind_ok _ _ _ _ _ Hp) in H.
    eapply construct_then_exn; eauto. no_exn_tac.
Qed.

End AppendExn.

Section ReserveTwice.
Context {T : Type} (tr : traits T).
Implicit Types (s : state T).

(** The elements of a well-formed vector are values. *)
Lemma wf_has_values s v : vec_wf s v = true -> exists vs, vec_slots s v = map Some vs.
Proof.
  intros Hwf. destruct (buffer (data v)) as [b|] eqn:Hb.
  - destruct (vec_wf_block s v b Hwf Hb) as (l & Hh & Hlen & Hsz & Hlive & _).
    destruct (live_values l (size v) Hlive) as (vs & Hvs & Hl).
    exists vs. unfold vec_slots. rewrite Hb, Hh. cbn [blk_slots].
    apply list_eq. intros j. rewrite lookup_map_eq. destruct (decide (j < size v)).
    + rewrite lookup_take_lt by lia. destruct (lookup_lt_is_Some_2 vs j) as [w Hw]; [lia|].
      rewrite Hw, (Hl j w Hw). reflexivity.
    + rewrite lookup_take_ge by lia. rewrite (lookup_ge_None_2 vs j) by lia. reflexivity.
  - exists []. unfold vec_slots. now rewrite Hb.
Qed.

(** A second [Reserve(n)] right after a first one does nothing: the first
    leaves a capacity of at least [n], so the second returns at its
    [new_capacity <= Capacity()] test. *)
Theorem reserve_twice s this self n :
  objs s !! this = Some self -> vec_wf s self = true ->
  (Reserve tr this n;; Reserve tr this n) s = Reserve tr this n s.
Proof.
  intros Hself _.
  unfold mbind at 1, M_bind at 1.
  destruct (Reserve tr this n s) as [[] s'|s'| |] eqn:E; try reflexivity.
  destruct (Nat.le_gt_cases n (capacity (data self))) as [Hn|Hn].
  - (* the first call returns at once *)
    unfold Reserve in E |- *. rewrite (bind_ok _ _ _ _ _ (get_obj_run _ _ _ Hself)) in E.
    rewrite (proj2 (Nat.leb_le _ _) Hn) in E. injection E as <-.
    rewrite (bind_ok _ _ _ _ _ (get_obj_run _ _ _ Hself)).
    rewrite (proj2 (Nat.leb_le _ _) Hn). reflexivity.
  - destruct (Reserve_grow_ok tr s this self n s' Hself Hn E) as [Hs' _].
    unfold Reserve. rewrite (bind_ok _ _ _ _ _ (get_obj_run _ _ _ Hs')).
    cbn [data capacity]. rewrite Nat.leb_refl. reflexivity.
Qed.

End ReserveTwice.

Section EraseExn.
Context {T : Type} (tr : traits T).
Implicit Types (s : state T).

Lemma shape_lookup s b :
  shape s !! b = (fun blk => (blk_live blk, map slot_live (blk_slots blk))) <$> heap s !! b.
Proof. unfold shape. apply lookup_map_eq. Qed.

Lemma forallb_take_live n (l : list (option T)) :
  forallb slot_live (take n l) = forallb (fun x => x) (take n (map slot_live l)).
Proof. revert n. induction l as [|x l IH]; intros [|n]; cbn; auto. now rewrite IH. Qed.

Lemma forallb_drop_raw n (l : list (option T)) :
  forallb (fun x => negb (slot_live x)) (drop n l) = forallb negb (drop n (map slot_live l)).
Proof.
  revert n. induction l as [|x l IH]; intros [|n]; cbn; auto.
  f_equal. clear IH. induction l as [|y l IH]; cbn; auto. now rewrite IH.
Qed.

(** [vec_wf] only looks at the shape of the heap. *)
Lemma vec_wf_shape_eq s s' v : shape s' = shape s -> vec_wf s' v = vec_wf s v.
Proof.
  intros Hs. unfold vec_wf. destruct (buffer (data v)) as [b|]; [|reflexivity].
  f_equal. pose proof (f_equal (fun l => l !! b) Hs) as Hb. cbn in Hb.
  rewrite !shape_lookup in Hb.
  destruct (heap s' !! b) as [[lv' l']|], (heap s !! b) as [[lv l]|]; cbn in Hb;
    try discriminate; [|reflexivity].
  injection Hb as -> Hl. cbn [blk_live blk_slots].
  rewrite !forallb_take_live, !forallb_drop_raw, Hl.
  now rewrite <- (length_map slot_live l'), <- (length_map slot_live l), Hl.
Qed.

(** Writing an object into a slot that already holds one keeps the shape. *)
Lemma put_slot_shape s p x s1 :
  live_at s p -> put_slot p (Some x) s = Ok tt s1 -> objs s1 = objs s /\ shape s1 = shape s.
Proof.
  intros (b' & bs & Hp' & Hsh & Hbs) H. apply put_slot_inv in H as (b & blk & Hp & Hh & ->).
  rewrite Hp in Hp'. injection Hp' as <-. split; [done|].
  rewrite shape_lookup, Hh in Hsh. cbn in Hsh. injection Hsh as Hlv Hbs'. subst bs.
  unfold shape. cbn [heap]. rewrite map_insert_eq. cbn [blk_live blk_slots].
  rewrite map_insert_eq. cbn [slot_live].
  rewrite (list_insert_id (map slot_live (blk_slots blk))) by exact Hbs.
  apply list_insert_id. rewrite lookup_map_eq, Hh. cbn. now rewrite Hlv.
Qed.

Lemma live_at_shape s s' p : shape s' = shape s -> live_at s p -> live_at s' p.
Proof. unfold live_at. now intros ->. Qed.

Lemma may_throw_inv nt s s1 :
  may_throw tr nt s = Ok tt s1 \/ may_throw tr nt s = Exn s1 ->
  heap s1 = heap s /\ objs s1 = objs s.
Proof.
  rewrite may_throw_run. destruct (throws _ _ _);
    intros [H|H]; try discriminate; injection H as <-; auto.
Qed.

(** One step of [std::move]: whether it returns or throws, the object
    store and the shape of the heap are unchanged. *)
Lemma move_step_shape p1 p2 s s1 :
  (v ← read_at p1; assign_at tr p2 MoveA v;; leave_moved_from tr p1 v) s = Ok tt s1 \/
  (v ← read_at p1; assign_at tr p2 MoveA v;; leave_moved_from tr p1 v) s = Exn s1 ->
  objs s1 = objs s /\ shape s1 = shape s.
Proof.
  assert (Hrd : forall v s0, read_at p1 s = Ok v s0 -> s0 = s /\ live_at s p1).
  { intros v s0 H. unfold read_at in H. apply bind_ok_inv in H as ([y|] & s2 & H1 & H2);
      [|unfold ub in H2; discriminate].
    apply get_slot_inv in H1 as (-> & b & blk & Hp & Hh & Hl & Hy).
    rewrite ret_run in H2. injection H2 as _ <-. split; [done|].
    exists b, (map slot_live (blk_slots blk)). split; [done|]. split.
    - rewrite shape_lookup, Hh. cbn. now rewrite Hl.
    - now rewrite lookup_map_eq, Hy. }
  intros [H|H].
  - apply bind_ok_inv in H as (v & s0 & H0 & H). destruct (Hrd v s0 H0) as [-> Hlive1].
    apply bind_ok_inv in H as ([] & s2 & H2 & H3).
    unfold assign_at in H2. apply bind_ok_inv in H2 as ([y|] & s4 & H4 & H5);
      [|unfold ub in H5; discriminate].
    apply get_slot_inv in H4 as (-> & b & blk & Hp & Hh & Hl & Hy).
    apply bind_ok_inv in H5 as ([] & s5 & H5 & H6).
    destruct (may_throw_inv (assign_nothrow tr MoveA) s s5 (or_introl H5)) as [Hh5 Ho5].
    apply bind_ok_inv in H6 as ([] & s6 & H6 & H7).
    assert (Hl2 : live_at s5 p2).
    { exists b, (map slot_live (blk_slots blk)). split; [done|]. split.
      - rewrite shape_lookup, Hh5, Hh. cbn. now rewrite Hl.
      - now rewrite lookup_map_eq, Hy. }
    destruct (put_slot_shape s5 p2 v s6 Hl2 H6) as [Ho6 Hs6].
    unfold emit in H7. injection H7 as <-.
    assert (Hs5 : shape s5 = shape s) by (unfold shape; now rewrite Hh5).
    unfold leave_moved_from in H3.
    apply put_slot_shape in H3 as [Ho3 Hs3].
    + cbn in Ho3, Hs3. rewrite Ho3, Ho6, Ho5, Hs3. unfold shape at 1. cbn [heap].
      fold (shape s6). now rewrite Hs6.
    + apply (live_at_shape s). 2: exact Hlive1.
      unfold shape at 1. cbn [heap]. fold (shape s6). now rewrite Hs6.
  - apply bind_exn_inv in H as [H|(v & s0 & H0 & H)].
    { exfalso. eapply no_exn_elim; [exact H|]. unfold read_at. no_exn_tac. }
    destruct (Hrd v s0 H0) as [-> Hlive1].
    apply bind_exn_inv in H as [H2|([] & s2 & H2 & H3)].
    + unfold assign_at in H2. apply bind_exn_inv in H2 as [H4|([y|] & s4 & H4 & H5)].
      * exfalso. eapply no_exn_elim; [exact H4|]. no_exn_tac.
      * apply get_slot_inv in H4 as (-> & _).
        apply bind_exn_inv in H5 as [H5|([] & s5 & _ & H6)].
        -- destruct (may_throw_inv (assign_nothrow tr MoveA) s s1 (or_intror H5)) as [Hh5 Ho5].
           split; [done|]. unfold shape. now rewrite Hh5.
        -- exfalso. eapply no_exn_elim; [exact H6|]. no_exn_tac.
      * discriminate.
    + exfalso. eapply no_exn_elim; [exact H3|]. unfold leave_moved_from. no_exn_tac.
Qed.

(** An invariant of every iteration, whether it returns or throws, holds
    after a loop that throws. *)
Lemma for_exn_inv (body : nat -> M T unit) (P : state T -> Prop) j n s s' :
  P s -> (forall i st st', P st -> body i st = Ok tt st' \/ body i st = Exn st' -> P st') ->
  for_ j n body s = Exn s' -> P s'.
Proof.
  revert j s. induction n as [|n IH]; intros j s H0 Hb H; cbn [for_] in H.
  - rewrite ret_run in H. discriminate.
  - apply bind_exn_inv in H as [H|([] & s1 & H1 & H2)].
    + exact (Hb j s s' H0 (or_intror H)).
    + exact (IH (S j) s1 (Hb j s s1 H0 (or_introl H1)) Hb H2).
Qed.

(** [Erase] gives the basic guarantee: when a move assignment of
    [std::move] throws, no object has been constructed or destroyed, no
    block allocated or released, the vector object is unchanged and it is
    still well formed (every slot of [[0, size)] holds an element). *)
Theorem erase_exn_basic s this self offset s' :
  objs s !! this = Some self -> vec_wf s self = true -> Erase tr this offset s = Exn s' ->
  objs s' = objs s /\ shape s' = shape s /\ vec_wf s' self = true.
Proof.
  intros Hself Hwf H. unfold Erase in H.
  rewrite (bind_ok _ _ _ _ _ (get_obj_run _ _ _ Hself)) in H.
  apply bind_exn_inv in H as [H|([] & s1 & _ & H)].
  2:{ exfalso. eapply no_exn_elim; [exact H|]. no_exn_tac. }
  unfold std_move in H. destruct (_ <? _); [unfold ub in H; discriminate|].
  assert (Hinv : objs s' = objs s /\ shape s' = shape s).
  { refine (for_exn_inv _ (fun st => objs st = objs s /\ shape st = shape s) _ _ s s' _ _ H);
      [done|].
    intros i st st' [Ho Hs] Hb. destruct (move_step_shape _ _ _ _ Hb) as [Ho' Hs'].
    split; congruence. }
  destruct Hinv as [Ho Hs]. repeat split; auto.
  now rewrite (vec_wf_shape_eq s s' self Hs).
Qed.

End EraseExn.

Section CopyAssignExn.
Context {T : Type} (tr : traits T).
Implicit Types (s : state T).

Lemma read_at_inv p v s s1 : read_at p s = Ok v s1 -> s1 = s /\ live_at s p.
Proof.
  intros H. unfold read_at in H. apply bind_ok_inv in H as ([y|] & s2 & H1 & H2);
    [|unfold ub in H2; discriminate].
  apply get_slot_inv in H1 as (-> & b & blk & Hp & Hh & Hl & Hy).
  rewrite ret_run in H2. injection H2 as _ <-. split; [done|].
  exists b, (map slot_live (blk_slots blk)). split; [done|]. split.
  - rewrite shape_lookup, Hh. cbn. now rewrite Hl.
  - now rewrite lookup_map_eq, Hy.
Qed.

(** An assignment to an element, whether it returns or throws, keeps the
    object store and the shape of the heap. *)
Lemma assign_at_shape p k v s s1 :
  assign_at tr p k v s = Ok tt s1 \/ assign_at tr p k v s = Exn s1 ->
  objs s1 = objs s /\ shape s1 = shape s.
Proof.
  intros Hr. unfold assign_at in Hr. destruct Hr as [H|H].
  - apply bind_ok_inv in H as ([y|] & s4 & H4 & H5); [|unfold ub in H5; discriminate].
    apply get_slot_inv in H4 as (-> & b & blk & Hp & Hh & Hl & Hy).
    apply bind_ok_inv in H5 as ([] & s5 & H5 & H6).
    destruct (may_throw_inv tr _ s s5 (or_introl H5)) as [Hh5 Ho5].
    apply bind_ok_inv in H6 as ([] & s6 & H6 & H7).
    assert (Hl2 : live_at s5 p).
    { exists b, (map slot_live (blk_slots blk)). split; [done|]. split.
      - rewrite shape_lookup, Hh5, Hh. cbn. now rewrite Hl.
      - now rewrite lookup_map_eq, Hy. }
    destruct (put_slot_shape s5 p v s6 Hl2 H6) as [Ho6 Hs6].
    unfold emit in H7. injection H7 as <-. cbn [objs]. split; [congruence|].
    unfold shape at 1. cbn [heap]. fold (shape s6). rewrite Hs6.
    unfold shape. now rewrite Hh5.
  - apply bind_exn_inv in H as [H4|([y|] & s4 & H4 & H5)].
    + exfalso. eapply no_exn_elim; [exact H4|]. no_exn_tac.
    + apply get_slot_inv in H4 as (-> & _).
      apply bind_exn_inv in H5 as [H5|([] & s5 & _ & H6)].
      * destruct (may_throw_inv tr _ s s1 (or_intror H5)) as [Hh5 Ho5].
        split; [done|]. unfold shape. now rewrite Hh5.
      * exfalso. eapply no_exn_elim; [exact H6|]. no_exn_tac.
    + discriminate.
Qed.

Lemma copy_step_shape p1 p2 s s1 :
  (v ← read_at p1; assign_at tr p2 CopyA v) s = Ok tt s1 \/
  (v ← read_at p1; assign_at tr p2 CopyA v) s = Exn s1 ->
  objs s1 = objs s /\ shape s1 = shape s.
Proof.
  intros [H|H].
  - apply bind_ok_inv in H as (v & s0 & H0 & H). apply read_at_inv in H0 as [-> _].
    exact (assign_at_shape _ _ _ _ _ (or_introl H)).
  - apply bind_exn_inv in H as [H|(v & s0 & H0 & H)].
    + exfalso. eapply no_exn_elim; [exact H|]. unfold read_at. no_exn_tac.
    + apply read_at_inv in H0 as [-> _]. exact (assign_at_shape _ _ _ _ _ (or_intror H)).
Qed.

(** [std::copy_n], whether it returns or throws, keeps the object store and
    the shape of the heap. *)
Lemma copy_n_shape first n d s s1 :
  copy_n tr first n d s = Ok tt s1 \/ copy_n tr first n d s = Exn s1 ->
  objs s1 = objs s /\ shape s1 = shape s.
Proof.
  unfold copy_n. intros [H|H].
  - refine (for_ok_inv _ (fun _ st => objs st = objs s /\ shape st = shape s) _ _ s s1 _ _ H);
      [done|].
    intros i st st' _ [Ho Hs] Hb. destruct (copy_step_shape _ _ _ _ (or_introl Hb)).
    split; congruence.
  - refine (for_exn_inv _ (fun st => objs st = objs s /\ shape st = shape s) _ _ s s1 _ _ H);
      [done|].
    intros i st st' [Ho Hs] Hb. destruct (copy_step_shape _ _ _ _ Hb). split; congruence.
Qed.

(** Copy assignment into a vector whose capacity holds the source's
    elements reuses the buffer, and gives the basic guarantee: when an
    element copy throws, both vector objects are unchanged, no element is
    left constructed or destroyed, and both vectors are still well formed. *)
Theorem copy_assign_reuse_exn_basic s this rhs self r s' :
  objs s !! this = Some self -> objs s !! rhs = Some r ->
  vec_wf s self = true -> vec_wf s r = true ->
  (forall b, buffer (data self) = Some b -> buffer (data r) <> Some b) ->
  size r <= capacity (data self) ->
  copy_assign tr this rhs s = Exn s' ->
  objs s' = objs s /\ shape s' = shape s /\ vec_wf s' self = true /\ vec_wf s' r = true.
Proof.
  intros Hself Hr Hwf Hwr Hdis Hcap H.
  enough (Hinv : objs s' = objs s /\ shape s' = shape s).
  { destruct Hinv as [Ho Hs]. repeat split; auto.
    - now rewrite (vec_wf_shape_eq s s' self Hs).
    - now rewrite (vec_wf_shape_eq s s' r Hs). }
  unfold copy_assign in H. destruct (this =? rhs); [rewrite ret_run in H; discriminate|].
  rewrite (bind_ok _ _ _ _ _ (get_obj_run _ _ _ Hself)),
    (bind_ok _ _ _ _ _ (get_obj_run _ _ _ Hr)) in H.
  rewrite (proj2 (Nat.ltb_ge _ _) Hcap) in H.
  destruct (size r <? size self) eqn:Hlt.
  - apply bind_exn_inv in H as [H|([] & s1 & _ & H)].
    + exact (copy_n_shape _ _ _ _ _ (or_intror H)).
    + exfalso. eapply no_exn_elim; [exact H|]. no_exn_tac.
  - apply Nat.ltb_ge in Hlt.
    apply bind_exn_inv in H as [H|([] & s1 & H1 & H)].
    + exact (copy_n_shape _ _ _ _ _ (or_intror H)).
    + destruct (copy_n_shape _ _ _ _ _ (or_introl H1)) as [Ho1 Hs1].
      apply bind_exn_inv in H as [H|([] & s2 & _ & H)].
      2:{ exfalso. eapply no_exn_elim; [exact H|]. no_exn_tac. }
      destruct (decide (size r - size self = 0)) as [H0|H0].
      { rewrite H0 in H. unfold uninitialized_copy_n in H. cbn [for_] in H.
        rewrite ret_run in H. discriminate. }
      assert (Hwf1 : vec_wf s1 self = true) by now rewrite (vec_wf_shape_eq s s1 self Hs1).
      assert (Hwr1 : vec_wf s1 r = true) by now rewrite (vec_wf_shape_eq s s1 r Hs1).
      destruct (buffer (data self)) as [nb|] eqn:Hnb.
      2:{ destruct (vec_wf_null s self Hwf Hnb). lia. }
      destruct (buffer (data r)) as [ob|] eqn:Hob.
      2:{ destruct (vec_wf_null s r Hwr Hob). lia. }
      assert (Hne : ob <> nb) by (intros ->; exact (Hdis nb eq_refl eq_refl)).
      destruct (vec_wf_block s1 r ob Hwr1 Hob) as (os & Hos & _ & Hszr & Hlive & _).
      destruct (vec_wf_block s1 self nb Hwf1 Hnb) as (ns & Hns & Hnslen & Hszs & _ & Hraw).
      destruct (live_values (drop (size self) os) (size r - size self)) as (vs & Hvs & Hsrc).
      { intros j Hj. rewrite lookup_drop. apply Hlive. lia. }
      unfold vbegin, GetAddress, ptr_add in H. rewrite Hnb, Hob in H.
      cbn [pblk poff Nat.add] in H. rewrite <- Hvs in H.
      rewrite (uninitialized_copy_n_run tr s1 ob os (size self) nb ns (size self) vs Hne Hos Hns)
        in H.
      2:{ intros j v Hj. rewrite <- lookup_drop. exact (Hsrc j v Hj). }
      2:{ rewrite Hvs. lia. }
      destruct (first_throw tr (tick s1) (length vs)) as [k|] eqn:Hft; [|discriminate].
      destruct (first_throw_Some tr _ _ _ Hft) as (Hk & _ & _).
      injection H as <-. cbn [objs]. split; [congruence|].
      unfold shape. cbn [heap].
      rewrite inserts_id.
      * rewrite (list_insert_id (heap s1)) by exact Hns. fold (shape s1). exact Hs1.
      * intros j x Hj. apply lookup_replicate in Hj as [-> Hj]. apply Hraw. lia.
Qed.

End CopyAssignExn.

Section EdgesMore.
Context {T : Type} (tr : traits T).
Implicit Types (s : state T).

(** The pointer [EmplaceBack] returns: slot [size] of the fresh block when it
    grows, of the vector's own buffer otherwise. *)
Lemma EmplaceBack_ptr this k value s self p s' :
  objs s !! this = Some self -> EmplaceBack tr this k (AVal value) s = Ok p s' ->
  p = mk_ptr (if size self =? capacity (data self) then Some (length (heap s))
              else buffer (data self)) (size self).
Proof.
  intros Hself H. unfold EmplaceBack in H.
  rewrite (bind_ok _ _ _ _ _ (get_obj_run _ _ _ Hself)) in H.
  destruct (size self =? capacity (data self)) eqn:Hg.
  - grow_alloc H.
    pose proof (grow_n_max (size self)) as HN. apply Nat.eqb_eq in Hg.
    apply bind_ok_inv in H as (a & s1 & Hc & H). apply catch_ok_inv in Hc.
    unfold raw_plus in Hc. cbn [capacity buffer] in Hc.
    rewrite (proj2 (Nat.leb_le _ _)) in Hc by lia.
    rewrite (bind_ok _ _ _ _ _ (ret_run _ _)) in Hc.
    repeat (apply bind_ok_inv in Hc as (? & ? & _ & Hc)).
    rewrite ret_run in Hc. injection Hc as <- _.
    cbn [raw_move_assign] in H.
    repeat (apply bind_ok_inv in H as (? & ? & _ & H)).
    rewrite ret_run in H. now injection H as <- _.
  - apply Nat.eqb_neq in Hg.
    unfold raw_plus in H. destruct (size self <=? capacity (data self));
      [|unfold assert_fail in H; discriminate].
    rewrite (bind_ok _ _ _ _ _ (ret_run _ _)) in H.
    repeat (apply bind_ok_inv in H as (? & ? & _ & H)).
    rewrite ret_run in H. now injection H as <- _.
Qed.

(** The reference [EmplaceBack] of a value (not an element of the vector)
    returns designates the new last element, on
    the growth path (where it was built in the block that became the
    buffer) as on the in-place path. *)
Theorem emplace_back_returns_new this k value s self vs p s' :
  objs s !! this = Some self -> vec_wf s self = true -> vec_slots s self = map Some vs ->
  EmplaceBack tr this k (AVal value) s = Ok p s' ->
  exists self', objs s' = <[this := self']> (objs s) /\
    vec_slots s' self' = map Some (vs ++ [value]) /\
    p = ptr_add (vbegin self') (size self) /\ read_at p s' = Ok value s'.
Proof.
  intros Hself Hwf Hsl H.
  destruct (slots_values s self vs Hwf Hsl) as [Hlen _].
  assert (Hp : push_back_op tr (EmplaceBackK k) this value s = Ok tt s').
  { cbn [push_back_op]. now rewrite (bind_ok _ _ _ _ _ H). }
  destruct (push_back_ok_run tr (EmplaceBackK k) this value s self vs s' Hself Hwf Hsl Hp)
    as (self' & Ho & Hs & Hwf' & Hsl').
  destruct (emplace_back_growth tr this k (AVal value) s self Hself) as [_ Hok].
  destruct (Hok p s' H) as [_ Hget].
  rewrite Ho, list_lookup_insert_eq in Hget by (eapply lookup_lt_Some; eauto).
  injection Hget as Hself'.
  pose proof (EmplaceBack_ptr this k value s self p s' Hself H) as Hptr.
  assert (Hpe : p = ptr_add (vbegin self') (size self)).
  { rewrite Hptr, Hself'. unfold vbegin, GetAddress, ptr_add. cbn [data buffer pblk poff].
    now destruct (size self =? capacity (data self)). }
  exists self'. repeat split; auto.
  rewrite Hpe. apply (read_slot s' self' (vs ++ [value])); auto.
  rewrite lookup_app_r by lia. rewrite Hlen, Nat.sub_diag. reflexivity.
Qed.

End EdgesMore.

(** ** Witnesses: the theorems above at concrete vectors *)

Lemma swap_swap_id_witness : (Swap 0 1;; Swap 0 1) two_state = Ok tt two_state.
Proof. apply (swap_swap_id two_state 0 1 full2_vec empty_vec); reflexivity. Defined.

Lemma vec_dtor_releases_witness :
  vec_dtor 0 full2_state =
  Ok tt (mk_state [mk_block false [None; None]] [full2_vec]
                  (ev_destroys (mk_ptr (Some 0) 0) 2 ++ [EDealloc 0]) 0).
Proof.
  rewrite (vec_dtor_releases full2_state 0 full2_vec) by (vm_compute; reflexivity).
  reflexivity.
Defined.

Lemma vec_sized_run_witness :
  exists v s', vec_sized int_tr 3 one_empty_state = Ok v s' /\
    heap s' = [mk_block true [Some 0; Some 0; Some 0]].
Proof.
  rewrite (vec_sized_run int_tr one_empty_state 3 eq_refl). vm_compute. eauto.
Defined.

Lemma vec_sized_elements_witness :
  exists v s', vec_sized int_tr 3 one_empty_state = Ok v s' /\
    vec_wf s' v = true /\ vec_slots s' v = replicate 3 (Some 0) /\
    capacity (data v) = 3 /\ objs s' = objs one_empty_state.
Proof.
  do 2 eexists. split; [vm_compute; reflexivity|].
  apply (vec_sized_elements int_tr one_empty_state 3). vm_compute. reflexivity.
Defined.

Lemma vec_copy_spec_witness :
  (exists v s', vec_copy int_tr 0 full2_state = Ok v s' /\
     vec_wf s' v = true /\ vec_slots s' v = map Some [5; 6] /\ size v = 2 /\
     capacity (data v) = 2 /\ objs s' = objs full2_state /\
     forall b, b < length (heap full2_state) -> heap s' !! b = heap full2_state !! b) \/
  (new_fails int_tr 1 (alloc_bytes int_tr 2) = true /\ vec_copy int_tr 0 full2_state = Exn full2_state) \/
  (new_fails int_tr 1 (alloc_bytes int_tr 2) = false /\
   exists s', vec_copy int_tr 0 full2_state = Exn s' /\ objs s' = objs full2_state /\
     heap s' = heap full2_state ++ [mk_block false (replicate 2 None)]).
Proof. apply (vec_copy_spec int_tr full2_state 0 full2_vec [5; 6]); vm_compute; reflexivity. Defined.

Lemma vec_index_reads_witness :
  exists p, vec_index 0 1 full2_state = Ok p full2_state /\ read_at p full2_state = Ok 6 full2_state.
Proof. apply (vec_index_reads full2_state 0 full2_vec [5; 6] 1 6); vm_compute; reflexivity. Defined.

Lemma reserve_ok_witness :
  exists s', Reserve int_tr 0 4 full2_state = Ok tt s' /\
  exists self', objs s' = <[0 := self']> (objs full2_state) /\ size self' = 2 /\
    capacity (data self') = Nat.max 2 4 /\
    vec_wf s' self' = true /\ vec_slots s' self' = map Some [5; 6] /\
    (2 < 4 ->
       data self' = mk_raw (Some 1) 4 /\
       forall b, Some 0 = Some b -> heap s' !! b = Some (mk_block false (replicate 2 None))).
Proof.
  eexists. split; [vm_compute; reflexivity|].
  apply (reserve_ok int_tr full2_state 0 full2_vec [5; 6] 4); vm_compute; reflexivity.
Defined.

Lemma reserve_exn_strong_witness :
  exists s', Reserve copy_throwing_tr 0 4 full2_state_t2 = Exn s' /\
    objs s' = objs full2_state_t2 /\
    heap s' = heap full2_state_t2 ++ [mk_block false (replicate 4 None)].
Proof.
  eexists. split; [vm_compute; reflexivity|].
  apply (reserve_exn_strong copy_throwing_tr full2_state_t2 0 full2_vec 4); vm_compute; reflexivity.
Defined.

Lemma resize_shrinks_witness :
  exists s', Resize int_tr 0 1 full2_state = Ok tt s' /\
    objs s' = <[0 := mk_vec (data full2_vec) 1]> (objs full2_state) /\
    vec_wf s' (mk_vec (data full2_vec) 1) = true /\
    vec_slots s' (mk_vec (data full2_vec) 1) = map Some (take 1 [5; 6]) /\
    log s' = log full2_state ++ ev_destroys (ptr_add (vbegin full2_vec) 1) (2 - 1).
Proof.
  apply (resize_shrinks int_tr full2_state 0 full2_vec [5; 6] 1); vm_compute; first [reflexivity | lia].
Defined.

Lemma resize_grows_witness :
  exists s', Resize int_tr 0 3 full2_state = Ok tt s' /\
  exists self', objs s' = <[0 := self']> (objs full2_state) /\ size self' = 3 /\
    capacity (data self') = Nat.max 2 3 /\ vec_wf s' self' = true /\
    vec_slots s' self' = map Some ([5; 6] ++ replicate (3 - 2) 0).
Proof.
  eexists. split; [vm_compute; reflexivity|].
  apply (resize_grows int_tr full2_state 0 full2_vec [5; 6] 3); vm_compute; first [reflexivity | lia].
Defined.

Lemma resize_exn_keeps_witness :
  exists s', Resize copy_throwing_tr 0 4 full2_state = Exn s' /\
  exists self', objs s' = <[0 := self']> (objs full2_state) /\ size self' = 2 /\
    vec_wf s' self' = true /\ vec_slots s' self' = map Some [5; 6].
Proof.
  eexists. split; [vm_compute; reflexivity|].
  apply (resize_exn_keeps copy_throwing_tr full2_state 0 full2_vec [5; 6] 4); vm_compute; reflexivity.
Defined.

Lemma push_back_appends_witness :
  exists s', push_back_op int_tr PushCopy 0 7 full2_state = Ok tt s' /\
  exists self', objs s' = <[0 := self']> (objs full2_state) /\ size self' = 3 /\
    vec_wf s' self' = true /\ vec_slots s' self' = map Some ([5; 6] ++ [7]).
Proof.
  eexists. split; [vm_compute; reflexivity|].
  apply (push_back_appends int_tr PushCopy 0 7 full2_state full2_vec [5; 6]); vm_compute; reflexivity.
Defined.

Lemma pop_back_removes_witness :
  exists s', PopBack 0 full2_state = Ok tt s' /\
    objs s' = <[0 := mk_vec (data full2_vec) (2 - 1)]> (objs full2_state) /\
    vec_wf s' (mk_vec (data full2_vec) (2 - 1)) = true /\
    vec_slots s' (mk_vec (data full2_vec) (2 - 1)) = map Some [5].
Proof. apply (pop_back_removes full2_state 0 full2_vec [5] 6); vm_compute; reflexivity. Defined.

Lemma push_pop_roundtrip_witness :
  exists s1, push_back_op int_tr PushMove 0 7 full2_state = Ok tt s1 /\
  exists s2, PopBack 0 s1 = Ok tt s2 /\
    exists self2, objs s2 = <[0 := self2]> (objs full2_state) /\ size self2 = 2 /\
      vec_wf s2 self2 = true /\ vec_slots s2 self2 = map Some [5; 6].
Proof.
  eexists. split; [vm_compute; reflexivity|].
  apply (push_pop_roundtrip int_tr PushMove 0 7 full2_state full2_vec [5; 6]); vm_compute; reflexivity.
Defined.

Lemma emplace_at_end_appends_witness :
  exists p s', Emplace int_tr 0 2 ArgsC (AVal 7) full2_state = Ok p s' /\
  exists self', objs s' = <[0 := self']> (objs full2_state) /\ size self' = 3 /\
    vec_wf s' self' = true /\ vec_slots s' self' = map Some ([5; 6] ++ [7]) /\
    p = ptr_add (vbegin self') 2 /\ read_at p s' = Ok 7 s'.
Proof.
  do 2 eexists. split; [vm_compute; reflexivity|].
  apply (emplace_at_end_appends int_tr 0 ArgsC 7 full2_state full2_vec [5; 6]); vm_compute; reflexivity.
Defined.

Lemma emplace_in_place_inserts_witness :
  exists p s', Emplace int_tr 0 0 ArgsC (AVal 7) spare3_state = Ok p s' /\
    objs s' = <[0 := mk_vec (data spare3_vec) 3]> (objs spare3_state) /\
    vec_wf s' (mk_vec (data spare3_vec) 3) = true /\
    vec_slots s' (mk_vec (data spare3_vec) 3) = map Some (take 0 [5; 6] ++ 7 :: drop 0 [5; 6]) /\
    p = ptr_add (vbegin spare3_vec) 0 /\ read_at p s' = Ok 7 s'.
Proof.
  do 2 eexists. split; [vm_compute; reflexivity|].
  apply (emplace_in_place_inserts int_tr spare3_state 0 spare3_vec [5; 6] 0 ArgsC 7);
    vm_compute; try reflexivity; lia.
Defined.

Lemma emplace_growth_inserts_witness :
  exists p s', Emplace int_tr 0 0 ArgsC (AVal 7) full2_state = Ok p s' /\
    let self' := mk_vec (mk_raw (Some 1) 4) 3 in
    objs s' = <[0 := self']> (objs full2_state) /\
    vec_wf s' self' = true /\
    vec_slots s' self' = map Some (take 0 [5; 6] ++ 7 :: drop 0 [5; 6]) /\
    p = ptr_add (vbegin self') 0 /\ read_at p s' = Ok 7 s'.
Proof.
  do 2 eexists. split; [vm_compute; reflexivity|].
  apply (emplace_growth_inserts int_tr full2_state 0 full2_vec [5; 6] 0 ArgsC 7);
    vm_compute; try reflexivity; lia.
Defined.

Lemma insert_erase_roundtrip_witness :
  exists p s1, Emplace int_tr 0 1 ArgsC (AVal 7) full2_state = Ok p s1 /\
  exists q s2, Erase int_tr 0 1 s1 = Ok q s2 /\
    q = p /\
    exists self2, objs s2 = <[0 := self2]> (objs full2_state) /\ size self2 = 2 /\
      vec_wf s2 self2 = true /\ vec_slots s2 self2 = map Some [5; 6].
Proof.
  do 2 eexists. split; [vm_compute; reflexivity|].
  match goal with |- exists q s2, Erase _ _ _ ?S1 = _ /\ _ = ?P /\ _ =>
    set (s1 := S1); set (p := P) end.
  do 2 eexists. split; [vm_compute; reflexivity|].
  match goal with |- ?Q = _ /\ exists self2, objs ?S2 = _ /\ _ =>
    set (q := Q); set (s2 := S2) end.
  apply (insert_erase_roundtrip int_tr full2_state 0 full2_vec [5; 6] 1 ArgsC 7 p s1 q s2);
    vm_compute; try reflexivity; lia.
Defined.

Lemma move_assign_self_witness : move_assign 0 0 full2_state = Ok tt full2_state.
Proof. apply (move_assign_self full2_state 0 full2_vec). reflexivity. Defined.

Lemma resize_same_size_witness : Resize int_tr 0 2 full2_state = Ok tt full2_state.
Proof.
  apply (resize_same_size int_tr full2_state 0 full2_vec); vm_compute; reflexivity.
Defined.

Lemma erase_last_is_pop_back_witness :
  Erase int_tr 0 1 full2_state = (PopBack 0;; mret (ptr_add (vbegin full2_vec) 1)) full2_state.
Proof.
  apply (erase_last_is_pop_back int_tr full2_state 0 full2_vec); [reflexivity | cbn; lia].
Defined.

Lemma moved_from_dtor_noop_witness :
  (v ← vec_move 0; vec_dtor 0;; mret v) full2_state = vec_move 0 full2_state.
Proof. apply (moved_from_dtor_noop full2_state 0 full2_vec). reflexivity. Defined.

Lemma push_in_place_exn_strong_witness :
  exists s', push_back_op copy_throwing_tr PushCopy 0 7 spare3_state_t2 = Exn s' /\
    (heap s' = heap spare3_state_t2 /\ objs s' = objs spare3_state_t2 /\
     log s' = log spare3_state_t2).
Proof.
  eexists. split; [vm_compute; reflexivity|].
  apply (push_in_place_exn_strong copy_throwing_tr PushCopy 0 7 spare3_state_t2 spare3_vec);
    vm_compute; try reflexivity; lia.
Defined.

Lemma reserve_twice_witness :
  (Reserve int_tr 0 4;; Reserve int_tr 0 4) full2_state = Reserve int_tr 0 4 full2_state.
Proof. apply (reserve_twice int_tr full2_state 0 full2_vec 4); vm_compute; reflexivity. Defined.

Lemma erase_exn_basic_witness :
  exists s', Erase copy_throwing_tr 0 0 full2_state_t2 = Exn s' /\
    (objs s' = objs full2_state_t2 /\ shape s' = shape full2_state_t2 /\ vec_wf s' full2_vec = true).
Proof.
  eexists. split; [vm_compute; reflexivity|].
  apply (erase_exn_basic copy_throwing_tr full2_state_t2 0 full2_vec 0);
    vm_compute; reflexivity.
Defined.

Lemma copy_assign_reuse_exn_basic_witness :
  exists s', copy_assign copy_throwing_tr 1 0 pair_spare_state = Exn s' /\
    (objs s' = objs pair_spare_state /\ shape s' = shape pair_spare_state /\
     vec_wf s' (mk_vec (mk_raw (Some 1) 2) 1) = true /\ vec_wf s' full2_vec = true).
Proof.
  eexists. split; [vm_compute; reflexivity|].
  apply (copy_assign_reuse_exn_basic copy_throwing_tr pair_spare_state 1 0
           (mk_vec (mk_raw (Some 1) 2) 1) full2_vec);
    try (vm_compute; reflexivity).
  intros b Hb. cbn in Hb. injection Hb as <-. cbn. congruence.
Defined.

Lemma emplace_back_returns_new_witness :
  exists p s', EmplaceBack int_tr 0 ArgsC (AVal 7) full2_state = Ok p s' /\
    exists self', objs s' = <[0 := self']> (objs full2_state) /\
      vec_slots s' self' = map Some ([5; 6] ++ [7]) /\
      p = ptr_add (vbegin self') (size full2_vec) /\ read_at p s' = Ok 7 s'.
Proof.
  do 2 eexists. split; [vm_compute; reflexivity|].
  apply (emplace_back_returns_new int_tr 0 ArgsC 7 full2_state full2_vec [5; 6]);
    vm_compute; reflexivity.
Defined.

End Extra.
